(** * JIT-ARM-compiler: the expression emitter and its A32 output

    A shallow embedding of [src/src/JIT_compiler.cpp] (built against
    [include/JIT_compiler.hpp], which leaves [DEBUG] undefined) for the
    32-bit ARM target named in [CMakeLists.txt] (arm-linux-gnueabi:
    [int], [long], [size_t] and pointers are 32 bits wide).

    - C++ exceptions, failed assertions and undefined behaviour are the
      [Error] results of a small error monad;
    - [std::string] is [string], [std::map<std::string, void*>] is a
      [gmap string Z], [std::vector] is [list];
    - 32-bit machine words are integers of [Z] with the wrap-around
      written out. *)

From Stdlib Require Import ZArith Lia List String Ascii.
From stdpp Require Import base gmap strings.

Set Warnings "-register-all".

Local Open Scope string_scope.
Local Open Scope list_scope.
Local Open Scope Z_scope.

(** ** Failures and the error monad *)

Inductive failure :=
| InvalidArgument      (* std::invalid_argument of std::stoi / std::stoul *)
| ConstantOverflow     (* std::out_of_range of std::stoi / std::stoul *)
| NameNotFound         (* std::out_of_range of std::map::at *)
| InternalConsistency  (* a failed assert *)
| Undefined.           (* undefined behaviour: empty optional, index past the end *)

Inductive result (A : Type) :=
| Ok (a : A)
| Error (e : failure).

Arguments Ok {A} a.
Arguments Error {A} e.

Definition bind {A B} (m : result A) (k : A -> result B) : result B :=
  match m with
  | Ok a => k a
  | Error e => Error e
  end.

Notation "'let*' x ':=' m 'in' k" := (bind m (fun x => k))
  (at level 10, x name, m at level 100, k at level 200).

(** ** The C++ library functions the program calls *)

Module Cxx.

Definition INT_MAX : Z := 2 ^ 31 - 1.
Definition INT_MIN : Z := - 2 ^ 31.
Definition ULONG_MAX : Z := 2 ^ 32 - 1.

(** A value stored into a [uint32_t]. *)
Definition to_uint32 (v : Z) : Z := v mod 2 ^ 32.

(** A value stored into a [uint8_t]. *)
Definition to_uint8 (v : Z) : Z := v mod 2 ^ 8.

(** A value stored into an [int32_t]. *)
Definition to_int32 (v : Z) : Z := (v + 2 ^ 31) mod 2 ^ 32 - 2 ^ 31.

Definition code (c : ascii) : Z := Z.of_N (N_of_ascii c).
Definition char_of (n : Z) : ascii := ascii_of_N (Z.to_N n).

(** [isspace] in the C locale. *)
Definition isspace (c : ascii) : bool :=
  (code c =? 32) || ((9 <=? code c) && (code c <=? 13)).

(** The value of a character as a digit of [base], as [strtol] and
    [strtoul] read it: 0-9, then letters of either case from 10 on. *)
Definition digit_value (base : Z) (c : ascii) : option Z :=
  let n := code c in
  let v :=
    if (48 <=? n) && (n <=? 57) then n - 48
    else if (97 <=? n) && (n <=? 122) then n - 97 + 10
    else if (65 <=? n) && (n <=? 90) then n - 65 + 10
    else 36 in
  if v <? base then Some v else None.

Fixpoint skip_space (s : string) : string :=
  match s with
  | String c s' => if isspace c then skip_space s' else s
  | EmptyString => s
  end.

(** An optional sign: [true] for a minus. *)
Definition take_sign (s : string) : bool * string :=
  match s with
  | String c s' =>
      if code c =? code "-" then (true, s')
      else if code c =? code "+" then (false, s')
      else (false, s)
  | EmptyString => (false, s)
  end.

Definition starts_with_digit (base : Z) (s : string) : bool :=
  match s with
  | String c _ => match digit_value base c with Some _ => true | None => false end
  | EmptyString => false
  end.

(** The longest run of digits at the front of [s], read left to right. *)
Fixpoint accumulate (base : Z) (s : string) (acc : Z) : Z :=
  match s with
  | String c s' =>
      match digit_value base c with
      | Some d => accumulate base s' (acc * base + d)
      | None => acc
      end
  | EmptyString => acc
  end.

(** [std::stoi(s)]: [strtol] in base 10, then the range check of [int].
    No digit: [std::invalid_argument]; outside [int]: [std::out_of_range]. *)
Definition stoi (s : string) : result Z :=
  let '(negative, digits) := take_sign (skip_space s) in
  if starts_with_digit 10 digits then
    let v := accumulate 10 digits 0 in
    let r := if negative then - v else v in
    if (r <? INT_MIN) || (INT_MAX <? r) then Error ConstantOverflow else Ok r
  else Error InvalidArgument.

(** The base [strtoul] detects when called with base 0, and the text
    that follows the prefix. *)
Definition detect_base (s : string) : Z * string :=
  match s with
  | String c s' =>
      if code c =? code "0" then
        match s' with
        | String x s'' =>
            if ((code x =? code "x") || (code x =? code "X")) && starts_with_digit 16 s''
            then (16, s'') else (8, s)
        | EmptyString => (8, s)
        end
      else (10, s)
  | EmptyString => (10, s)
  end.

(** [std::stoul(s, nullptr, 0)]: [strtoul] with the base detected from
    the prefix. A minus sign negates in [unsigned long]. *)
Definition stoul (s : string) : result Z :=
  let '(negative, body) := take_sign (skip_space s) in
  let '(base, digits) := detect_base body in
  if starts_with_digit base digits then
    let v := accumulate base digits 0 in
    if ULONG_MAX <? v then Error ConstantOverflow
    else Ok (if negative then (- v) mod 2 ^ 32 else v)
  else Error InvalidArgument.

Definition hex_char (d : Z) : ascii :=
  if d <? 10 then char_of (48 + d) else char_of (87 + d).

(** Lower-case hexadecimal digits of [n] put in front of [tail], most
    significant first, no leading zero. *)
Fixpoint hex_digits (fuel : nat) (n : Z) (tail : string) : string :=
  match fuel with
  | O => tail
  | S fuel' =>
      let tail' := String (hex_char (n mod 16)) tail in
      if n / 16 =? 0 then tail' else hex_digits fuel' (n / 16) tail'
  end.

(** What [stream << std::hex << v] writes for a 32-bit [v]: an [int] is
    written as its [unsigned] bit pattern. *)
Definition hex (v : Z) : string := hex_digits 8 (to_uint32 v) "".

(** What [stream << p] writes for a [void*]: hexadecimal with the base
    shown, and a bare 0 for the null pointer. *)
Definition print_pointer (p : Z) : string :=
  if to_uint32 p =? 0 then "0" else "0x" +:+ hex p.

End Cxx.

(** ** The syntax tree (include/JIT_compiler.hpp) *)

(** [enum class ExpressionType]; [Variable] is written [Variable_], the
    word being reserved. *)
Inductive ExpressionType :=
| Constant
| Default
| Variable_
| Plus
| Minus
| Product
| Function.

Unset Elimination Schemes.
Inductive Node := mkNode {
  type : ExpressionType;
  content : option string;
  sub_expressions : list Node
}.
Set Elimination Schemes.

(** Induction on a tree, with the property known of every child. *)
Section NodeInduction.

Variable P : Node -> Prop.
Hypothesis node_case :
  forall t c children, Forall P children -> P (mkNode t c children).

Fixpoint Node_ind (n : Node) : P n :=
  match n with
  | mkNode t c children =>
      node_case t c children
        ((fix all (l : list Node) : Forall P l :=
            match l with
            | [] => @List.Forall_nil Node P
            | x :: l' => @List.Forall_cons Node P x l' (Node_ind x) (all l')
            end) children)
  end.

End NodeInduction.

(** [std::make_unique<Node>()]. *)
Definition fresh_Node : Node := mkNode Default None [].

(** ** The parser's constant leaves *)

(** [*it] for an iterator at index [i] of [expression_]; the terminator
    is readable at the end. *)
Definition char_at (expression_ : string) (i : nat) : result ascii :=
  match get i expression_ with
  | Some c => Ok c
  | None => if Nat.eqb i (String.length expression_) then Ok zero else Error Undefined
  end.

Definition IsConstant (expression_ : string) (left : nat) : result bool :=
  let* c := char_at expression_ left in
  Ok ((Cxx.code "0" <=? Cxx.code c) && (Cxx.code c <=? Cxx.code "9")).

(** Iterators are indices into [expression_]. *)
Definition ParseConstant (expression_ : string) (current_node : Node)
    (left right : nat) : result Node :=
  let dec_view := substring left (right - left) expression_ in
  let* v := Cxx.stoi dec_view in
  let hex_view := "0x" +:+ Cxx.hex v in
  Ok (mkNode Constant (Some hex_view) (sub_expressions current_node)).

(** The decimal literal a leaf starts with, and its value by position. *)
Fixpoint leading_digits (base : Z) (s : string) : list Z :=
  match s with
  | String c s' =>
      match Cxx.digit_value base c with
      | Some d => d :: leading_digits base s'
      | None => []
      end
  | EmptyString => []
  end.

Fixpoint positional_value (base : Z) (ds : list Z) : Z :=
  match ds with
  | [] => 0
  | d :: ds' => d * base ^ Z.of_nat (length ds') + positional_value base ds'
  end.

Definition literal_value (leaf : string) : Z :=
  positional_value 10 (leading_digits 10 leaf).

(** A text of hexadecimal digits only, and the number it writes. *)
Definition hexadecimal (h : string) (v : Z) : Prop :=
  h <> "" /\ length (leading_digits 16 h) = String.length h /\
  positional_value 16 (leading_digits 16 h) = v.

Definition begins_with_decimal_digit (leaf : string) : Prop :=
  exists c rest, leaf = String c rest /\ 48 <= Cxx.code c <= 57.


(** ** The emitter (class ARM_JIT_Compiler) *)

Inductive ARM_INSTRUCTION :=
| ADD
| SUB
| MUL
| BLX
| LDR_FROM_NEXT
| LDR_REG
| PUSH_MULT_REG
| PUSH_REG
| POP_MULT_REG
| POP_REG
| WORD_DECL.

(** [enum class ARM_REGISTER] by its underlying [int]: [handle_function]
    makes registers with [static_cast] from a number, so a register is the
    number it holds. *)
Definition ARM_REGISTER := Z.
Definition R0 : ARM_REGISTER := 0.
Definition R1 : ARM_REGISTER := 1.
Definition R2 : ARM_REGISTER := 2.
Definition R3 : ARM_REGISTER := 3.
Definition R4 : ARM_REGISTER := 4.
Definition LR : ARM_REGISTER := 5.
Definition PC : ARM_REGISTER := 6.

Definition instruction_t : Type :=
  ARM_INSTRUCTION * option ARM_REGISTER * option ARM_REGISTER * option string.

(** [*opt] of a [std::optional]. *)
Definition deref {A} (o : option A) : result A :=
  match o with
  | Some a => Ok a
  | None => Error Undefined
  end.

(** [std::for_each] with a callback that works on the object's state. *)
Definition for_each {A S} (f : A -> S -> result S) : list A -> S -> result S :=
  fix go (l : list A) (s : S) : result S :=
    match l with
    | [] => Ok s
    | a :: l' => let* s' := f a s in go l' s'
    end.

(** The [POP_REG] loop of [handle_function], [i] iterations left:
    registers [R0 + i - 1] down to [R0]. *)
Fixpoint pop_arguments (i : nat) : list instruction_t :=
  match i with
  | O => []
  | S i' => (POP_REG, Some (R0 + Z.of_nat (S i') - 1), None, None) :: pop_arguments i'
  end.

Section Compiler.

Variable address_map_ : gmap string Z.

(** [address_map_.at(name)]. *)
Definition at_ (name : string) : result Z :=
  match address_map_ !! name with
  | Some p => Ok p
  | None => Error NameNotFound
  end.

Definition handle_const (current : Node) (instructions_ : list instruction_t)
  : result (list instruction_t) :=
  Ok (instructions_ ++
      [ (LDR_FROM_NEXT, Some R0, None, content current);
        (WORD_DECL, None, None, content current);
        (PUSH_REG, Some R0, None, None) ]).

Definition handle_variable (current : Node) (instructions_ : list instruction_t)
  : result (list instruction_t) :=
  let* name := deref (content current) in
  let* address := at_ name in
  let address_str := Cxx.print_pointer address in
  Ok (instructions_ ++
      [ (LDR_FROM_NEXT, Some R0, None, Some address_str);
        (WORD_DECL, None, None, Some address_str);
        (LDR_REG, Some R0, Some R0, None);
        (PUSH_REG, Some R0, None, None) ]).

Section Handlers.

(** The recursive call of [compile_]. *)
Variable compile_ : Node -> list instruction_t -> result (list instruction_t).

(** The body [handle_plus], [handle_minus] and [handle_product] share;
    they differ in the one instruction [op]. *)
Definition handle_arithmetic (op : ARM_INSTRUCTION) (current : Node)
    (instructions_ : list instruction_t) : result (list instruction_t) :=
  match sub_expressions current with
  | lhs :: rhs :: _ =>
      let* instructions_ := compile_ lhs instructions_ in
      let* instructions_ := compile_ rhs instructions_ in
      Ok (instructions_ ++
          [ (POP_MULT_REG, Some R0, Some R1, None);
            (op, Some R0, Some R1, None);
            (PUSH_REG, Some R0, None, None) ])
  | [lhs] => let* _ := compile_ lhs instructions_ in Error Undefined
  | [] => Error Undefined
  end.

Definition handle_plus := handle_arithmetic ADD.
Definition handle_minus := handle_arithmetic SUB.
Definition handle_product := handle_arithmetic MUL.

Definition handle_function (current : Node) (instructions_ : list instruction_t)
  : result (list instruction_t) :=
  let* instructions_ := for_each compile_ (sub_expressions current) instructions_ in
  let arguments_number := Z.of_nat (length (sub_expressions current)) in
  if arguments_number >? 0 then
    let* name := deref (content current) in
    let* address := at_ name in
    let content := Cxx.print_pointer address in
    let i := Cxx.to_int32 arguments_number in
    Ok (instructions_ ++ pop_arguments (Z.to_nat i) ++
        [ (LDR_FROM_NEXT, Some R4, None, Some content);
          (WORD_DECL, None, None, Some content);
          (BLX, Some R4, None, None);
          (PUSH_REG, Some R0, None, None) ])
  else Error InternalConsistency.

End Handlers.

Fixpoint compile_ (current : Node) (instructions_ : list instruction_t)
  {struct current} : result (list instruction_t) :=
  match type current with
  | Constant => handle_const current instructions_
  | Variable_ => handle_variable current instructions_
  | Plus => handle_plus compile_ current instructions_
  | Minus => handle_minus compile_ current instructions_
  | Product => handle_product compile_ current instructions_
  | Function => handle_function compile_ current instructions_
  | Default => Error InternalConsistency
  end.

Definition add_header (instructions_ : list instruction_t) : list instruction_t :=
  instructions_ ++ [ (PUSH_REG, Some LR, None, None); (PUSH_REG, Some R4, None, None) ].

Definition add_footer (instructions_ : list instruction_t) : list instruction_t :=
  instructions_ ++ [ (POP_REG, Some R0, None, None); (POP_MULT_REG, Some R4, Some PC, None) ].

(** [compile()], from the empty [instructions_] of a new compiler. *)
Definition compile (parse_tree_ : Node) : result (list instruction_t) :=
  let* instructions_ := compile_ parse_tree_ (add_header []) in
  Ok (add_footer instructions_).

End Compiler.

(** ** Translation to raw words (GetCompiledBinary) *)

(** [a << n] in [uint32_t]. *)
Definition shl32 (a n : Z) : Z := Cxx.to_uint32 (Z.shiftl a n).

(** One round of the loop of [GetCompiledBinary]: the words the
    instruction adds to [binary]. *)
Definition translate (instruction : instruction_t) : result (list Z) :=
  let '(type, reg1_o, reg2_o, str) := instruction in
  let reg1 := match reg1_o with Some r => Cxx.to_uint8 r | None => 0 end in
  let reg2 := match reg2_o with Some r => Cxx.to_uint8 r | None => 0 end in
  let instruction := 0 in
  match type with
  | ADD =>
      let instruction := Z.lor instruction (shl32 reg1 12) in
      let instruction := Z.lor instruction (shl32 reg2 16) in
      let instruction := Z.lor instruction (shl32 0 20) in
      let instruction := Z.lor instruction (shl32 4 21) in
      let instruction := Z.lor instruction (shl32 14 28) in
      Ok [instruction]
  | SUB =>
      let instruction := Z.lor instruction (shl32 reg1 12) in
      let instruction := Z.lor instruction (shl32 reg2 16) in
      let instruction := Z.lor instruction (shl32 0 20) in
      let instruction := Z.lor instruction (shl32 2 21) in
      let instruction := Z.lor instruction (shl32 14 28) in
      Ok [instruction]
  | MUL =>
      let instruction := Z.lor instruction reg2 in
      let instruction := Z.lor instruction (shl32 9 4) in
      let instruction := Z.lor instruction (shl32 reg1 8) in
      let instruction := Z.lor instruction (shl32 reg1 16) in
      let instruction := Z.lor instruction (shl32 14 28) in
      Ok [instruction]
  | BLX =>
      if reg1 =? 4 then Ok [0xe12fff34] else Error InternalConsistency
  | LDR_FROM_NEXT =>
      let ldr := if reg1 =? 0 then 0xe59f0000 else 0xe59f4000 in
      let* text := deref str in
      let* word := Cxx.stoul text in
      Ok [ldr; 0xea000000; Cxx.to_uint32 word]
  | LDR_REG =>
      if reg1 =? 0 then Ok [0xe5900000]
      else if reg1 =? 4 then Ok [0xe5944000]
      else Error InternalConsistency
  | PUSH_REG =>
      if reg1 =? 0 then Ok [0xe52d0004]
      else if reg1 =? 1 then Ok [0xe52d1004]
      else if reg1 =? 2 then Ok [0xe52d2004]
      else if reg1 =? 3 then Ok [0xe52d3004]
      else if reg1 =? 4 then Ok [0xe52d4004]
      else if reg1 =? 5 then Ok [0xe52de004]
      else Error InternalConsistency
  | PUSH_MULT_REG =>
      if reg2 =? 1 then Ok [0xe92d0003]
      else if reg2 =? 2 then Ok [0xe92d0007]
      else if reg2 =? 3 then Ok [0xe92d000f]
      else Error InternalConsistency
  | WORD_DECL => Ok []
  | POP_REG =>
      if reg1 =? 0 then Ok [0xe49d0004]
      else if reg1 =? 1 then Ok [0xe49d1004]
      else if reg1 =? 2 then Ok [0xe49d2004]
      else if reg1 =? 3 then Ok [0xe49d3004]
      else if reg1 =? 4 then Ok [0xe49d4004]
      else Error InternalConsistency
  | POP_MULT_REG =>
      if reg2 =? 1 then Ok [0xe8bd0003]
      else if reg2 =? 2 then Ok [0xe8bd0007]
      else if reg2 =? 3 then Ok [0xe8bd000f]
      else if reg2 =? 6 then
        if reg1 =? 4 then Ok [0xe8bd8010] else Error InternalConsistency
      else Error InternalConsistency
  end.

Definition GetCompiledBinary (instructions_ : list instruction_t) : result (list Z) :=
  for_each (fun instruction binary =>
              let* words := translate instruction in Ok (binary ++ words))
           instructions_ [].

(** The body of [jit_compile_expression_to_arm] once the parser has
    handed over its tree: [compile()], then [GetCompiledBinary()]; the
    words are then copied to [out_buffer] in order. *)
Definition jit_compile_tree_to_arm (address_map : gmap string Z) (tree : Node)
  : result (list Z) :=
  let* instructions_ := compile address_map tree in
  GetCompiledBinary instructions_.

(** ** The per-node table of the specification *)

(** The payload the table calls [addr(name)]: the directory's address in
    the text [handle_variable] and [handle_function] give it (what the
    stream insertion of a [void*] writes; [std::stoul] reads it back as
    the address). *)
Definition addr (directory : gmap string Z) (name : option string) : option string :=
  match name with
  | Some n =>
      match directory !! n with
      | Some a => Some (Cxx.print_pointer a)
      | None => None
      end
  | None => None
  end.

(** [POP_REG R_{n-1}] down to [POP_REG R0]. *)
Definition table_pops (n : nat) : list instruction_t :=
  map (fun k => (POP_REG, Some (Z.of_nat k), None, None)) (rev (seq 0 n)).

(** Follows the specification's table (not the source): the intermediate
    sequence of a node, its children's sequences first. *)
Fixpoint table_sequence (directory : gmap string Z) (node : Node) : list instruction_t :=
  let children := sub_expressions node in
  let emitted := flat_map (table_sequence directory) children in
  match type node with
  | Constant =>
      [ (LDR_FROM_NEXT, Some R0, None, content node);
        (WORD_DECL, None, None, content node);
        (PUSH_REG, Some R0, None, None) ]
  | Variable_ =>
      [ (LDR_FROM_NEXT, Some R0, None, addr directory (content node));
        (WORD_DECL, None, None, addr directory (content node));
        (LDR_REG, Some R0, Some R0, None);
        (PUSH_REG, Some R0, None, None) ]
  | Plus =>
      emitted ++ [ (POP_MULT_REG, Some R0, Some R1, None);
                   (ADD, Some R0, Some R1, None);
                   (PUSH_REG, Some R0, None, None) ]
  | Minus =>
      emitted ++ [ (POP_MULT_REG, Some R0, Some R1, None);
                   (SUB, Some R0, Some R1, None);
                   (PUSH_REG, Some R0, None, None) ]
  | Product =>
      emitted ++ [ (POP_MULT_REG, Some R0, Some R1, None);
                   (MUL, Some R0, Some R1, None);
                   (PUSH_REG, Some R0, None, None) ]
  | Function =>
      emitted ++ table_pops (length children) ++
      [ (LDR_FROM_NEXT, Some R4, None, addr directory (content node));
        (WORD_DECL, None, None, addr directory (content node));
        (BLX, Some R4, None, None);
        (PUSH_REG, Some R0, None, None) ]
  | Default => []
  end.

(** The syntax trees of the specification's data model, with every name
    bound: constants and variables are leaves, an arithmetic node has
    exactly two children, a call has at least one argument (and no more
    than a 32-bit [int] counts). *)
Inductive ast (directory : gmap string Z) : Node -> Prop :=
| ast_constant c :
    ast directory (mkNode Constant c [])
| ast_variable v a :
    directory !! v = Some a ->
    ast directory (mkNode Variable_ (Some v) [])
| ast_arithmetic op c l r :
    op = Plus \/ op = Minus \/ op = Product ->
    ast directory l -> ast directory r ->
    ast directory (mkNode op c [l; r])
| ast_function f a args :
    directory !! f = Some a ->
    args <> [] ->
    Z.of_nat (length args) <= Cxx.INT_MAX ->
    Forall (ast directory) args ->
    ast directory (mkNode Function (Some f) args).

(** The nodes [compile_] visits from a root. *)
Inductive visits : Node -> Node -> Prop :=
| visits_root n : visits n n
| visits_left op c l r rest n :
    op = Plus \/ op = Minus \/ op = Product ->
    visits l n -> visits (mkNode op c (l :: r :: rest)) n
| visits_right op c l r rest n :
    op = Plus \/ op = Minus \/ op = Product ->
    visits r n -> visits (mkNode op c (l :: r :: rest)) n
| visits_argument c args a n :
    In a args -> visits a n -> visits (mkNode Function c args) n.

(** The walk of a node only adds to the list. *)
Definition appends (directory : gmap string Z) (node : Node) : Prop :=
  forall instructions_ r,
    compile_ directory node instructions_ = Ok r ->
    exists suffix, r = instructions_ ++ suffix.

(** A literal [std::stoul] can read. *)
Definition readable (payload : option string) : Prop :=
  exists text v, payload = Some text /\ Cxx.stoul text = Ok v.

Definition literal_readable (instruction : instruction_t) : Prop :=
  match instruction with
  | (LDR_FROM_NEXT, _, _, str) => readable str
  | _ => True
  end.

(** Every constant the emitter visits holds a literal it can read. *)
Definition constants_readable (root : Node) : Prop :=
  forall n, visits root n -> type n = Constant -> readable (content n).

(** ** The A32 instructions the emitter produces, and their execution

    The part of the ARM instruction set (A32 encoding, ARM state, condition
    AL) that the emitted words use, decoded by bit fields as the ARM
    Architecture Reference Manual lays them out. Memory is byte addressed
    and little-endian; a word access must be aligned; any other word,
    register use or access stops the machine. *)

Module A32.

Definition word (v : Z) : Z := v mod 2 ^ 32.

Definition SP : Z := 13.
Definition LR : Z := 14.
Definition PC : Z := 15.

Record state := mkState {
  regs : Z -> Z;      (* r0 .. r15 *)
  mem : Z -> Z        (* the byte at each address *)
}.

Definition set (r v : Z) (rs : Z -> Z) : Z -> Z :=
  fun x => if x =? r then v else rs x.

Definition aligned (a : Z) : bool := a mod 4 =? 0.

Definition load32 (m : Z -> Z) (a : Z) : Z :=
  m a mod 256 + 2 ^ 8 * (m (a + 1) mod 256)
  + 2 ^ 16 * (m (a + 2) mod 256) + 2 ^ 24 * (m (a + 3) mod 256).

Definition store32 (m : Z -> Z) (a v : Z) : Z -> Z :=
  fun x =>
    if x =? a then v mod 256
    else if x =? a + 1 then (v / 2 ^ 8) mod 256
    else if x =? a + 2 then (v / 2 ^ 16) mod 256
    else if x =? a + 3 then (v / 2 ^ 24) mod 256
    else m x.

Inductive instr :=
| Iadd (rd rn rm : Z)                     (* add rd, rn, rm *)
| Isub (rd rn rm : Z)                     (* sub rd, rn, rm *)
| Imul (rd rm rs : Z)                     (* mul rd, rm, rs *)
| Iblx (rm : Z)                           (* blx rm *)
| Ib (offset : Z)                         (* b pc+8+offset *)
| Ildr (p u w : bool) (rd rn imm : Z)     (* ldr rd, [rn, #+/-imm] with indexing *)
| Istr (p u w : bool) (rd rn imm : Z)     (* str rd, [rn, #+/-imm] with indexing *)
| Ildm (w : bool) (rn list : Z).          (* ldmia rn(!), {list} *)

(** Bits [lo .. lo + width - 1] of an instruction. *)
Definition field (i lo width : Z) : Z := Z.land (Z.shiftr i lo) (2 ^ width - 1).

Definition decode (i : Z) : option instr :=
  if negb (field i 28 4 =? 14) then None
  else if field i 4 24 =? 0x12fff3 then Some (Iblx (field i 0 4))
  else if (field i 22 6 =? 0) && (field i 4 4 =? 9) then
    if (field i 20 2 =? 0) && (field i 12 4 =? 0)
    then Some (Imul (field i 16 4) (field i 0 4) (field i 8 4)) else None
  else if field i 25 3 =? 0 then
    if (field i 4 8 =? 0) && negb (Z.testbit i 20) then
      if field i 21 4 =? 4 then Some (Iadd (field i 12 4) (field i 16 4) (field i 0 4))
      else if field i 21 4 =? 2 then Some (Isub (field i 12 4) (field i 16 4) (field i 0 4))
      else None
    else None
  else if field i 25 3 =? 2 then
    if Z.testbit i 22 then None
    else if Z.testbit i 20
    then Some (Ildr (Z.testbit i 24) (Z.testbit i 23) (Z.testbit i 21)
                    (field i 12 4) (field i 16 4) (field i 0 12))
    else Some (Istr (Z.testbit i 24) (Z.testbit i 23) (Z.testbit i 21)
                    (field i 12 4) (field i 16 4) (field i 0 12))
  else if field i 25 3 =? 4 then
    if negb (Z.testbit i 24) && Z.testbit i 23 && negb (Z.testbit i 22) && Z.testbit i 20
    then Some (Ildm (Z.testbit i 21) (field i 16 4) (field i 0 16)) else None
  else if field i 25 3 =? 5 then
    if Z.testbit i 24 then None
    else Some (Ib (4 * (if Z.testbit i 23 then field i 0 24 - 2 ^ 24 else field i 0 24)))
  else None.

(** A register as an operand: r15 reads as the instruction's address + 8. *)
Definition operand (s : state) (r : Z) : Z :=
  if r =? PC then word (regs s PC + 8) else regs s r.

(** Go on with the next instruction. *)
Definition advance (rs : Z -> Z) : Z -> Z := set PC (word (rs PC + 4)) rs.

(** The address of a single transfer and the base register's new value. *)
Definition transfer_address (s : state) (p u : bool) (rn imm : Z) : Z * Z :=
  let base := operand s rn in
  let indexed := word (if u then base + imm else base - imm) in
  (if p then indexed else base, indexed).

(** [ldmia]: the listed registers, lowest first, from ascending addresses. *)
Fixpoint load_multiple (m : Z -> Z) (list : Z) (r : Z) (count : nat) (a : Z)
    (rs : Z -> Z) : Z -> Z :=
  match count with
  | O => rs
  | S count' =>
      if Z.testbit list r
      then load_multiple m list (r + 1) count' (word (a + 4)) (set r (load32 m a) rs)
      else load_multiple m list (r + 1) count' a rs
  end.

Fixpoint listed (list : Z) (r : Z) (count : nat) : Z :=
  match count with
  | O => 0
  | S count' => (if Z.testbit list r then 1 else 0) + listed list (r + 1) count'
  end.

Definition execute (i : instr) (s : state) : option state :=
  match i with
  | Iadd rd rn rm =>
      if rd =? PC then None
      else Some (mkState (advance (set rd (word (operand s rn + operand s rm)) (regs s))) (mem s))
  | Isub rd rn rm =>
      if rd =? PC then None
      else Some (mkState (advance (set rd (word (operand s rn - operand s rm)) (regs s))) (mem s))
  | Imul rd rm rs =>
      if (rd =? PC) || (rm =? PC) || (rs =? PC) then None
      else Some (mkState (advance (set rd (word (regs s rm * regs s rs)) (regs s))) (mem s))
  | Iblx rm =>
      if rm =? PC then None
      else Some (mkState (set PC (regs s rm) (set LR (word (regs s PC + 4)) (regs s))) (mem s))
  | Ib offset =>
      Some (mkState (set PC (word (regs s PC + 8 + offset)) (regs s)) (mem s))
  | Ildr p u w rd rn imm =>
      let '(a, indexed) := transfer_address s p u rn imm in
      let writeback := negb p || w in
      if (rd =? PC) || (negb p && w) || (writeback && ((rn =? PC) || (rn =? rd)))
         || negb (aligned a) then None
      else
        let rs := if writeback then set rn indexed (regs s) else regs s in
        Some (mkState (advance (set rd (load32 (mem s) a) rs)) (mem s))
  | Istr p u w rd rn imm =>
      let '(a, indexed) := transfer_address s p u rn imm in
      let writeback := negb p || w in
      if (rd =? PC) || (negb p && w) || (writeback && ((rn =? PC) || (rn =? rd)))
         || negb (aligned a) then None
      else
        let rs := if writeback then set rn indexed (regs s) else regs s in
        Some (mkState (advance rs) (store32 (mem s) a (regs s rd)))
  | Ildm w rn list =>
      let a := regs s rn in
      if (rn =? PC) || (list =? 0) || Z.testbit list rn || negb (aligned a) then None
      else
        let rs := load_multiple (mem s) list 0 16 a (regs s) in
        let rs := if w then set rn (word (a + 4 * listed list 0 16)) rs else rs in
        Some (mkState (if Z.testbit list PC then rs else advance rs) (mem s))
  end.

(** A function outside the emitted code: [int f(int, ..., int)] with
    [arity] parameters. *)
Record callable := mkCallable {
  arity : nat;
  body : list Z -> Z
}.

(** What surrounds the emitted code: the entry points of the callable
    functions, the lowest address their frames may reach, and what a
    call leaves in the registers and stack the procedure-call standard
    lets a callee overwrite. *)
Record world := mkWorld {
  callables : Z -> option callable;
  stack_limit : Z;
  clobbered_register : state -> Z -> Z;
  clobbered_byte : state -> Z -> Z
}.

(** A call per AAPCS: arguments in r0-r3, result in r0, return to lr;
    r4-r11 and sp are kept, and so is memory outside the free stack
    below sp; r1-r3, r12, lr and the free stack come back overwritten.
    The callee takes sp as it is: the 8-byte alignment the standard asks
    of sp at a public interface is not looked at. *)
Definition call (w : world) (f : callable) (s : state) : option state :=
  if (4 <? Z.of_nat (arity f)) then None
  else
    let arguments := firstn (arity f) [regs s 0; regs s 1; regs s 2; regs s 3] in
    Some (mkState
      (fun r =>
         if r =? 0 then word (body f arguments)
         else if r =? PC then regs s LR
         else if ((4 <=? r) && (r <=? 11)) || (r =? SP) then regs s r
         else clobbered_register w s r)
      (fun a =>
         if (stack_limit w <=? a) && (a <? regs s SP)
         then clobbered_byte w s a else mem s a)).

Definition step (w : world) (s : state) : option state :=
  let pc := regs s PC in
  match callables w pc with
  | Some f => call w f s
  | None =>
      if aligned pc then
        match decode (load32 (mem s) pc) with
        | Some i => execute i s
        | None => None
        end
      else None
  end.

Fixpoint run (w : world) (steps : nat) (s : state) : option state :=
  match steps with
  | O => Some s
  | S steps' =>
      match step w s with
      | Some s' => run w steps' s'
      | None => None
      end
  end.

(** Run until the pc is [stop], for at most [fuel] steps. *)
Fixpoint run_to (w : world) (stop : Z) (fuel : nat) (s : state) : option state :=
  if regs s PC =? stop then Some s
  else
    match fuel with
    | O => None
    | S fuel' =>
        match step w s with
        | Some s' => run_to w stop fuel' s'
        | None => None
        end
    end.

(** The words of a program in memory from address [a] on. *)
Fixpoint loaded (m : Z -> Z) (a : Z) (words : list Z) : Prop :=
  match words with
  | [] => True
  | x :: words' => load32 m a = x /\ loaded m (a + 4) words'
  end.

Fixpoint write_words (m : Z -> Z) (a : Z) (words : list Z) : Z -> Z :=
  match words with
  | [] => m
  | x :: words' => write_words (store32 m a x) (a + 4) words'
  end.

End A32.

(** ** The value of a tree *)

Section Value.

Variable w : A32.world.
Variable directory : gmap string Z.
Variable m : Z -> Z.             (* the memory the variables live in *)

(** A constant is the number [std::stoul] reads from its text. *)
Definition constant_value (c : option string) : Z :=
  match c with
  | Some text => match Cxx.stoul text with Ok v => A32.word v | Error _ => 0 end
  | None => 0
  end.

Definition variable_value (v : option string) : Z :=
  match v with
  | Some name =>
      match directory !! name with
      | Some a => A32.load32 m a
      | None => 0
      end
  | None => 0
  end.

Definition function_value (f : option string) (arguments : list Z) : Z :=
  match f with
  | Some name =>
      match directory !! name with
      | Some a =>
          match A32.callables w a with
          | Some g => A32.word (A32.body g arguments)
          | None => 0
          end
      | None => 0
      end
  | None => 0
  end.

(** Addition, subtraction and multiplication wrap around at 32 bits. *)
Fixpoint value (n : Node) : Z :=
  match type n with
  | Constant => constant_value (content n)
  | Variable_ => variable_value (content n)
  | Plus =>
      match sub_expressions n with
      | l :: r :: _ => A32.word (value l + value r)
      | _ => 0
      end
  | Minus =>
      match sub_expressions n with
      | l :: r :: _ => A32.word (value l - value r)
      | _ => 0
      end
  | Product =>
      match sub_expressions n with
      | l :: r :: _ => A32.word (value l * value r)
      | _ => 0
      end
  | Function => function_value (content n) (map value (sub_expressions n))
  | Default => 0
  end.

End Value.

(** ** The words of a tree

    What the two stages come to on the trees of the data model: the words
    for a node, its children's words first. *)

Definition address_of (directory : gmap string Z) (name : option string) : Z :=
  match name with
  | Some n => match directory !! n with Some a => a | None => 0 end
  | None => 0
  end.

(** [pop {r_k}] *)
Definition pop_word (k : Z) : Z :=
  if k =? 0 then 0xe49d0004
  else if k =? 1 then 0xe49d1004
  else if k =? 2 then 0xe49d2004
  else if k =? 3 then 0xe49d3004
  else 0xe49d4004.

Fixpoint pop_words (n : nat) : list Z :=
  match n with
  | O => []
  | S n' => pop_word (Z.of_nat n') :: pop_words n'
  end.

Fixpoint words (directory : gmap string Z) (node : Node) : list Z :=
  let children := flat_map (words directory) (sub_expressions node) in
  match type node with
  | Constant =>
      [0xe59f0000; 0xea000000;
       match content node with
       | Some text => match Cxx.stoul text with Ok v => Cxx.to_uint32 v | Error _ => 0 end
       | None => 0
       end;
       0xe52d0004]
  | Variable_ =>
      [0xe59f0000; 0xea000000; address_of directory (content node); 0xe5900000; 0xe52d0004]
  | Plus => children ++ [0xe8bd0003; 0xe0810000; 0xe52d0004]
  | Minus => children ++ [0xe8bd0003; 0xe0410000; 0xe52d0004]
  | Product => children ++ [0xe8bd0003; 0xe0000091; 0xe52d0004]
  | Function =>
      children ++ pop_words (length (sub_expressions node)) ++
      [0xe59f4000; 0xea000000; address_of directory (content node); 0xe12fff34; 0xe52d0004]
  | Default => []
  end.

(** ** What the emitted code needs to run *)

(** The words of stack the code of a tree uses: every child leaves one
    word on the stack while the next is computed. *)
Definition stack_needs (need : Node -> Z) : list Node -> Z :=
  fix go (l : list Node) : Z :=
    match l with
    | [] => 0
    | a :: l' => Z.max (need a) (1 + go l')
    end.

Fixpoint stack_need (n : Node) : Z :=
  match type n with
  | Constant => 1
  | Variable_ => 1
  | Default => 1
  | _ => Z.max 1 (stack_needs stack_need (sub_expressions n))
  end.

Section Surroundings.

Variable w : A32.world.
Variable directory : gmap string Z.
Variable stack_top : Z.          (* sp when the emitted code is entered *)

(** A word at [a] that no push below [stack_top] and no callee's frame
    can overwrite. *)
Definition outside_stack (a : Z) : Prop :=
  a + 4 <= A32.stack_limit w \/ stack_top <= a.

(** The trees whose code is run: every constant fits in 32 bits, every
    call has one to four arguments, every name is bound; a variable's
    address holds an aligned [int] outside the free stack, a function's
    address is the entry of a callable with as many parameters as the
    call has arguments. *)
Inductive evaluable : Node -> Prop :=
| evaluable_constant text :
    readable (Some text) ->
    evaluable (mkNode Constant (Some text) [])
| evaluable_variable v a :
    directory !! v = Some a ->
    0 <= a < 2 ^ 32 -> A32.aligned a = true -> outside_stack a ->
    evaluable (mkNode Variable_ (Some v) [])
| evaluable_arithmetic op c l r :
    op = Plus \/ op = Minus \/ op = Product ->
    evaluable l -> evaluable r ->
    evaluable (mkNode op c [l; r])
| evaluable_function f a g args :
    directory !! f = Some a ->
    0 <= a < 2 ^ 32 ->
    A32.callables w a = Some g ->
    A32.arity g = length args ->
    (1 <= length args <= 4)%nat ->
    Forall evaluable args ->
    evaluable (mkNode Function (Some f) args).

End Surroundings.

(** The machine at the entry of [n] emitted words that need [need] words
    of stack: pc and sp aligned, the code inside the address space, away
    from the free stack and from every callable's entry, and room on the
    stack for the two saved registers and the tree. *)
Definition ready (w : A32.world) (s : A32.state) (n : Z) (need : Z) : Prop :=
  let pc := A32.regs s A32.PC in
  let sp := A32.regs s A32.SP in
  A32.aligned pc = true /\ 0 <= pc /\ pc + 4 * n < 2 ^ 32 /\
  A32.aligned sp = true /\ sp < 2 ^ 32 /\
  0 <= A32.stack_limit w /\ A32.stack_limit w + 4 * (need + 2) <= sp /\
  (pc + 4 * n <= A32.stack_limit w \/ sp <= pc) /\
  (forall a, pc <= a < pc + 4 * n -> A32.callables w a = None).

(** ** The parser (class ExpressionParser)

    Iterators into [expression_] are indices; [*it] is [char_at]. A loop
    that the source bounds only by what it reads carries a [fuel] of
    steps: each step moves its iterator forward, and the fuel given is
    more than the characters there are to read, so that it runs out only
    past the terminator, where the read is undefined anyway. *)

(** [std::for_each] over the characters of a string. *)
Fixpoint for_each_char {State} (f : State -> ascii -> State) (s : string) (state : State) : State :=
  match s with
  | EmptyString => state
  | String c s' => for_each_char f s' (f state c)
  end.

(** [expression_without_spaces.push_back(current)] for every [current]
    but a space. *)
Definition GetRidOfSpaces (expression_ : string) : string :=
  for_each_char
    (fun expression_without_spaces current =>
       if negb (current =? " ")%char
       then expression_without_spaces +:+ String current ""
       else expression_without_spaces)
    expression_ "".

(** [std::for_each(left, right, f)] on iterators of [expression_]: [count]
    characters from [it] on. *)
Fixpoint for_each_from {State} (expression_ : string) (f : State -> ascii -> State)
    (count it : nat) (state : State) : result State :=
  match count with
  | O => Ok state
  | S count' =>
      let* c := char_at expression_ it in
      for_each_from expression_ f count' (S it) (f state c)
  end.

(** A range whose end is before its start is never left. *)
Definition for_each_range {State} (expression_ : string) (f : State -> ascii -> State)
    (left right : nat) (state : State) : result State :=
  if (right <? left)%nat then Error Undefined
  else for_each_from expression_ f (right - left) left state.

(** The lambda of [IsParBalance] on [(balance, correct)]. *)
Definition balance_step (state : Z * bool) (current_char : ascii) : Z * bool :=
  let '(balance, correct) := state in
  let correct := if balance <? 0 then false else correct in
  if (current_char =? "(")%char then (balance + 1, correct)
  else if (current_char =? ")")%char then (balance - 1, correct)
  else (balance, correct).

Definition IsParBalance (expression_ : string) (left right : nat) : result bool :=
  let* state := for_each_range expression_ balance_step left right (0, true) in
  Ok (snd state).

Definition GetPriority (operation : ExpressionType) : Z :=
  match operation with
  | Plus => 0
  | Minus => 0
  | Product => 1
  | _ => 2
  end.

Definition GetTypeFromChar (current_char : ascii) : ExpressionType :=
  if (current_char =? "+")%char then Plus
  else if (current_char =? "-")%char then Minus
  else if (current_char =? "*")%char then Product
  else Default.

Definition is_Default (t : ExpressionType) : bool :=
  match t with Default => true | _ => false end.

Section Scans.

Variable expression_ : string.

(** Steps a loop over [expression_] can take before it reads past the
    terminator. *)
Definition scan_fuel : nat := S (S (String.length expression_)).

(** The [while] loop that steps over a run of operator characters. *)
Fixpoint skip_operators (fuel : nat) (current_iter : nat) : result nat :=
  match fuel with
  | O => Error Undefined
  | S fuel' =>
      let* c := char_at expression_ current_iter in
      if (c =? "*")%char || (c =? "-")%char || (c =? "+")%char
      then skip_operators fuel' (S current_iter)
      else Ok current_iter
  end.

(** The [for] loop of [FindArithmeticOperation], at [current_iter]. *)
Fixpoint find_operation (right : nat) (fuel : nat) (current_iter : nat)
    (type : option ExpressionType) (pos : nat) (par_balance : Z)
  : result (option ExpressionType * nat) :=
  if (current_iter =? right)%nat then Ok (type, pos)
  else
    match fuel with
    | O => Error Undefined
    | S fuel' =>
        let* current_char := char_at expression_ current_iter in
        let par_balance :=
          if (current_char =? "(")%char then par_balance + 1 else par_balance in
        let par_balance :=
          if (current_char =? ")")%char then par_balance - 1 else par_balance in
        if negb (par_balance =? 0) then
          find_operation right fuel' (S current_iter) type pos par_balance
        else
          let current_type := GetTypeFromChar current_char in
          if is_Default current_type then
            find_operation right fuel' (S current_iter) type pos par_balance
          else
            match type with
            | None =>
                find_operation right fuel' (S current_iter)
                  (Some current_type) current_iter par_balance
            | Some minimum =>
                let current_priority := GetPriority current_type in
                let min_priority := GetPriority minimum in
                let* replace :=
                  if current_priority <=? min_priority then
                    match current_iter with
                    | O => Error Undefined
                    | S before =>
                        let* previous := char_at expression_ before in
                        Ok (negb (previous =? "*")%char)
                    end
                  else Ok false in
                let type := if replace then Some current_type else type in
                let pos := if replace then current_iter else pos in
                let* current_iter := skip_operators scan_fuel (S current_iter) in
                find_operation right fuel' (S current_iter) type pos par_balance
            end
    end.

Definition FindArithmeticOperation (left right : nat)
  : result (option ExpressionType * nat) :=
  find_operation right scan_fuel left None left 0.

(** The loop of [IsFunction], and the [std::find] of [GetFunctionName]:
    the first opening parenthesis from [it] on, or [right]. *)
Fixpoint find_parenthesis (right : nat) (fuel : nat) (it : nat) : result nat :=
  if (it =? right)%nat then Ok right
  else
    match fuel with
    | O => Error Undefined
    | S fuel' =>
        let* c := char_at expression_ it in
        if (c =? "(")%char then Ok it else find_parenthesis right fuel' (S it)
    end.

Definition IsFunction (left right : nat) : result bool :=
  let* current_iter := find_parenthesis right scan_fuel left in
  Ok (negb (current_iter =? right)%nat).

(** [std::find] needs a range that ends after it starts; [substr], a
    position inside the text. *)
Definition GetFunctionName (left right : nat) : result string :=
  if (right <? left)%nat then Error Undefined
  else
    let* current_iter := find_parenthesis right scan_fuel left in
    if (String.length expression_ <? left)%nat then Error Undefined
    else Ok (substring left (current_iter - left) expression_).

(** The [for] loop that moves [current_left] to the next opening
    parenthesis, wherever it is. *)
Fixpoint find_open (fuel : nat) (current_left : nat) : result nat :=
  match fuel with
  | O => Error Undefined
  | S fuel' =>
      let* c := char_at expression_ current_left in
      if (c =? "(")%char then Ok current_left else find_open fuel' (S current_left)
  end.

(** The inner [for] loop of [GetFunctionParameters]: where the parameter
    that starts the scan ends, and whether that is the closing
    parenthesis. *)
Fixpoint scan_parameter (fuel : nat) (current_right : nat) (pron_balance : Z)
  : result (bool * nat) :=
  match fuel with
  | O => Error Undefined
  | S fuel' =>
      let* c := char_at expression_ current_right in
      if negb (c =? ",")%char || (pron_balance >? 0) then
        let pron_balance := if (c =? "(")%char then pron_balance + 1 else pron_balance in
        let pron_balance := if (c =? ")")%char then pron_balance - 1 else pron_balance in
        if (pron_balance =? -1) && (c =? ")")%char then Ok (true, current_right)
        else scan_parameter fuel' (S current_right) pron_balance
      else Ok (false, current_right)
  end.

(** The [while] loop of [GetFunctionParameters]; the [assert(false)]
    behind it is reached when a comma ends the range. *)
Fixpoint scan_parameters (right : nat) (fuel : nat) (current_left current_right : nat)
    (answer : list (nat * nat)) : result (list (nat * nat)) :=
  if (current_right =? right)%nat then Error InternalConsistency
  else
    match fuel with
    | O => Error Undefined
    | S fuel' =>
        let* scanned := scan_parameter scan_fuel current_right 0 in
        let '(closed, current_right) := scanned in
        let answer := answer ++ [(current_left, current_right)] in
        if closed then Ok answer
        else scan_parameters right fuel' (S current_right) (S current_right) answer
    end.

Definition GetFunctionParameters (left right : nat) : result (list (nat * nat)) :=
  let* current_left := find_open scan_fuel left in
  let current_left := S current_left in
  scan_parameters right scan_fuel current_left current_left [].

Definition ParseVariable (current_node : Node) (left right : nat) : result Node :=
  if (Z.of_nat right - Z.of_nat left <? 1) then
    Ok (mkNode Constant (Some "0x0") (sub_expressions current_node))
  else if (String.length expression_ <? left)%nat then Error Undefined
  else
    Ok (mkNode Variable_ (Some (substring left (right - left) expression_))
               (sub_expressions current_node)).

(** The [while] loop of [ParseExpression]: how many pairs of parentheses
    wrap the range. *)
Fixpoint surplus_parentheses (fuel : nat) (left right : nat) (surplus_pars : nat)
  : result nat :=
  match fuel with
  | O => Error Undefined
  | S fuel' =>
      let* first := char_at expression_ (left + surplus_pars) in
      if negb (first =? "(")%char then Ok surplus_pars
      else if (right <? 1 + surplus_pars)%nat then Error Undefined
      else
        let* last := char_at expression_ (right - 1 - surplus_pars) in
        if negb (last =? ")")%char then Ok surplus_pars
        else
          let* balanced :=
            IsParBalance expression_ (left + surplus_pars + 1) (right - surplus_pars - 1) in
          if balanced then surplus_parentheses fuel' left right (S surplus_pars)
          else Ok surplus_pars
  end.

(** A result, or no result yet for want of recursion depth. *)
Definition bind_deep {A B} (m : option (result A)) (k : A -> option (result B))
  : option (result B) :=
  match m with
  | Some (Ok a) => k a
  | Some (Error e) => Some (Error e)
  | None => None
  end.

Section Handlers.

(** The recursive call of [ParseExpression]. *)
Variable ParseExpression : Node -> nat -> nat -> option (result Node).

(** Two new children, then [sub_expressions[0]] and [sub_expressions[1]]
    are parsed in place. *)
Definition ParseArithmetic (current_node : Node) (left right : nat)
    (type : ExpressionType) (pos : nat) : option (result Node) :=
  let sub_expressions := sub_expressions current_node ++ [fresh_Node; fresh_Node] in
  bind_deep (ParseExpression (nth 0 sub_expressions fresh_Node) left pos) (fun first =>
  let sub_expressions := <[0%nat := first]> sub_expressions in
  bind_deep (ParseExpression (nth 1 sub_expressions fresh_Node) (S pos) right) (fun second =>
  let sub_expressions := <[1%nat := second]> sub_expressions in
  Some (Ok (mkNode type None sub_expressions)))).

(** The loop of [ParseFunction] over [params], [counter] children in. *)
Fixpoint parse_parameters (params : list (nat * nat)) (counter : nat)
    (sub_expressions : list Node) : option (result (list Node)) :=
  match params with
  | [] => Some (Ok sub_expressions)
  | (pair_left, pair_right) :: params' =>
      let sub_expressions := sub_expressions ++ [fresh_Node] in
      bind_deep (ParseExpression (nth counter sub_expressions fresh_Node) pair_left pair_right)
        (fun parsed =>
           parse_parameters params' (S counter) (<[counter := parsed]> sub_expressions))
  end.

Definition ParseFunction (current_node : Node) (left right : nat)
  : option (result Node) :=
  bind_deep (Some (GetFunctionName left right)) (fun name =>
  bind_deep (Some (GetFunctionParameters left right)) (fun params =>
  bind_deep (parse_parameters params 0 (sub_expressions current_node)) (fun children =>
  Some (Ok (mkNode Function (Some name) children))))).

End Handlers.

(** [ParseExpression], to a recursion depth of [depth]. *)
Fixpoint ParseExpression (depth : nat) (current_node : Node) (left right : nat)
  : option (result Node) :=
  match depth with
  | O => None
  | S depth' =>
      bind_deep (Some (surplus_parentheses scan_fuel left right 0)) (fun surplus_pars =>
      let left := (left + surplus_pars)%nat in
      let right := (right - surplus_pars)%nat in
      bind_deep (Some (FindArithmeticOperation left right)) (fun found =>
      match found with
      | (Some type, pos) =>
          ParseArithmetic (ParseExpression depth') current_node left right type pos
      | (None, _) =>
          bind_deep (Some (IsConstant expression_ left)) (fun constant =>
          if constant : bool then Some (ParseConstant expression_ current_node left right)
          else
            bind_deep (Some (IsFunction left right)) (fun function =>
            if function : bool then ParseFunction (ParseExpression depth') current_node left right
            else Some (ParseVariable current_node left right)))
      end))
  end.

End Scans.

(** The depth [ParseExpression] is given: more than it can use on a text
    of this length. *)
Definition parse_depth (expression_ : string) : nat :=
  S (String.length expression_) * S (String.length expression_).

(** The constructor of [ExpressionParser]: the tree it leaves in [root_]. *)
Definition ExpressionParser (expression : string) : result Node :=
  let expression_ := GetRidOfSpaces expression in
  match ParseExpression expression_ (parse_depth expression_) fresh_Node
                        0 (String.length expression_) with
  | Some root_ => root_
  | None => Error Undefined
  end.

(** ** The entry point *)

(** [symbol_t]; a null [name] is [None], a null [pointer] is 0. *)
Record symbol_t := mkSymbol {
  name : option string;
  pointer : Z
}.

(** The loop over [externs] up to the first entry with a null pointer or
    name; an array without one is read past its end. *)
Fixpoint read_externs (externs : list symbol_t) (address_map : gmap string Z)
  : result (gmap string Z) :=
  match externs with
  | [] => Error Undefined
  | current :: externs' =>
      if pointer current =? 0 then Ok address_map
      else
        match name current with
        | Some n => read_externs externs' (<[n := pointer current]> address_map)
        | None => Ok address_map
        end
  end.

(** [jit_compile_expression_to_arm]: the words written to [out_buffer],
    in order. [TransferParsingTree] moves the parser's tree into the
    compiler. *)
Definition jit_compile_expression_to_arm (expression : string) (externs : list symbol_t)
  : result (list Z) :=
  let* address_map := read_externs externs ∅ in
  let* parse_tree_ := ExpressionParser expression in
  jit_compile_tree_to_arm address_map parse_tree_.

(** ** What the parser's parts are compared with *)

(** The characters of the range [[left, right)] of [expression_]. *)
Definition range_chars (expression_ : string) (left right : nat) : list ascii :=
  list_ascii_of_string (substring left (right - left) expression_).

(** Opening minus closing parentheses. *)
Definition balance (l : list ascii) : Z :=
  Z.of_nat (count_occ ascii_dec l "("%char) - Z.of_nat (count_occ ascii_dec l ")"%char).

(** What one character adds to the balance. *)
Definition delta (c : ascii) : Z :=
  if (c =? "(")%char then 1 else if (c =? ")")%char then -1 else 0.

(** The character of an operation is at [pos]. *)
Definition operation_at (expression_ : string) (pos : nat) (type : ExpressionType) : Prop :=
  exists c, nth_error (list_ascii_of_string expression_) pos = Some c /\
            GetTypeFromChar c = type /\
            (type = Plus \/ type = Minus \/ type = Product).

(** The character at [i] is one of an operation, outside all the
    parentheses opened since [left]. *)
Definition operation_outside (expression_ : string) (left i : nat) : Prop :=
  balance (range_chars expression_ left (S i)) = 0 /\
  exists type, operation_at expression_ i type.

(** The character at [i]. *)
Definition has_char (expression_ : string) (i : nat) (c : ascii) : Prop :=
  nth_error (list_ascii_of_string expression_) i = Some c.

(** Ranges that follow each other from [start]: each starts where the one
    before ended on a comma, closes the parentheses it opens, and the last
    ends on a closing parenthesis. *)
Fixpoint parameters_from (expression_ : string) (start : nat) (params : list (nat * nat))
  : Prop :=
  match params with
  | [] => False
  | (l, r) :: rest =>
      l = start /\ (l <= r)%nat /\ balance (range_chars expression_ l r) = 0 /\
      match rest with
      | [] => has_char expression_ r ")"
      | _ :: _ => has_char expression_ r "," /\ parameters_from expression_ (S r) rest
      end
  end.

(** The trees the parser builds from a text of [limit] characters: a
    constant holds a literal that reads back as a number from 0 to
    [INT_MAX], a variable a name, an operation exactly two operands and
    no content, a call a name and at least one argument. *)
Inductive parsed (limit : nat) : Node -> Prop :=
| parsed_constant text v :
    Cxx.stoul text = Ok v -> 0 <= v <= Cxx.INT_MAX ->
    parsed limit (mkNode Constant (Some text) [])
| parsed_variable name :
    name <> "" ->
    parsed limit (mkNode Variable_ (Some name) [])
| parsed_arithmetic op l r :
    op = Plus \/ op = Minus \/ op = Product ->
    parsed limit l -> parsed limit r ->
    parsed limit (mkNode op None [l; r])
| parsed_function name args :
    args <> [] -> (length args <= limit)%nat ->
    Forall (parsed limit) args ->
    parsed limit (mkNode Function (Some name) args).

(** The name of a variable, or of the function of a call, is in the map. *)
Definition bound (directory : gmap string Z) (n : Node) : Prop :=
  match type n with
  | Variable_ | Function =>
      exists name a, content n = Some name /\ directory !! name = Some a
  | _ => True
  end.

(** What the code of a node needs of its surroundings to run: a variable
    is bound to the address of an aligned [int] outside the free stack, a
    called function to the entry of a callable with as many parameters as
    the call has arguments, four at most. *)
Definition linked (w : A32.world) (directory : gmap string Z) (stack_top : Z) (n : Node)
  : Prop :=
  match type n with
  | Variable_ =>
      exists name a,
        content n = Some name /\ directory !! name = Some a /\
        0 <= a < 2 ^ 32 /\ A32.aligned a = true /\ outside_stack w stack_top a
  | Function =>
      exists name a g,
        content n = Some name /\ directory !! name = Some a /\
        0 <= a < 2 ^ 32 /\ A32.callables w a = Some g /\
        A32.arity g = length (sub_expressions n) /\
        (length (sub_expressions n) <= 4)%nat
  | _ => True
  end.

(** ** The usual reading of a text without parentheses *)

Definition is_operator (c : ascii) : bool := negb (is_Default (GetTypeFromChar c)).

(** A character of a name or of a number: no operator, no parenthesis,
    no space. *)
Definition plain (c : ascii) : bool :=
  negb (is_operator c || (c =? "(")%char || (c =? ")")%char || (c =? " ")%char).

Definition is_digit (c : ascii) : bool :=
  (Cxx.code "0" <=? Cxx.code c) && (Cxx.code c <=? Cxx.code "9").

(** The leaf for a name or a number; for nothing, the constant 0. *)
Definition leaf (a : string) : result Node :=
  match a with
  | EmptyString => Ok (mkNode Constant (Some "0x0") [])
  | String c _ =>
      if is_digit c then
        let* v := Cxx.stoi a in
        Ok (mkNode Constant (Some ("0x" +:+ Cxx.hex v)) [])
      else Ok (mkNode Variable_ (Some a) [])
  end.

(** The node of an operation, its left operand read first. *)
Definition combine (op : ExpressionType) (l r : result Node) : result Node :=
  let* l := l in
  let* r := r in
  Ok (mkNode op None [l; r]).

Definition additive (c : ascii) : Prop := c = "+"%char \/ c = "-"%char.

(** The range [[l, r)] of the text reads as a product of names and
    numbers, grouped from the left. *)
Inductive product_of (expression_ : string) : nat -> nat -> result Node -> Prop :=
| product_atom l r :
    (l < r <= String.length expression_)%nat ->
    (forall i c, (l <= i < r)%nat -> has_char expression_ i c -> plain c = true) ->
    product_of expression_ l r (leaf (substring l (r - l) expression_))
| product_times l p r x :
    product_of expression_ l p x ->
    has_char expression_ p "*" ->
    (S p < r <= String.length expression_)%nat ->
    (forall i c, (p < i < r)%nat -> has_char expression_ i c -> plain c = true) ->
    product_of expression_ l r
      (combine Product x (leaf (substring (S p) (r - S p) expression_))).

(** The range reads as a sum of products, grouped from the left; a sign
    in front of the first product stands for 0 plus or minus it. *)
Inductive sum_of (expression_ : string) : nat -> nat -> result Node -> Prop :=
| sum_product l r x :
    product_of expression_ l r x ->
    sum_of expression_ l r x
| sum_signed l r c y :
    has_char expression_ l c -> additive c ->
    product_of expression_ (S l) r y ->
    sum_of expression_ l r (combine (GetTypeFromChar c) (leaf "") y)
| sum_more l p r c x y :
    sum_of expression_ l p x ->
    has_char expression_ p c -> additive c ->
    product_of expression_ (S p) r y ->
    sum_of expression_ l r (combine (GetTypeFromChar c) x y).

(** A range without parentheses in which an operator stands between two
    plain characters, or at the very start before one. *)
Definition flat (expression_ : string) (l r : nat) : Prop :=
  (r <= String.length expression_)%nat /\
  (forall i c, (l <= i < r)%nat -> has_char expression_ i c ->
               plain c = true \/ is_operator c = true) /\
  (forall i c, (l <= i < r)%nat -> has_char expression_ i c -> is_operator c = true ->
               (S i < r)%nat /\
               (forall c', has_char expression_ (S i) c' -> plain c' = true) /\
               (forall j c', i = S j -> (l <= j)%nat -> has_char expression_ j c' ->
                             plain c' = true)).

(** The words the emitter writes for a node: four for a constant, five
    for a variable, three behind the operands of an operation, and for a
    call one for each argument and five more behind the arguments. *)
Fixpoint code_words (n : Node) : nat :=
  let children := list_sum (map code_words (sub_expressions n)) in
  match type n with
  | Constant => 4
  | Variable_ => 5
  | Plus | Minus | Product => children + 3
  | Function => children + length (sub_expressions n) + 5
  | Default => 0
  end.

(** ** Ranges with parentheses *)

(** Neither an operator nor a parenthesis. *)
Definition quiet (c : ascii) : bool :=
  negb (is_operator c || (c =? "(")%char || (c =? ")")%char).

(** A range in which an operation outside the parentheses is followed,
    inside the range, by a character that is no operator; and, when it is
    not the first such operation, by one that is no parenthesis either. *)
Definition tidy (expression_ : string) (l r : nat) : Prop :=
  (r <= String.length expression_)%nat /\
  forall i, (l <= i < r)%nat -> operation_outside expression_ l i ->
    (forall c, (S i < r)%nat -> has_char expression_ (S i) c -> is_operator c = false) /\
    ((exists j, (l <= j < i)%nat /\ operation_outside expression_ l j) ->
     (S i < r)%nat /\ forall c, has_char expression_ (S i) c -> quiet c = true).

(** The range [[a, b)] is one argument of a call: it closes the
    parentheses it opens, closes no other, and holds no comma outside
    parentheses of its own. *)
Definition argument (expression_ : string) (a b : nat) : Prop :=
  (a <= b)%nat /\
  (forall i, (a <= i < b)%nat -> 0 <= balance (range_chars expression_ a (S i))) /\
  (forall i, (a <= i < b)%nat -> has_char expression_ i "," ->
             0 < balance (range_chars expression_ a i)) /\
  balance (range_chars expression_ a b) = 0.

(** The arguments of a call from [start] to the closing parenthesis just
    before [r], with a comma between one and the next. *)
Fixpoint arguments_from (expression_ : string) (start r : nat) (params : list (nat * nat))
  : Prop :=
  match params with
  | [] => False
  | (a, b) :: rest =>
      a = start /\ argument expression_ a b /\
      match rest with
      | [] => has_char expression_ b ")" /\ S b = r
      | _ :: _ => has_char expression_ b "," /\ arguments_from expression_ (S b) r rest
      end
  end.

(** The trees of the arguments, or what the first that fails raised. *)
Fixpoint gather (trees : list (result Node)) : result (list Node) :=
  match trees with
  | [] => Ok []
  | x :: trees' =>
      let* first := x in
      let* rest := gather trees' in
      Ok (first :: rest)
  end.

(** The range [[l, r)] of the text reads as an expression, with the tree
    the usual rules give it: a sum of products of names and numbers; a
    range in parentheses; two operands around the last operation of
    lowest priority outside the parentheses of a tidy range; a call, with
    the tree of each argument. *)
Inductive reads (expression_ : string) : nat -> nat -> result Node -> Prop :=
| reads_sum l r x :
    sum_of expression_ l r x ->
    reads expression_ l r x
| reads_nothing l c :
    char_at expression_ l = Ok c -> (c =? "(")%char = false -> is_digit c = false ->
    reads expression_ l l (leaf "")
| reads_group l r x :
    (l + 2 <= r <= String.length expression_)%nat ->
    has_char expression_ l "(" -> has_char expression_ (r - 1) ")" ->
    (forall i, (S l <= i < r - 1)%nat -> 0 <= balance (range_chars expression_ (S l) i)) ->
    reads expression_ (S l) (r - 1) x ->
    reads expression_ l r x
| reads_split l p r type x y :
    tidy expression_ l r ->
    (l <= p < r)%nat ->
    balance (range_chars expression_ l (S p)) = 0 ->
    operation_at expression_ p type ->
    (forall i t, (p < i < r)%nat -> balance (range_chars expression_ l (S i)) = 0 ->
                 operation_at expression_ i t -> GetPriority type < GetPriority t) ->
    (forall i t, (l <= i < p)%nat -> balance (range_chars expression_ l (S i)) = 0 ->
                 operation_at expression_ i t -> GetPriority type <= GetPriority t) ->
    reads expression_ l p x ->
    reads expression_ (S p) r y ->
    reads expression_ l r (combine type x y)
| reads_call l q r params trees :
    (l < q)%nat ->
    (forall i c, (l <= i < q)%nat -> has_char expression_ i c -> plain c = true) ->
    (forall c, has_char expression_ l c -> is_digit c = false) ->
    has_char expression_ q "(" ->
    arguments_from expression_ (S q) r params ->
    reads_each expression_ params trees ->
    reads expression_ l r
      (let* children := gather trees in
       Ok (mkNode Function (Some (substring l (q - l) expression_)) children))
with reads_each (expression_ : string) : list (nat * nat) -> list (result Node) -> Prop :=
| reads_none : reads_each expression_ [] []
| reads_more a b x params trees :
    reads expression_ a b x ->
    reads_each expression_ params trees ->
    reads_each expression_ ((a, b) :: params) (x :: trees).

(** ** Trees and surroundings for the examples *)

Definition constant (c : string) : Node := mkNode Constant (Some c) [].
Definition variable (v : string) : Node := mkNode Variable_ (Some v) [].
Definition binary (op : ExpressionType) (l r : Node) : Node := mkNode op None [l; r].
Definition call (f : string) (args : list Node) : Node := mkNode Function (Some f) args.

Definition demo_map : gmap string Z :=
  <["x" := 0x20000]> (<["add" := 0x9000]> (<["mul" := 0x9100]> ∅)).

Definition five_argument_call : Node :=
  call "add" [constant "0x1"; constant "0x2"; constant "0x3"; constant "0x4"; constant "0x5"].

Definition six_argument_call : Node :=
  call "add" [constant "0x1"; constant "0x2"; constant "0x3"; constant "0x4"; constant "0x5";
              constant "0x6"].

Definition demo_tree : Node :=
  binary Minus (variable "x")
    (call "add" [constant "0x2"; binary Product (constant "0x3") (constant "0x4")]).

(** [add] at 0x9000 and [mul] at 0x9100 take two [int]s; a call leaves
    0xdeadbeef in the registers a callee may use and 0xaa in every byte
    of the free stack down to 0x7000. *)
Definition demo_world : A32.world :=
  A32.mkWorld
    (fun a =>
       if a =? 0x9000
       then Some (A32.mkCallable 2 (fun l => match l with [x; y] => x + y | _ => 0 end))
       else if a =? 0x9100
       then Some (A32.mkCallable 2 (fun l => match l with [x; y] => x * y | _ => 0 end))
       else None)
    0x7000
    (fun _ _ => 0xdeadbeef)
    (fun _ _ => 0xaa).

(** A machine about to run [code]: the code at 0x10000, the variable
    [x] = 21 at 0x20000, sp = 0x8000 and the return address 0x4444 in lr;
    register [r] holds [r] otherwise. *)
Definition demo_machine (code : list Z) : A32.state :=
  A32.mkState
    (fun r => if r =? 15 then 0x10000 else if r =? 13 then 0x8000
              else if r =? 14 then 0x4444 else r)
    (A32.write_words (A32.store32 (fun _ => 0) 0x20000 21) 0x10000 code).

(** The words emitted for [demo_tree], and the machine about to run them. *)
Definition demo_code : list Z :=
  match jit_compile_tree_to_arm demo_map demo_tree with
  | Ok ws => ws
  | Error _ => []
  end.

Definition demo_state : A32.state := demo_machine demo_code.

(** What the machine returns in r0 for a tree: compile, load, run to the
    return address. *)
Definition returned (tree : Node) : option Z :=
  match jit_compile_tree_to_arm demo_map tree with
  | Ok ws =>
      match A32.run_to demo_world 0x4444 1000 (demo_machine ws) with
      | Some s => Some (A32.regs s 0)
      | None => None
      end
  | Error _ => None
  end.

(** The text [demo_tree] is parsed from, and the table of externals
    that gives [demo_map]. *)
Definition demo_text : string := "x - add(2, 3*4)".

Definition demo_externs : list symbol_t :=
  [ mkSymbol (Some "mul") 0x9100; mkSymbol (Some "add") 0x9000;
    mkSymbol (Some "x") 0x20000; mkSymbol None 0 ].

(** * Proofs *)

(** ** Reading numbers and writing them *)

Section Numbers.

Import Cxx.

Lemma digit_value_range base c d : digit_value base c = Some d -> 0 <= d < base.
Proof.
  unfold digit_value. intros H.
  destruct (_ <? base) eqn:E in H; [|discriminate].
  injection H as <-. apply Z.ltb_lt in E.
  pose proof (N2Z.is_nonneg (N_of_ascii c)) as Hc. fold (code c) in Hc.
  split; [|exact E]. clear E.
  repeat match goal with
         | |- context [if ?b then _ else _] =>
             let Hb := fresh in
             destruct b eqn:Hb;
             [apply andb_true_iff in Hb as [?%Z.leb_le ?%Z.leb_le]|]
         end; lia.
Qed.

Lemma accumulate_positional base s acc :
  accumulate base s acc =
  acc * base ^ Z.of_nat (length (leading_digits base s))
  + positional_value base (leading_digits base s).
Proof.
  revert acc. induction s as [|c s IH]; intros acc; simpl.
  - lia.
  - destruct (digit_value base c) as [d|]; simpl; [|lia].
    rewrite IH. rewrite Nat2Z.inj_succ, Z.pow_succ_r by lia. ring.
Qed.

Lemma accumulate_from_zero base s :
  accumulate base s 0 = positional_value base (leading_digits base s).
Proof. rewrite accumulate_positional. lia. Qed.

Lemma positional_value_snoc base ds d :
  positional_value base (ds ++ [d]) = positional_value base ds * base + d.
Proof.
  induction ds as [|x ds IH]; simpl; [lia|].
  rewrite IH, length_app. simpl.
  replace (Z.of_nat (length ds + 1)) with (Z.succ (Z.of_nat (length ds))) by lia.
  rewrite Z.pow_succ_r by lia. ring.
Qed.

Lemma digit_value_hex_char d : 0 <= d < 16 -> digit_value 16 (hex_char d) = Some d.
Proof.
  intros H.
  assert (d = 0 \/ d = 1 \/ d = 2 \/ d = 3 \/ d = 4 \/ d = 5 \/ d = 6 \/ d = 7 \/
          d = 8 \/ d = 9 \/ d = 10 \/ d = 11 \/ d = 12 \/ d = 13 \/ d = 14 \/ d = 15)
    as Hd by lia.
  repeat (destruct Hd as [->|Hd]; [reflexivity|]). subst d. reflexivity.
Qed.

(** The digits [hex_digits] writes are those of [n], before those of [tail]. *)
Lemma leading_digits_hex_digits fuel : forall n tail,
  0 <= n < 16 ^ Z.of_nat fuel ->
  exists ds,
    leading_digits 16 (hex_digits fuel n tail) = ds ++ leading_digits 16 tail /\
    String.length (hex_digits fuel n tail) = (length ds + String.length tail)%nat /\
    positional_value 16 ds = n /\
    (fuel <> O -> ds <> []).
Proof.
  induction fuel as [|fuel IH]; intros n tail Hn.
  - exists []. simpl in *. repeat split; [lia | congruence].
  - rewrite Nat2Z.inj_succ, Z.pow_succ_r in Hn by lia.
    pose proof (Z.mod_pos_bound n 16 ltac:(lia)) as Hm.
    pose proof (Z.div_mod n 16 ltac:(lia)) as Hdm.
    simpl. destruct (n / 16 =? 0) eqn:E.
    + apply Z.eqb_eq in E. exists [n mod 16]. simpl.
      rewrite digit_value_hex_char by lia.
      repeat split; [lia | congruence].
    + apply Z.eqb_neq in E.
      destruct (IH (n / 16) (String (hex_char (n mod 16)) tail)) as (ds & H1 & H2 & H3 & _).
      { split; [apply Z.div_pos; lia | apply Z.div_lt_upper_bound; lia]. }
      exists (ds ++ [n mod 16]). rewrite H1, H2. simpl.
      rewrite digit_value_hex_char by lia. rewrite <- app_assoc. simpl.
      repeat split.
      * rewrite length_app. simpl. lia.
      * rewrite positional_value_snoc, H3. lia.
      * intros _. destruct ds; discriminate.
Qed.

Lemma literal_value_nonneg leaf : 0 <= literal_value leaf.
Proof.
  unfold literal_value. induction leaf as [|c s IH]; simpl; [lia|].
  destruct (digit_value 10 c) as [d|] eqn:E; simpl; [|lia].
  apply digit_value_range in E.
  assert (0 <= 10 ^ Z.of_nat (length (leading_digits 10 s))) by (apply Z.pow_nonneg; lia).
  nia.
Qed.

Lemma skip_space_other c s : isspace c = false -> skip_space (String c s) = String c s.
Proof. intros H. simpl. rewrite H. reflexivity. Qed.

Lemma take_sign_other c s :
  code c <> 45 /\ code c <> 43 -> take_sign (String c s) = (false, String c s).
Proof.
  intros [H1 H2]. unfold take_sign.
  change (code "-") with 45. change (code "+") with 43.
  destruct (Z.eqb_spec (code c) 45); [contradiction|].
  destruct (Z.eqb_spec (code c) 43); [contradiction|]. reflexivity.
Qed.

Lemma detect_base_hexadecimal s :
  starts_with_digit 16 s = true -> detect_base (String "0" (String "x" s)) = (16, s).
Proof.
  intros H. unfold detect_base.
  change (code "0" =? code "0") with true.
  change (code "x" =? code "x") with true.
  cbv iota. rewrite H. reflexivity.
Qed.

Lemma hex_hexadecimal v : hexadecimal (hex v) (to_uint32 v).
Proof.
  unfold hex.
  destruct (leading_digits_hex_digits 8 (to_uint32 v) "") as (ds & H1 & H2 & H3 & H4).
  { unfold to_uint32. change (16 ^ Z.of_nat 8) with (2 ^ 32). apply Z.mod_pos_bound. lia. }
  change (leading_digits 16 "") with (@nil Z) in H1.
  change (String.length "") with 0%nat in H2.
  rewrite app_nil_r in H1. rewrite Nat.add_0_r in H2.
  specialize (H4 ltac:(discriminate)).
  unfold hexadecimal. rewrite H1, H2, H3. repeat split.
  intros E. rewrite E in H2. destruct ds; [congruence | discriminate].
Qed.

Lemma hexadecimal_starts_with_digit h v :
  hexadecimal h v -> starts_with_digit 16 h = true.
Proof.
  intros (Hne & Hlen & _). destruct h as [|c h]; [congruence|].
  simpl in *. destruct (digit_value 16 c); [reflexivity | discriminate].
Qed.

(** [std::stoul] reads a hexadecimal text with its prefix as the number
    written. *)
Lemma stoul_hexadecimal h v :
  hexadecimal h v -> v <= ULONG_MAX -> stoul ("0x" +:+ h) = Ok v.
Proof.
  intros Hh Hv. pose proof (hexadecimal_starts_with_digit _ _ Hh) as Hd.
  destruct Hh as (_ & _ & Hp).
  change ("0x" +:+ h) with (String "0" (String "x" h)).
  unfold stoul.
  rewrite skip_space_other by reflexivity.
  rewrite take_sign_other by (vm_compute; lia).
  rewrite detect_base_hexadecimal, Hd by exact Hd.
  rewrite accumulate_from_zero, Hp.
  destruct (ULONG_MAX <? v) eqn:E; [apply Z.ltb_lt in E; lia | reflexivity].
Qed.

Lemma to_uint32_range v : 0 <= to_uint32 v <= ULONG_MAX.
Proof.
  unfold to_uint32, ULONG_MAX. pose proof (Z.mod_pos_bound v (2 ^ 32) ltac:(lia)). lia.
Qed.

Lemma stoul_hex v : stoul ("0x" +:+ hex v) = Ok (to_uint32 v).
Proof. apply stoul_hexadecimal; [apply hex_hexadecimal | apply to_uint32_range]. Qed.

(** The text of an address reads back as the address. *)
Lemma stoul_print_pointer p : stoul (print_pointer p) = Ok (to_uint32 p).
Proof.
  unfold print_pointer. destruct (to_uint32 p =? 0) eqn:E.
  - apply Z.eqb_eq in E. rewrite E. reflexivity.
  - apply stoul_hex.
Qed.

Lemma stoi_decimal_literal leaf :
  begins_with_decimal_digit leaf ->
  stoi leaf =
  if INT_MAX <? literal_value leaf then Error ConstantOverflow
  else Ok (literal_value leaf).
Proof.
  intros (c & rest & -> & Hc).
  assert (digit_value 10 c = Some (code c - 48)) as Hd.
  { unfold digit_value.
    destruct ((48 <=? code c) && (code c <=? 57)) eqn:E.
    - destruct (code c - 48 <? 10) eqn:E'; [reflexivity | apply Z.ltb_ge in E'; lia].
    - apply andb_false_iff in E as [E|E]; [apply Z.leb_gt in E | apply Z.leb_gt in E]; lia. }
  pose proof (literal_value_nonneg (String c rest)) as Hpos.
  unfold stoi.
  rewrite skip_space_other.
  2:{ unfold isspace. apply orb_false_iff. split.
      - apply Z.eqb_neq. lia.
      - apply andb_false_iff. right. apply Z.leb_gt. lia. }
  rewrite take_sign_other by lia.
  unfold starts_with_digit. rewrite Hd.
  rewrite accumulate_from_zero. fold (literal_value (String c rest)).
  replace (literal_value (String c rest) <? INT_MIN) with false
    by (symmetry; apply Z.ltb_ge; unfold INT_MIN; lia).
  reflexivity.
Qed.

End Numbers.

(** ** Constant leaves *)

Lemma substring_head s : forall n m c,
  get n s = Some c -> exists rest, substring n (S m) s = String c rest.
Proof.
  induction s as [|x s IH]; intros n m c H; [destruct n; discriminate|].
  destruct n as [|n]; simpl in *.
  - injection H as ->. eauto.
  - apply IH. exact H.
Qed.

(** A leaf of at least one character whose first [IsConstant] accepts
    begins with a decimal digit. *)
Lemma IsConstant_leaf expression_ left right :
  (left < right)%nat ->
  IsConstant expression_ left = Ok true ->
  begins_with_decimal_digit (substring left (right - left) expression_).
Proof.
  intros Hrange. unfold IsConstant, char_at.
  destruct (get left expression_) as [c|] eqn:Hc.
  - simpl. intros [= H]. apply andb_true_iff in H as [H1%Z.leb_le H2%Z.leb_le].
    destruct (right - left)%nat as [|m] eqn:Hm; [lia|].
    destruct (substring_head expression_ left m c Hc) as [rest ->].
    exists c, rest. split; [reflexivity|].
    change (Cxx.code "0") with 48 in H1. change (Cxx.code "9") with 57 in H2. lia.
  - destruct (Nat.eqb left (String.length expression_)); simpl; discriminate.
Qed.

(** C5 (as the code has it): a [std::stoi] literal is an [int]. Parsing a
    leaf that begins with a decimal digit ([IsConstant] holds at its first
    character) fails with the constant-overflow error exactly when the
    literal's value exceeds [2^31 - 1]; every literal of at most
    [2^31 - 1] is stored as a Constant node whose content is ["0x"]
    followed by hexadecimal digits that write the literal's value, and the
    emitter's [std::stoul] reads the content back as that value. *)
Theorem ParseConstant_accepts_int_literals :
  forall (expression_ : string) (current_node : Node) (left right : nat),
    let leaf := substring left (right - left) expression_ in
    (left < right)%nat ->
    IsConstant expression_ left = Ok true ->
    (ParseConstant expression_ current_node left right = Error ConstantOverflow
     <-> 2 ^ 31 - 1 < literal_value leaf) /\
    (literal_value leaf <= 2 ^ 31 - 1 ->
     exists h,
       ParseConstant expression_ current_node left right
       = Ok (mkNode Constant (Some ("0x" +:+ h)) (sub_expressions current_node)) /\
       hexadecimal h (literal_value leaf) /\
       Cxx.stoul ("0x" +:+ h) = Ok (literal_value leaf)).
Proof.
  intros expression_ current_node left right leaf Hrange Hdigit.
  pose proof (IsConstant_leaf _ _ _ Hrange Hdigit) as Hleaf. fold leaf in Hleaf.
  unfold ParseConstant. fold leaf.
  rewrite (stoi_decimal_literal leaf Hleaf).
  pose proof (literal_value_nonneg leaf) as Hpos.
  change (2 ^ 31 - 1) with Cxx.INT_MAX.
  destruct (Z.ltb_spec Cxx.INT_MAX (literal_value leaf)) as [Hbig|Hfit]; simpl.
  - split; [split; [intros _; exact Hbig | reflexivity] | lia].
  - assert (Cxx.to_uint32 (literal_value leaf) = literal_value leaf) as Hsame.
    { unfold Cxx.to_uint32. apply Z.mod_small. unfold Cxx.INT_MAX in Hfit. lia. }
    split; [split; [discriminate | lia]|].
    intros _. exists (Cxx.hex (literal_value leaf)). split; [reflexivity|].
    pose proof (hex_hexadecimal (literal_value leaf)) as Hhex.
    pose proof (stoul_hex (literal_value leaf)) as Hread.
    rewrite Hsame in Hhex, Hread. split; assumption.
Qed.

(** The smallest literal past [int]: a 32-bit value that is refused. *)
Lemma ParseConstant_refuses_2147483648 :
  IsConstant "2147483648" 0 = Ok true /\
  literal_value (substring 0 (10 - 0) "2147483648") = 2147483648 /\
  2147483648 <= 2 ^ 32 - 1 /\
  ParseConstant "2147483648" fresh_Node 0 10 = Error ConstantOverflow.
Proof. repeat split; try reflexivity. lia. Qed.

Lemma ParseConstant_accepts_2147483647 :
  (ParseConstant "1+2147483647" fresh_Node 2 12
   = Error ConstantOverflow <-> 2 ^ 31 - 1 < literal_value (substring 2 (12 - 2) "1+2147483647")) /\
  (literal_value (substring 2 (12 - 2) "1+2147483647") <= 2 ^ 31 - 1 ->
   exists h,
     ParseConstant "1+2147483647" fresh_Node 2 12
     = Ok (mkNode Constant (Some ("0x" +:+ h)) (sub_expressions fresh_Node)) /\
     hexadecimal h (literal_value (substring 2 (12 - 2) "1+2147483647")) /\
     Cxx.stoul ("0x" +:+ h) = Ok (literal_value (substring 2 (12 - 2) "1+2147483647"))).
Proof.
  apply (ParseConstant_accepts_int_literals "1+2147483647" fresh_Node 2 12).
  - lia.
  - reflexivity.
Defined.

Example ParseConstant_gives_0x7fffffff :
  ParseConstant "1+2147483647" fresh_Node 2 12
  = Ok (mkNode Constant (Some "0x7fffffff") []).
Proof. reflexivity. Qed.

(** ** The tree walk *)

Section Walk.

Variable directory : gmap string Z.

Lemma pop_arguments_table n : pop_arguments n = table_pops n.
Proof.
  unfold table_pops. induction n as [|n IH]; [reflexivity|].
  rewrite seq_S, rev_app_distr. simpl. rewrite <- IH.
  do 2 f_equal. unfold R0. repeat f_equal. lia.
Qed.

Lemma to_int32_small v : - 2 ^ 31 <= v <= Cxx.INT_MAX -> Cxx.to_int32 v = v.
Proof.
  unfold Cxx.to_int32, Cxx.INT_MAX. intros H.
  rewrite Z.mod_small by lia. lia.
Qed.

Lemma for_each_table children :
  Forall (fun child => forall instructions_,
              compile_ directory child instructions_
              = Ok (instructions_ ++ table_sequence directory child)) children ->
  forall instructions_,
    for_each (compile_ directory) children instructions_
    = Ok (instructions_ ++ flat_map (table_sequence directory) children).
Proof.
  induction 1 as [|child children Hchild _ IH]; intros instructions_; simpl.
  - rewrite app_nil_r. reflexivity.
  - rewrite Hchild. simpl. rewrite IH, app_assoc. reflexivity.
Qed.

Lemma compile__table node :
  ast directory node ->
  forall instructions_,
    compile_ directory node instructions_
    = Ok (instructions_ ++ table_sequence directory node).
Proof.
  induction node as [t c children IH] using Node_ind.
  intros Hast instructions_.
  inversion Hast as [c' | v a Hv | op c' l r Hop Hl Hr | f a args Hf Hne Hlen Hargs]; subst.
  - reflexivity.
  - simpl. unfold handle_variable, at_, addr. simpl.
    rewrite Hv. reflexivity.
  - apply Forall_cons in IH as [IHl IH]. apply Forall_cons in IH as [IHr _].
    assert (handle_arithmetic (compile_ directory) (match t with Plus => ADD | Minus => SUB | _ => MUL end)
              (mkNode t c [l; r]) instructions_
            = Ok (instructions_ ++ (table_sequence directory l ++ table_sequence directory r ++ [])
                    ++ [ (POP_MULT_REG, Some R0, Some R1, None);
                         (match t with Plus => ADD | Minus => SUB | _ => MUL end, Some R0, Some R1, None);
                         (PUSH_REG, Some R0, None, None) ])) as Hop0.
    { unfold handle_arithmetic. simpl sub_expressions. cbv iota.
      rewrite (IHl Hl). simpl bind. rewrite (IHr Hr). simpl bind.
      rewrite app_nil_r, <- !app_assoc. reflexivity. }
    destruct Hop as [-> | [-> | ->]]; exact Hop0.
  - simpl. unfold handle_function. simpl sub_expressions.
    assert (Forall (fun child => forall instructions_,
              compile_ directory child instructions_
              = Ok (instructions_ ++ table_sequence directory child)) children) as Hall.
    { clear - IH Hargs. induction children as [|x children IHc]; [constructor|].
      apply Forall_cons in IH as [? ?]. apply Forall_cons in Hargs as [? ?].
      constructor; auto. }
    rewrite (for_each_table _ Hall). simpl bind.
    assert (0 < Z.of_nat (length children)) as Hpos
      by (destruct children; [congruence | simpl; lia]).
    replace (Z.of_nat (length children) >? 0) with true
      by (symmetry; apply Z.gtb_lt; lia).
    unfold at_, addr. simpl deref. simpl bind. rewrite Hf. simpl bind.
    rewrite to_int32_small by (split; [lia | exact Hlen]).
    rewrite Nat2Z.id, pop_arguments_table.
    rewrite <- !app_assoc. reflexivity.
Qed.

End Walk.

(** C2: in the walk of the tree, children first and in order, every node
    appends exactly the sequence the per-node table gives it. [addr(V)] is
    the directory's address of [V] in the emitter's spelling
    ([Cxx.print_pointer]). *)
Theorem compile__appends_the_table_sequence :
  forall (directory : gmap string Z) (node : Node),
    ast directory node ->
    forall instructions_,
      compile_ directory node instructions_
      = Ok (instructions_ ++ table_sequence directory node).
Proof. intros directory node Hast. apply compile__table. exact Hast. Qed.

Lemma compile__demo_tree_appends_the_table_sequence :
  compile_ demo_map demo_tree []
  = Ok ([] ++ table_sequence demo_map demo_tree).
Proof.
  apply (compile__appends_the_table_sequence demo_map demo_tree).
  apply ast_arithmetic; [auto | eapply ast_variable; reflexivity |].
  eapply ast_function; [reflexivity | discriminate | vm_compute; discriminate |].
  apply List.Forall_cons; [apply ast_constant|].
  apply List.Forall_cons; [|apply List.Forall_nil].
  apply ast_arithmetic; [auto | apply ast_constant | apply ast_constant].
Defined.

(** ** What the walk appends, on any tree *)

Section Appends.

Variable directory : gmap string Z.

Lemma bind_Ok {A B} (m : result A) (k : A -> result B) b :
  bind m k = Ok b -> exists a, m = Ok a /\ k a = Ok b.
Proof. destruct m; simpl; [eauto | discriminate]. Qed.

Lemma for_each_appends children :
  Forall (appends directory) children ->
  forall instructions_ r,
    for_each (compile_ directory) children instructions_ = Ok r ->
    exists suffix, r = instructions_ ++ suffix.
Proof.
  induction 1 as [|child children Hchild _ IH]; intros instructions_ r; simpl.
  - intros [= <-]. exists []. rewrite app_nil_r. reflexivity.
  - intros (mid & H1 & H2)%bind_Ok.
    apply Hchild in H1 as [s1 ->]. apply IH in H2 as [s2 ->].
    exists (s1 ++ s2). rewrite app_assoc. reflexivity.
Qed.

Lemma handle_arithmetic_appends op t c children :
  Forall (appends directory) children ->
  forall instructions_ r,
    handle_arithmetic (compile_ directory) op (mkNode t c children) instructions_ = Ok r ->
    exists suffix, r = instructions_ ++ suffix.
Proof.
  intros IH instructions_ r. unfold handle_arithmetic. simpl sub_expressions.
  destruct children as [|l [|rhs rest]]; [discriminate | |].
  - intros (? & _ & [=])%bind_Ok.
  - apply Forall_cons in IH as [IHl IH]. apply Forall_cons in IH as [IHr _].
    intros (i1 & H1 & (i2 & H2 & [= <-])%bind_Ok)%bind_Ok.
    apply IHl in H1 as [s1 ->]. apply IHr in H2 as [s2 ->].
    eexists. rewrite <- !app_assoc. reflexivity.
Qed.

Lemma compile__appends node : appends directory node.
Proof.
  induction node as [t c children IH] using Node_ind.
  intros instructions_ r. destruct t; simpl.
  - intros [= <-]. eauto.
  - discriminate.
  - unfold handle_variable.
    intros (? & _ & (? & _ & [= <-])%bind_Ok)%bind_Ok. eauto.
  - apply handle_arithmetic_appends, IH.
  - apply handle_arithmetic_appends, IH.
  - apply handle_arithmetic_appends, IH.
  - unfold handle_function. simpl sub_expressions.
    intros (i1 & H1 & H2)%bind_Ok.
    apply (for_each_appends _ IH) in H1 as [s1 ->].
    destruct (_ >? 0); [|discriminate].
    apply bind_Ok in H2 as (? & _ & (? & _ & [= <-])%bind_Ok).
    eexists. rewrite <- !app_assoc. reflexivity.
Qed.

Lemma for_each_compile__appends children instructions_ r :
  for_each (compile_ directory) children instructions_ = Ok r ->
  exists suffix, r = instructions_ ++ suffix.
Proof.
  apply for_each_appends. apply List.Forall_forall. intros ? _. apply compile__appends.
Qed.

End Appends.

(** ** The loop of GetCompiledBinary *)

Section Binary.

Let round (instruction : instruction_t) (binary : list Z) : result (list Z) :=
  let* words := translate instruction in Ok (binary ++ words).

Lemma rounds_from instructions_ : forall binary,
  for_each round instructions_ binary
  = let* words := for_each round instructions_ [] in Ok (binary ++ words).
Proof.
  induction instructions_ as [|i instructions_ IH]; intros binary; simpl.
  - rewrite app_nil_r. reflexivity.
  - unfold round at 1 3. destruct (translate i) as [ws|e]; simpl; [|reflexivity].
    rewrite IH. rewrite (IH ws).
    destruct (for_each round instructions_ []); simpl; [|reflexivity].
    rewrite app_assoc. reflexivity.
Qed.

Lemma GetCompiledBinary_cons i instructions_ :
  GetCompiledBinary (i :: instructions_)
  = let* first := translate i in
    let* rest := GetCompiledBinary instructions_ in Ok (first ++ rest).
Proof.
  unfold GetCompiledBinary. fold round. simpl. unfold round at 1.
  destruct (translate i) as [ws|e]; simpl; [|reflexivity].
  apply rounds_from.
Qed.

Lemma GetCompiledBinary_app a b :
  GetCompiledBinary (a ++ b)
  = let* first := GetCompiledBinary a in
    let* rest := GetCompiledBinary b in Ok (first ++ rest).
Proof.
  induction a as [|i a IH]; simpl.
  - change (GetCompiledBinary []) with (@Ok (list Z) []). simpl.
    destruct (GetCompiledBinary b); reflexivity.
  - rewrite !GetCompiledBinary_cons, IH.
    destruct (translate i); simpl; [|reflexivity].
    destruct (GetCompiledBinary a); simpl; [|reflexivity].
    destruct (GetCompiledBinary b); simpl; [|reflexivity].
    rewrite app_assoc. reflexivity.
Qed.

Lemma GetCompiledBinary_app_Ok a b ws :
  GetCompiledBinary (a ++ b) = Ok ws ->
  exists first rest,
    GetCompiledBinary a = Ok first /\ GetCompiledBinary b = Ok rest /\ ws = first ++ rest.
Proof.
  rewrite GetCompiledBinary_app.
  intros (first & H1 & (rest & H2 & [= <-])%bind_Ok)%bind_Ok. eauto.
Qed.

Lemma GetCompiledBinary_refuses i instructions_ e :
  In i instructions_ -> translate i = Error e ->
  forall ws, GetCompiledBinary instructions_ <> Ok ws.
Proof.
  intros Hin Hi ws H. apply in_split in Hin as (a & b & ->).
  apply GetCompiledBinary_app_Ok in H as (_ & rest & _ & H & _).
  rewrite GetCompiledBinary_cons, Hi in H. discriminate.
Qed.

Lemma translate_refusal i e :
  literal_readable i -> translate i = Error e -> e = InternalConsistency.
Proof.
  destruct i as [[[op r1] r2] str]. unfold translate.
  destruct op; simpl; intros Hr H;
    repeat match type of H with
           | (if ?b then _ else _) = _ => destruct b
           end; try congruence.
  destruct Hr as (text & v & -> & Hv). simpl in H. rewrite Hv in H. discriminate.
Qed.

Lemma GetCompiledBinary_refusal instructions_ e :
  Forall literal_readable instructions_ ->
  GetCompiledBinary instructions_ = Error e -> e = InternalConsistency.
Proof.
  induction 1 as [|i instructions_ Hi _ IH]; [discriminate|].
  rewrite GetCompiledBinary_cons.
  destruct (translate i) eqn:E; simpl.
  - destruct (GetCompiledBinary instructions_); simpl; [discriminate|].
    intros [= <-]. apply IH. reflexivity.
  - intros [= <-]. eapply translate_refusal; eassumption.
Qed.

End Binary.

(** ** Prologue and epilogue *)

(** C3: whenever compilation succeeds, the emitted words start with
    [push {lr}; push {r4}] (0xE52DE004, 0xE52D4004) and end with
    [pop {r0}; pop {r4, pc}] (0xE49D0004, 0xE8BD8010). The tree is any
    tree the parser may hand over, so this holds of every expression. *)
Theorem emitted_words_have_prologue_and_epilogue :
  forall (directory : gmap string Z) (tree : Node) (ws : list Z),
    jit_compile_tree_to_arm directory tree = Ok ws ->
    exists body,
      ws = [0xE52DE004; 0xE52D4004] ++ body ++ [0xE49D0004; 0xE8BD8010].
Proof.
  intros directory tree ws. unfold jit_compile_tree_to_arm, compile.
  intros (ins & (r & Hwalk & [= <-])%bind_Ok & Hbin)%bind_Ok.
  apply compile__appends in Hwalk as [body ->].
  unfold add_footer, add_header in Hbin. simpl app at 2 in Hbin.
  apply GetCompiledBinary_app_Ok in Hbin as (w1 & w2 & H1 & H2 & ->).
  change ([(PUSH_REG, Some LR, None, None); (PUSH_REG, Some R4, None, None)] ++ body)
    with ((PUSH_REG, Some LR, None, None) :: (PUSH_REG, Some R4, None, None) :: body) in H1.
  rewrite !GetCompiledBinary_cons in H1. simpl in H1.
  apply bind_Ok in H1 as (? & (ws' & Hbody & [= <-])%bind_Ok & [= <-]).
  vm_compute in H2. injection H2 as <-.
  exists ws'. reflexivity.
Qed.

Lemma emitted_words_of_2_plus_3 :
  exists body,
    [0xE52DE004; 0xE52D4004; 0xE59F0000; 0xEA000000; 2; 0xE52D0004;
     0xE59F0000; 0xEA000000; 3; 0xE52D0004; 0xE8BD0003; 0xE0810000; 0xE52D0004;
     0xE49D0004; 0xE8BD8010]
    = [0xE52DE004; 0xE52D4004] ++ body ++ [0xE49D0004; 0xE8BD8010].
Proof.
  apply (emitted_words_have_prologue_and_epilogue
           ∅ (binary Plus (constant "0x2") (constant "0x3"))).
  vm_compute. reflexivity.
Defined.

(** ** Calls with many arguments *)

Section WideCalls.

Variable directory : gmap string Z.

Lemma In_pop_arguments (k n : nat) :
  (k < n)%nat -> In (POP_REG, Some (Z.of_nat k), None, None) (pop_arguments n).
Proof.
  intros H. rewrite pop_arguments_table. unfold table_pops.
  apply in_map_iff. exists k. split; [reflexivity|].
  apply in_rev. rewrite rev_involutive. apply in_seq. lia.
Qed.

Lemma for_each_keeps x children :
  forall a, In a children ->
  (forall instructions_ r, compile_ directory a instructions_ = Ok r -> In x r) ->
  forall instructions_ r,
    for_each (compile_ directory) children instructions_ = Ok r -> In x r.
Proof.
  induction children as [|child children IH]; intros a Hin Ha instructions_ r; [destruct Hin|].
  simpl. intros (mid & H1 & H2)%bind_Ok.
  destruct Hin as [-> | Hin].
  - apply Ha in H1. apply for_each_compile__appends in H2 as [suffix ->].
    apply in_or_app. left. exact H1.
  - eapply IH; eassumption.
Qed.

(** A call with six arguments or more puts [POP_REG LR] on the list. *)
Lemma compile__pops_LR root f :
  visits root f ->
  type f = Function ->
  6 <= Z.of_nat (length (sub_expressions f)) <= Cxx.INT_MAX ->
  forall instructions_ r,
    compile_ directory root instructions_ = Ok r ->
    In (POP_REG, Some LR, None, None) r.
Proof.
  intros Hvisit Htype Hwide.
  induction Hvisit as [n | op c l rhs rest n Hop _ IH | op c l rhs rest n Hop _ IH
                      | c args a n Hin _ IH]; intros instructions_ r.
  - destruct n as [t c args]. simpl in Htype, Hwide. subst t. simpl.
    unfold handle_function. simpl sub_expressions.
    intros (i1 & _ & H2)%bind_Ok.
    destruct (_ >? 0); [|discriminate].
    apply bind_Ok in H2 as (? & _ & (? & _ & [= <-])%bind_Ok).
    apply in_or_app. right. apply in_or_app. left.
    rewrite to_int32_small by lia. rewrite Nat2Z.id.
    change LR with (Z.of_nat 5). apply In_pop_arguments. lia.
  - assert (forall i, handle_arithmetic (compile_ directory) i
                        (mkNode op c (l :: rhs :: rest)) instructions_ = Ok r ->
                      In (POP_REG, Some LR, None, None) r) as Hop0.
    { intros i. unfold handle_arithmetic. simpl sub_expressions. cbv iota.
      intros (i1 & H1 & (i2 & H2 & [= <-])%bind_Ok)%bind_Ok.
      apply (IH Htype Hwide) in H1. apply compile__appends in H2 as [suffix ->].
      apply in_or_app. left. apply in_or_app. left. exact H1. }
    destruct Hop as [-> | [-> | ->]]; apply Hop0.
  - assert (forall i, handle_arithmetic (compile_ directory) i
                        (mkNode op c (l :: rhs :: rest)) instructions_ = Ok r ->
                      In (POP_REG, Some LR, None, None) r) as Hop0.
    { intros i. unfold handle_arithmetic. simpl sub_expressions. cbv iota.
      intros (i1 & H1 & (i2 & H2 & [= <-])%bind_Ok)%bind_Ok.
      apply (IH Htype Hwide) in H2.
      apply in_or_app. left. exact H2. }
    destruct Hop as [-> | [-> | ->]]; apply Hop0.
  - simpl. unfold handle_function. simpl sub_expressions.
    intros (i1 & H1 & H2)%bind_Ok.
    apply (for_each_keeps _ _ a Hin (IH Htype Hwide)) in H1.
    destruct (_ >? 0); [|discriminate].
    apply bind_Ok in H2 as (? & _ & (? & _ & [= <-])%bind_Ok).
    apply in_or_app. left. exact H1.
Qed.

Lemma for_each_readable children :
  Forall (fun child => forall instructions_ r,
              compile_ directory child instructions_ = Ok r ->
              Forall literal_readable instructions_ -> Forall literal_readable r) children ->
  forall instructions_ r,
    for_each (compile_ directory) children instructions_ = Ok r ->
    Forall literal_readable instructions_ -> Forall literal_readable r.
Proof.
  induction 1 as [|child children Hchild _ IH]; intros instructions_ r; simpl.
  - intros [= <-]. auto.
  - intros (mid & H1 & H2)%bind_Ok Hins. eauto.
Qed.

Lemma readable_pointer p : readable (Some (Cxx.print_pointer p)).
Proof. eexists _, _. split; [reflexivity | apply stoul_print_pointer]. Qed.

Lemma compile__readable root :
  constants_readable root ->
  forall instructions_ r,
    compile_ directory root instructions_ = Ok r ->
    Forall literal_readable instructions_ -> Forall literal_readable r.
Proof.
  induction root as [t c children IH] using Node_ind.
  intros Hconst instructions_ r.
  assert (forall op,
    op = Plus \/ op = Minus \/ op = Product -> t = op ->
    forall i, i = ADD \/ i = SUB \/ i = MUL ->
    handle_arithmetic (compile_ directory) i (mkNode t c children) instructions_ = Ok r ->
    Forall literal_readable instructions_ -> Forall literal_readable r) as Harith.
  { intros op Hop -> i Hi. unfold handle_arithmetic. simpl sub_expressions.
    destruct children as [|l [|rhs rest]]; [discriminate | |].
    - intros (? & _ & [=])%bind_Ok.
    - apply Forall_cons in IH as [IHl IH]. apply Forall_cons in IH as [IHr _].
      intros (i1 & H1 & (i2 & H2 & [= <-])%bind_Ok)%bind_Ok Hins.
      apply Forall_app. split; [|destruct Hi as [-> | [-> | ->]]; repeat constructor].
      eapply IHr; [|exact H2|].
      + intros n Hn. apply Hconst. eapply visits_right; eassumption.
      + eapply IHl; [|exact H1|exact Hins].
        intros n Hn. apply Hconst. eapply visits_left; eassumption. }
  destruct t; simpl.
  - intros [= <-] Hins. apply Forall_app. split; [exact Hins|].
    repeat constructor. apply (Hconst _ (visits_root _)). reflexivity.
  - discriminate.
  - unfold handle_variable.
    intros (? & _ & (? & _ & [= <-])%bind_Ok)%bind_Ok Hins.
    apply Forall_app. split; [exact Hins|].
    repeat constructor. apply readable_pointer.
  - apply (Harith Plus); auto.
  - apply (Harith Minus); auto.
  - apply (Harith Product); auto.
  - unfold handle_function. simpl sub_expressions.
    intros (i1 & H1 & H2)%bind_Ok Hins.
    destruct (_ >? 0); [|discriminate].
    apply bind_Ok in H2 as (? & _ & (? & _ & [= <-])%bind_Ok).
    apply Forall_app. split.
    + eapply for_each_readable; [|exact H1|exact Hins].
      apply List.Forall_forall. intros a Ha. rewrite List.Forall_forall in IH.
      apply IH; [exact Ha|].
      intros n Hn. apply Hconst. eapply visits_argument; eassumption.
    + apply Forall_app. split.
      * rewrite pop_arguments_table. unfold table_pops.
        apply List.Forall_forall. intros i (k & <- & _)%in_map_iff. exact I.
      * repeat constructor. apply readable_pointer.
Qed.

End WideCalls.

(** C4 (as the code has it): the table of [POP_REG] goes up to r4, so a
    call with five arguments is translated, and the assertion is met from
    six arguments on. For every Function node the emitter visits that has
    six arguments or more (and no more than an [int32_t] counts, as every
    vector of the 32-bit target), no word stream is produced; and when the
    walk itself succeeds (every name bound) on constants that can be read,
    the translation fails with the Internal-Consistency error. *)
Theorem call_with_six_arguments_is_refused :
  forall (directory : gmap string Z) (root f : Node),
    visits root f ->
    type f = Function ->
    6 <= Z.of_nat (length (sub_expressions f)) <= Cxx.INT_MAX ->
    (forall ws, jit_compile_tree_to_arm directory root <> Ok ws) /\
    (forall instructions_,
        compile directory root = Ok instructions_ ->
        constants_readable root ->
        jit_compile_tree_to_arm directory root = Error InternalConsistency).
Proof.
  intros directory root f Hvisit Htype Hwide.
  assert (forall instructions_,
             compile directory root = Ok instructions_ ->
             forall ws, GetCompiledBinary instructions_ <> Ok ws) as Hrefuse.
  { intros instructions_ (r & Hwalk & [= <-])%bind_Ok.
    apply (GetCompiledBinary_refuses (POP_REG, Some LR, None, None) _ InternalConsistency);
      [|reflexivity].
    apply in_or_app. left. eapply compile__pops_LR; eassumption. }
  split.
  - intros ws. unfold jit_compile_tree_to_arm.
    intros (instructions_ & Hc & Hb)%bind_Ok. exact (Hrefuse _ Hc _ Hb).
  - intros instructions_ Hc Hconst. unfold jit_compile_tree_to_arm. rewrite Hc. simpl.
    destruct (GetCompiledBinary instructions_) as [ws|e] eqn:Hb.
    + destruct (Hrefuse _ Hc _ Hb).
    + f_equal. apply (GetCompiledBinary_refusal instructions_); [|exact Hb].
      unfold compile in Hc. apply bind_Ok in Hc as (r & Hwalk & [= <-]).
      apply Forall_app. split; [|repeat constructor].
      eapply compile__readable; [exact Hconst | exact Hwalk | repeat constructor].
Qed.

(** A call with five arguments, more than four, is translated: its first
    pop is [pop {r4}] (0xE49D4004). *)
Lemma call_with_five_arguments_is_translated :
  type five_argument_call = Function /\
  length (sub_expressions five_argument_call) = 5%nat /\
  jit_compile_tree_to_arm demo_map five_argument_call
  = Ok [0xE52DE004; 0xE52D4004;
        0xE59F0000; 0xEA000000; 1; 0xE52D0004;
        0xE59F0000; 0xEA000000; 2; 0xE52D0004;
        0xE59F0000; 0xEA000000; 3; 0xE52D0004;
        0xE59F0000; 0xEA000000; 4; 0xE52D0004;
        0xE59F0000; 0xEA000000; 5; 0xE52D0004;
        0xE49D4004; 0xE49D3004; 0xE49D2004; 0xE49D1004; 0xE49D0004;
        0xE59F4000; 0xEA000000; 0x9000; 0xE12FFF34; 0xE52D0004;
        0xE49D0004; 0xE8BD8010].
Proof. repeat split; vm_compute; reflexivity. Qed.

Example six_argument_call_fails_the_assertion :
  jit_compile_tree_to_arm demo_map six_argument_call = Error InternalConsistency.
Proof. vm_compute. reflexivity. Qed.

Lemma call_with_six_constants_is_refused :
  (forall ws, jit_compile_tree_to_arm demo_map six_argument_call <> Ok ws) /\
  (forall instructions_,
      compile demo_map six_argument_call = Ok instructions_ ->
      constants_readable six_argument_call ->
      jit_compile_tree_to_arm demo_map six_argument_call = Error InternalConsistency).
Proof.
  apply (call_with_six_arguments_is_refused demo_map six_argument_call six_argument_call).
  - apply visits_root.
  - reflexivity.
  - vm_compute. split; discriminate.
Defined.

(** ** The words of the trees that can be evaluated *)

Section Words.

Variable w : A32.world.
Variable directory : gmap string Z.
Variable top : Z.

Lemma evaluable_ast node : evaluable w directory top node -> ast directory node.
Proof.
  induction node as [t c children IH] using Node_ind.
  intros He.
  inversion He as [text Hr | v a Hv _ _ _ | op c' l r Hop Hl Hr
                  | f a g args Hf _ Hg Harity Hn Hargs]; subst.
  - apply ast_constant.
  - eapply ast_variable. exact Hv.
  - apply Forall_cons in IH as [IHl IH]. apply Forall_cons in IH as [IHr _].
    apply ast_arithmetic; auto.
  - eapply ast_function; [exact Hf | | | ].
    + intros ->. simpl in Hn. lia.
    + unfold Cxx.INT_MAX. lia.
    + rewrite List.Forall_forall in IH, Hargs. apply List.Forall_forall.
      intros x Hx. apply IH; auto.
Qed.

Lemma translate_pops n :
  (n <= 4)%nat -> GetCompiledBinary (table_pops n) = Ok (pop_words n).
Proof.
  intros Hn. rewrite <- pop_arguments_table.
  do 5 (destruct n as [|n]; [reflexivity|]). lia.
Qed.

Lemma translate_children children :
  Forall (fun child => GetCompiledBinary (table_sequence directory child)
                       = Ok (words directory child)) children ->
  GetCompiledBinary (flat_map (table_sequence directory) children)
  = Ok (flat_map (words directory) children).
Proof.
  induction 1 as [|child children Hchild _ IH]; [reflexivity|].
  simpl flat_map. rewrite GetCompiledBinary_app, Hchild, IH. reflexivity.
Qed.

Lemma translate_address r a :
  0 <= a < 2 ^ 32 ->
  translate (LDR_FROM_NEXT, Some r, None, Some (Cxx.print_pointer a))
  = Ok [if Cxx.to_uint8 r =? 0 then 0xe59f0000 else 0xe59f4000; 0xea000000; a].
Proof.
  intros Ha. unfold translate. cbn [deref bind].
  rewrite stoul_print_pointer. cbn [bind].
  unfold Cxx.to_uint32. rewrite !(Z.mod_small a) by lia. reflexivity.
Qed.

(** The table's sequence of an evaluable tree is translated, to [words]. *)
Lemma translate_table node :
  evaluable w directory top node ->
  GetCompiledBinary (table_sequence directory node) = Ok (words directory node).
Proof.
  induction node as [t c children IH] using Node_ind.
  intros He.
  inversion He as [text Hr | v a Hv Ha _ _ | op c' l r Hop Hl Hr
                  | f a g args Hf Ha Hg Harity Hn Hargs]; subst.
  - destruct Hr as (text' & v & [= <-] & Hv).
    unfold GetCompiledBinary. simpl. rewrite Hv. reflexivity.
  - simpl table_sequence. simpl words. unfold addr, address_of. rewrite Hv.
    rewrite GetCompiledBinary_cons, translate_address by exact Ha. reflexivity.
  - assert (GetCompiledBinary (table_sequence directory l ++ table_sequence directory r ++ [])
            = Ok (words directory l ++ words directory r ++ [])) as Hchildren.
    { apply (translate_children [l; r]).
      apply Forall_cons in IH as [IHl IH]. apply Forall_cons in IH as [IHr _].
      repeat constructor; auto. }
    destruct Hop as [-> | [-> | ->]]; simpl table_sequence; simpl words;
      rewrite GetCompiledBinary_app, Hchildren; reflexivity.
  - simpl table_sequence. simpl words.
    rewrite !GetCompiledBinary_app, translate_children.
    + rewrite translate_pops by lia.
      unfold addr, address_of. rewrite Hf.
      rewrite GetCompiledBinary_cons, translate_address by exact Ha. reflexivity.
    + rewrite List.Forall_forall in IH, Hargs. apply List.Forall_forall.
      intros x Hx. apply IH; auto.
Qed.

End Words.

(** ** Memory *)

Ltac zdm := Z.div_mod_to_equations; lia.

Section Memory.

Import A32.

Lemma aligned_spec a : aligned a = true <-> a mod 4 = 0.
Proof. unfold aligned. apply Z.eqb_eq. Qed.

Lemma word_small v : 0 <= v < 2 ^ 32 -> word v = v.
Proof. unfold word. intros. apply Z.mod_small. assumption. Qed.

Lemma word_range v : 0 <= word v < 2 ^ 32.
Proof. unfold word. apply Z.mod_pos_bound. lia. Qed.

Lemma load32_range m a : 0 <= load32 m a < 2 ^ 32.
Proof.
  unfold load32.
  change (2 ^ 8) with 256. change (2 ^ 16) with 65536.
  change (2 ^ 24) with 16777216. change (2 ^ 32) with 4294967296.
  pose proof (Z.mod_pos_bound (m a) 256 ltac:(lia)).
  pose proof (Z.mod_pos_bound (m (a + 1)) 256 ltac:(lia)).
  pose proof (Z.mod_pos_bound (m (a + 2)) 256 ltac:(lia)).
  pose proof (Z.mod_pos_bound (m (a + 3)) 256 ltac:(lia)).
  lia.
Qed.

Lemma load32_store32 m a v : load32 (store32 m a v) a = word v.
Proof.
  unfold load32, store32, word.
  rewrite Z.eqb_refl.
  replace (a + 1 =? a) with false by (symmetry; apply Z.eqb_neq; lia).
  replace (a + 2 =? a) with false by (symmetry; apply Z.eqb_neq; lia).
  replace (a + 3 =? a) with false by (symmetry; apply Z.eqb_neq; lia).
  rewrite !Z.eqb_refl.
  replace (a + 2 =? a + 1) with false by (symmetry; apply Z.eqb_neq; lia).
  replace (a + 3 =? a + 1) with false by (symmetry; apply Z.eqb_neq; lia).
  replace (a + 3 =? a + 2) with false by (symmetry; apply Z.eqb_neq; lia).
  change (2 ^ 8) with 256. change (2 ^ 16) with 65536.
  change (2 ^ 24) with 16777216. change (2 ^ 32) with 4294967296.
  zdm.
Qed.

Lemma store32_other m a v x : x < a \/ a + 4 <= x -> store32 m a v x = m x.
Proof.
  intros H. unfold store32.
  replace (x =? a) with false by (symmetry; apply Z.eqb_neq; lia).
  replace (x =? a + 1) with false by (symmetry; apply Z.eqb_neq; lia).
  replace (x =? a + 2) with false by (symmetry; apply Z.eqb_neq; lia).
  replace (x =? a + 3) with false by (symmetry; apply Z.eqb_neq; lia).
  reflexivity.
Qed.

Lemma load32_same m m' a :
  (forall x, a <= x < a + 4 -> m' x = m x) -> load32 m' a = load32 m a.
Proof.
  intros H. unfold load32. rewrite !H by lia. reflexivity.
Qed.

Lemma loaded_app m a ws ws' :
  loaded m a (ws ++ ws') <-> loaded m a ws /\ loaded m (a + 4 * Z.of_nat (length ws)) ws'.
Proof.
  revert a. induction ws as [|x ws IH]; intros a.
  - simpl app. simpl length. replace (a + 4 * Z.of_nat 0) with a by lia.
    simpl. tauto.
  - simpl app. simpl loaded. rewrite IH.
    replace (a + 4 + 4 * Z.of_nat (length ws)) with (a + 4 * Z.of_nat (length (x :: ws)))
      by (simpl length; lia).
    tauto.
Qed.

Lemma loaded_same m m' a ws :
  (forall x, a <= x < a + 4 * Z.of_nat (length ws) -> m' x = m x) ->
  loaded m a ws -> loaded m' a ws.
Proof.
  revert a. induction ws as [|y ws IH]; intros a H; simpl loaded; [tauto|].
  intros [H1 H2]. split.
  - rewrite <- H1. apply load32_same. intros x Hx. apply H. simpl length. lia.
  - apply IH; [|exact H2]. intros x Hx. apply H. simpl length. lia.
Qed.

Lemma run_add w k1 k2 s :
  run w (k1 + k2) s = match run w k1 s with Some s' => run w k2 s' | None => None end.
Proof.
  revert s. induction k1 as [|k1 IH]; intros s; simpl; [reflexivity|].
  destruct (step w s); [apply IH | reflexivity].
Qed.

Lemma run_then w k1 k2 s s1 s2 :
  run w k1 s = Some s1 -> run w k2 s1 = Some s2 -> run w (k1 + k2) s = Some s2.
Proof. intros H1 H2. rewrite run_add, H1. exact H2. Qed.

Lemma step_at w s p i ins :
  regs s PC = p -> callables w p = None -> aligned p = true ->
  load32 (mem s) p = i -> decode i = Some ins ->
  step w s = execute ins s.
Proof.
  intros Hpc Hcall Hal Hi Hd. unfold step. rewrite Hpc, Hcall, Hal, Hi, Hd. reflexivity.
Qed.

End Memory.

(** ** Running the emitted instructions *)

Section Execution.

Import A32.

Variable w : world.
Variables base size top : Z.

Hypothesis base_aligned : aligned base = true.
Hypothesis code_inside : 0 <= base /\ base + 4 * size < 2 ^ 32.
Hypothesis top_aligned : aligned top = true.
Hypothesis top_inside : top < 2 ^ 32.
Hypothesis limit_inside : 0 <= stack_limit w.
Hypothesis code_away : base + 4 * size <= stack_limit w \/ top <= base.
Hypothesis code_not_callable :
  forall a, base <= a < base + 4 * size -> callables w a = None.

(** The pc is at the words [ws] of the code. *)
Let at_code (s : state) (p : Z) (ws : list Z) : Prop :=
  regs s PC = p /\ base <= p /\ p + 4 * Z.of_nat (length ws) <= base + 4 * size /\
  aligned p = true /\ loaded (mem s) p ws.

(** The sp is [sp], with [room] free words below it. *)
Let on_stack (s : state) (sp room : Z) : Prop :=
  regs s SP = sp /\ aligned sp = true /\ stack_limit w + 4 * room <= sp /\ sp <= top.

(** Memory from [sp] up, and below the stack, is as it was. *)
Let kept (sp : Z) (s s' : state) : Prop :=
  forall a, a < stack_limit w \/ sp <= a -> mem s' a = mem s a.

Local Arguments word : simpl never.
Local Arguments load32 : simpl never.
Local Arguments store32 : simpl never.
Local Arguments aligned : simpl never.

Lemma fetch s p x ws ins :
  at_code s p (x :: ws) -> decode x = Some ins -> step w s = execute ins s.
Proof using code_not_callable.
  intros (Hpc & Hlo & Hhi & Hal & Hx & _) Hd.
  apply (step_at w s p x); auto.
  apply code_not_callable. simpl length in Hhi. lia.
Qed.

Lemma at_code_next s s' p x ws :
  at_code s p (x :: ws) -> regs s' PC = p + 4 -> kept top s s' ->
  at_code s' (p + 4) ws.
Proof using code_away.
  intros (Hpc & Hlo & Hhi & Hal & _ & Hws) Hpc' Hkept.
  simpl length in Hhi. apply aligned_spec in Hal.
  repeat split; [exact Hpc' | lia | lia | apply aligned_spec; zdm |].
  eapply loaded_same; [|exact Hws]. intros a Ha. apply Hkept. lia.
Qed.

Ltac decide_eqb :=
  repeat match goal with
         | |- context [?a =? ?b] =>
             first [ replace (a =? b) with false by (symmetry; apply Z.eqb_neq; lia)
                   | replace (a =? b) with true by (symmetry; apply Z.eqb_eq; lia) ]
         end.

Lemma run_push s p x ws sp r :
  decode x = Some (Istr true false true r 13 4) ->
  r <> 13 -> r <> 15 ->
  at_code s p (x :: ws) -> on_stack s sp 1 ->
  exists s',
    step w s = Some s' /\
    regs s' PC = p + 4 /\ regs s' SP = sp - 4 /\
    (forall q, q <> PC -> q <> SP -> regs s' q = regs s q) /\
    mem s' = store32 (mem s) (sp - 4) (regs s r).
Proof using All.
  intros Hd Hr1 Hr2 Hat (Hsp & Hal & Hroom & Htop).
  rewrite (fetch _ _ _ _ _ Hat Hd).
  destruct Hat as (Hpc & Hlo & Hhi & _). simpl length in Hhi.
  unfold PC, SP in *.
  unfold execute, transfer_address, operand, PC. decide_eqb.
  rewrite Hsp, (word_small (sp - 4)) by lia.
  replace (aligned (sp - 4)) with true
    by (symmetry; apply aligned_spec; apply aligned_spec in Hal; zdm).
  cbn [negb orb andb]. eexists. split; [reflexivity|].
  unfold advance, set, PC. cbn [regs mem]. decide_eqb.
  rewrite Hpc, word_small by lia.
  repeat split. intros q H1 H2. decide_eqb. reflexivity.
Qed.

Lemma run_pop s p x ws sp r :
  decode x = Some (Ildr false true false r 13 4) ->
  r <> 13 -> r <> 15 ->
  at_code s p (x :: ws) ->
  regs s SP = sp -> aligned sp = true -> 0 <= sp -> sp + 4 <= top ->
  exists s',
    step w s = Some s' /\
    regs s' PC = p + 4 /\ regs s' SP = sp + 4 /\ regs s' r = load32 (mem s) sp /\
    (forall q, q <> PC -> q <> SP -> q <> r -> regs s' q = regs s q) /\
    mem s' = mem s.
Proof using All.
  intros Hd Hr1 Hr2 Hat Hsp Hal Hpos Htop.
  rewrite (fetch _ _ _ _ _ Hat Hd).
  destruct Hat as (Hpc & Hlo & Hhi & _). simpl length in Hhi.
  unfold PC, SP in *.
  unfold execute, transfer_address, operand, PC. decide_eqb.
  rewrite Hsp, Hal, (word_small (sp + 4)) by lia.
  cbn [negb orb andb]. eexists. split; [reflexivity|].
  unfold advance, set, PC. cbn [regs mem]. decide_eqb.
  rewrite Hpc, word_small by lia.
  repeat split. intros q H1 H2 H3. decide_eqb. reflexivity.
Qed.

Lemma run_literal s p l b v ws r :
  decode l = Some (Ildr true true false r 15 0) ->
  decode b = Some (Ib 0) ->
  r <> 15 ->
  at_code s p (l :: b :: v :: ws) ->
  exists s',
    run w 2 s = Some s' /\
    regs s' PC = p + 12 /\ regs s' r = v /\
    (forall q, q <> PC -> q <> r -> regs s' q = regs s q) /\
    mem s' = mem s.
Proof using All.
  intros Hl Hb Hr Hat.
  assert (at_code (mkState (advance (set r v (regs s))) (mem s)) (p + 4) (b :: v :: ws)) as Hat'.
  { apply (at_code_next s _ p l); [exact Hat | | intros a _; reflexivity].
    destruct Hat as (Hpc & Hlo & Hhi & _). simpl length in Hhi.
    unfold advance, set, PC in *. cbn [regs]. decide_eqb.
    rewrite Hpc, word_small by lia. reflexivity. }
  unfold run. rewrite (fetch _ _ _ _ _ Hat Hl).
  destruct Hat as (Hpc & Hlo & Hhi & Hal & _ & _ & Hv & _). simpl length in Hhi.
  unfold execute at 1, transfer_address, operand. unfold PC in *. decide_eqb.
  rewrite Hpc, (word_small (p + 8)), Z.add_0_r, (word_small (p + 8)) by lia.
  replace (aligned (p + 8)) with true
    by (symmetry; apply aligned_spec; apply aligned_spec in Hal; zdm).
  cbn [negb orb andb].
  replace (p + 4 + 4) with (p + 8) in Hv by lia. rewrite Hv.
  rewrite (fetch _ _ _ _ _ Hat' Hb).
  unfold execute. eexists. split; [reflexivity|].
  unfold advance, set, PC. cbn [regs mem]. decide_eqb.
  rewrite Hpc, (word_small (p + 4)), word_small by lia.
  repeat split; [lia|]. intros q H1 H2. decide_eqb. reflexivity.
Qed.

Lemma load_multiple_pair m a rs :
  load_multiple m 3 0 16 a rs = set 1 (load32 m (word (a + 4))) (set 0 (load32 m a) rs).
Proof. reflexivity. Qed.

Lemma listed_pair : listed 3 0 16 = 2.
Proof. reflexivity. Qed.

Lemma load_multiple_return m a rs :
  load_multiple m 32784 0 16 a rs
  = set 15 (load32 m (word (a + 4))) (set 4 (load32 m a) rs).
Proof. reflexivity. Qed.

Lemma listed_return : listed 32784 0 16 = 2.
Proof. reflexivity. Qed.

Lemma run_pop_pair s p x ws sp :
  decode x = Some (Ildm true 13 3) ->
  at_code s p (x :: ws) ->
  regs s SP = sp -> aligned sp = true -> 0 <= sp -> sp + 8 <= top ->
  exists s',
    step w s = Some s' /\
    regs s' PC = p + 4 /\ regs s' SP = sp + 8 /\
    regs s' 0 = load32 (mem s) sp /\ regs s' 1 = load32 (mem s) (sp + 4) /\
    mem s' = mem s.
Proof using All.
  intros Hd Hat Hsp Hal Hpos Htop.
  rewrite (fetch _ _ _ _ _ Hat Hd).
  destruct Hat as (Hpc & Hlo & Hhi & _). simpl length in Hhi.
  unfold PC, SP in *.
  unfold execute, PC. rewrite Hsp, Hal.
  change (13 =? 15) with false. change (3 =? 0) with false.
  change (Z.testbit 3 13) with false. change (Z.testbit 3 15) with false.
  cbn [negb orb andb]. eexists. split; [reflexivity|].
  rewrite load_multiple_pair, listed_pair.
  unfold advance, set, PC. cbn [regs mem]. decide_eqb.
  rewrite Hpc, (word_small (p + 4)), (word_small (sp + 4)), (word_small (sp + 4 * 2)) by lia.
  repeat split; lia.
Qed.

Lemma run_return s p x sp :
  decode x = Some (Ildm true 13 32784) ->
  at_code s p [x] ->
  regs s SP = sp -> aligned sp = true -> 0 <= sp -> sp + 8 <= top ->
  exists s',
    step w s = Some s' /\
    regs s' PC = load32 (mem s) (sp + 4) /\ regs s' SP = sp + 8 /\
    regs s' 4 = load32 (mem s) sp /\ regs s' 0 = regs s 0.
Proof using All.
  intros Hd Hat Hsp Hal Hpos Htop.
  rewrite (fetch _ _ _ _ _ Hat Hd).
  unfold PC, SP in *.
  unfold execute, PC. rewrite Hsp, Hal.
  change (13 =? 15) with false. change (32784 =? 0) with false.
  change (Z.testbit 32784 13) with false. change (Z.testbit 32784 15) with true.
  cbn [negb orb andb]. eexists. split; [reflexivity|].
  rewrite load_multiple_return, listed_return.
  unfold set. cbn [regs mem]. decide_eqb.
  rewrite (word_small (sp + 4)), (word_small (sp + 4 * 2)) by lia.
  repeat split; lia.
Qed.

(** [add], [sub] and [mul r0, r1, r0]: r0 becomes the result of [f] on r1 and r0. *)
Lemma run_operation s p x ws ins (f : Z -> Z -> Z) :
  decode x = Some ins ->
  ins = Iadd 0 1 0 /\ f = Z.add \/ ins = Isub 0 1 0 /\ f = Z.sub \/
  ins = Imul 0 1 0 /\ f = Z.mul ->
  at_code s p (x :: ws) ->
  exists s',
    step w s = Some s' /\
    regs s' PC = p + 4 /\ regs s' 0 = word (f (regs s 1) (regs s 0)) /\
    regs s' SP = regs s SP /\ mem s' = mem s.
Proof using All.
  intros Hd Hins Hat.
  rewrite (fetch _ _ _ _ _ Hat Hd).
  destruct Hat as (Hpc & Hlo & Hhi & _). simpl length in Hhi.
  unfold PC, SP in *.
  destruct Hins as [[-> ->] | [[-> ->] | [-> ->]]];
    unfold execute, operand, PC; decide_eqb; cbn [negb orb andb];
    (eexists; split; [reflexivity|]);
    unfold advance, set, PC; cbn [regs mem]; decide_eqb;
    rewrite Hpc, word_small by lia; repeat split.
Qed.

Lemma run_dereference s p x ws a :
  decode x = Some (Ildr true true false 0 0 0) ->
  at_code s p (x :: ws) ->
  regs s 0 = a -> 0 <= a < 2 ^ 32 -> aligned a = true ->
  exists s',
    step w s = Some s' /\
    regs s' PC = p + 4 /\ regs s' 0 = load32 (mem s) a /\
    regs s' SP = regs s SP /\ mem s' = mem s.
Proof using All.
  intros Hd Hat Ha Hrange Hal.
  rewrite (fetch _ _ _ _ _ Hat Hd).
  destruct Hat as (Hpc & Hlo & Hhi & _). simpl length in Hhi.
  unfold PC, SP in *.
  unfold execute, transfer_address, operand, PC. decide_eqb.
  rewrite Ha, Z.add_0_r, (word_small a), Hal by lia.
  cbn [negb orb andb]. eexists. split; [reflexivity|].
  unfold advance, set, PC. cbn [regs mem]. decide_eqb.
  rewrite Hpc, word_small by lia. repeat split.
Qed.

(** [blx r4] to a callable, and the callable's return. *)
Lemma run_call s p x ws sp a g :
  decode x = Some (Iblx 4) ->
  at_code s p (x :: ws) ->
  regs s 4 = a -> callables w a = Some g -> (arity g <= 4)%nat ->
  regs s SP = sp ->
  exists s',
    run w 2 s = Some s' /\
    regs s' PC = p + 4 /\ regs s' SP = sp /\
    regs s' 0 = word (body g (firstn (arity g) [regs s 0; regs s 1; regs s 2; regs s 3])) /\
    kept sp s s'.
Proof using All.
  intros Hd Hat Ha Hg Harity Hsp.
  unfold run. rewrite (fetch _ _ _ _ _ Hat Hd).
  destruct Hat as (Hpc & Hlo & Hhi & _). simpl length in Hhi.
  unfold PC, SP in *.
  unfold execute, PC, LR. decide_eqb.
  unfold step at 1. unfold set at 1, PC. cbn [regs mem]. decide_eqb.
  rewrite Ha, Hg. unfold call.
  replace (4 <? Z.of_nat (arity g)) with false by (symmetry; apply Z.ltb_ge; lia).
  eexists. split; [reflexivity|].
  unfold set, PC, LR, SP. cbn [regs mem]. decide_eqb. cbn [negb orb andb].
  rewrite Hpc, word_small, Hsp by lia.
  repeat split.
  intros b Hb. unfold kept. cbn [mem].
  destruct Hb as [Hb | Hb].
  - replace (stack_limit w <=? b) with false by (symmetry; apply Z.leb_gt; lia). reflexivity.
  - replace (b <? sp) with false by (symmetry; apply Z.ltb_ge; lia).
    rewrite andb_false_r. reflexivity.
Qed.

Lemma run_one s s' : step w s = Some s' -> run w 1 s = Some s'.
Proof. intros H. simpl. rewrite H. reflexivity. Qed.

Lemma at_code_after s s' p a b :
  at_code s p (a ++ b) ->
  regs s' PC = p + 4 * Z.of_nat (length a) -> kept top s s' ->
  at_code s' (p + 4 * Z.of_nat (length a)) b.
Proof using code_away.
  intros (Hpc & Hlo & Hhi & Hal & Hws) Hpc' Hkept.
  rewrite length_app, Nat2Z.inj_add in Hhi. apply aligned_spec in Hal.
  apply loaded_app in Hws as [_ Hb].
  repeat split; [exact Hpc' | lia | lia | apply aligned_spec; zdm |].
  eapply loaded_same; [|exact Hb]. intros x Hx. apply Hkept. lia.
Qed.

Lemma kept_top sp s s' : kept sp s s' -> sp <= top -> kept top s s'.
Proof. intros H Hsp a Ha. apply H. lia. Qed.

Lemma kept_same sp s s' : mem s' = mem s -> kept sp s s'.
Proof. intros H a _. rewrite H. reflexivity. Qed.

Lemma kept_then sp sp' s s1 s2 :
  kept sp s s1 -> kept sp' s1 s2 -> sp' <= sp -> kept sp s s2.
Proof. intros H1 H2 Hsp a Ha. rewrite H2, H1; [reflexivity | lia | lia]. Qed.

Lemma kept_push sp s s' v :
  mem s' = store32 (mem s) (sp - 4) v -> stack_limit w + 4 <= sp -> kept sp s s'.
Proof. intros H Hsp a Ha. rewrite H. apply store32_other. lia. Qed.

Variable directory : gmap string Z.
Variable m0 : Z -> Z.

(** Outside the free stack, memory is as it was on entry. *)
Let agrees (s : state) : Prop :=
  forall a, a < stack_limit w \/ top <= a -> mem s a = m0 a.

Lemma agrees_kept sp s s' : agrees s -> kept sp s s' -> sp <= top -> agrees s'.
Proof. intros H Hk Hsp a Ha. rewrite Hk, H; [reflexivity | lia | lia]. Qed.

(** The code of a tree, run from its first word, pushes the tree's value. *)
Let runs (t : Node) : Prop :=
  forall rest s p sp,
    at_code s p (words directory t ++ rest) ->
    on_stack s sp (stack_need t) ->
    agrees s ->
    exists k s',
      run w k s = Some s' /\
      regs s' PC = p + 4 * Z.of_nat (length (words directory t)) /\
      regs s' SP = sp - 4 /\
      load32 (mem s') (sp - 4) = value w directory m0 t /\
      kept sp s s'.

Lemma runs_constant text :
  readable (Some text) -> runs (mkNode Constant (Some text) []).
Proof using All.
  intros (text' & v & [= <-] & Hv) rest s p sp Hat Hstack Hagree.
  simpl words in *. simpl value. unfold constant_value. rewrite Hv in *.
  simpl stack_need in Hstack. simpl app in Hat.
  destruct (run_literal s p 0xe59f0000 0xea000000 (Cxx.to_uint32 v) (0xe52d0004 :: rest) 0
              ltac:(reflexivity) ltac:(reflexivity) ltac:(lia) Hat)
    as (s1 & Hrun1 & Hpc1 & Hr1 & Hregs1 & Hmem1).
  apply (at_code_after s s1 p [0xe59f0000; 0xea000000; Cxx.to_uint32 v]) in Hat;
    [|exact Hpc1 | apply kept_same; exact Hmem1].
  simpl length in Hat. change (4 * Z.of_nat 3) with 12 in Hat.
  assert (on_stack s1 sp 1) as Hstack1.
  { destruct Hstack as (Hsp & Hrest). split; [|exact Hrest].
    rewrite Hregs1; [exact Hsp | discriminate | discriminate]. }
  destruct (run_push s1 (p + 12) 0xe52d0004 rest sp 0
              ltac:(reflexivity) ltac:(lia) ltac:(lia) Hat Hstack1)
    as (s2 & Hrun2 & Hpc2 & Hsp2 & Hregs2 & Hmem2).
  exists 3%nat, s2. split; [|split; [|split; [|split]]].
  - apply (run_then w 2 1 s s1 s2 Hrun1). apply run_one. exact Hrun2.
  - rewrite Hpc2. simpl length. lia.
  - exact Hsp2.
  - rewrite Hmem2, load32_store32, Hr1. unfold word, Cxx.to_uint32. apply Z.mod_mod. lia.
  - destruct Hstack as (_ & _ & Hroom & _).
    eapply kept_then; [apply kept_same; exact Hmem1 | eapply kept_push; [exact Hmem2 | lia] | lia].
Qed.

Lemma runs_variable v a :
  directory !! v = Some a ->
  0 <= a < 2 ^ 32 -> aligned a = true -> outside_stack w top a ->
  runs (mkNode Variable_ (Some v) []).
Proof using All.
  intros Hv Ha Hal Hout rest s p sp Hat Hstack Hagree.
  simpl words in *. simpl value. unfold variable_value, address_of in *. rewrite Hv in *.
  simpl stack_need in Hstack. simpl app in Hat.
  destruct (run_literal s p 0xe59f0000 0xea000000 a (0xe5900000 :: 0xe52d0004 :: rest) 0
              ltac:(reflexivity) ltac:(reflexivity) ltac:(lia) Hat)
    as (s1 & Hrun1 & Hpc1 & Hr1 & Hregs1 & Hmem1).
  apply (at_code_after s s1 p [0xe59f0000; 0xea000000; a]) in Hat;
    [|exact Hpc1 | apply kept_same; exact Hmem1].
  simpl length in Hat. change (4 * Z.of_nat 3) with 12 in Hat.
  destruct (run_dereference s1 (p + 12) 0xe5900000 (0xe52d0004 :: rest) a
              ltac:(reflexivity) Hat Hr1 Ha Hal)
    as (s2 & Hrun2 & Hpc2 & Hr2 & Hsp2 & Hmem2).
  apply (at_code_next s1 s2) in Hat; [|exact Hpc2 | apply kept_same; exact Hmem2].
  assert (on_stack s2 sp 1) as Hstack2.
  { destruct Hstack as (Hsp & Hrest). split; [|exact Hrest].
    rewrite Hsp2, Hregs1; [exact Hsp | discriminate | discriminate]. }
  destruct (run_push s2 (p + 12 + 4) 0xe52d0004 rest sp 0
              ltac:(reflexivity) ltac:(lia) ltac:(lia) Hat Hstack2)
    as (s3 & Hrun3 & Hpc3 & Hsp3 & Hregs3 & Hmem3).
  exists 4%nat, s3. split; [|split; [|split; [|split]]].
  - apply (run_then w 2 2 s s1 s3 Hrun1).
    apply (run_then w 1 1 s1 s2 s3); apply run_one; assumption.
  - rewrite Hpc3. simpl length. lia.
  - exact Hsp3.
  - rewrite Hmem3, load32_store32, Hr2, Hmem1.
    rewrite word_small by apply load32_range.
    apply load32_same. intros x Hx. apply Hagree.
    destruct Hout as [Hout | Hout]; lia.
  - destruct Hstack as (_ & _ & Hroom & _).
    apply (kept_then sp sp s s1 s3); [apply kept_same; exact Hmem1 | | lia].
    apply (kept_then sp sp s1 s2 s3); [apply kept_same; exact Hmem2 | | lia].
    eapply kept_push; [exact Hmem3 | lia].
Qed.

Lemma stack_needs_nonneg need children : 0 <= stack_needs need children.
Proof. induction children; simpl; lia. Qed.

(** The children's code, run in order, leaves their values on the stack,
    the first child's highest. *)
Lemma run_arguments children :
  Forall runs children ->
  forall rest s p sp,
    at_code s p (flat_map (words directory) children ++ rest) ->
    on_stack s sp (stack_needs stack_need children) ->
    agrees s ->
    exists k s',
      run w k s = Some s' /\
      regs s' PC = p + 4 * Z.of_nat (length (flat_map (words directory) children)) /\
      regs s' SP = sp - 4 * Z.of_nat (length children) /\
      (forall i child, nth_error children i = Some child ->
         load32 (mem s') (sp - 4 * (Z.of_nat i + 1)) = value w directory m0 child) /\
      kept sp s s'.
Proof using All.
  induction 1 as [|child children Hchild _ IH]; intros rest s p sp Hat Hstack Hagree.
  - exists 0%nat, s. simpl. destruct Hstack as (Hsp & _). destruct Hat as (Hpc & _).
    split; [reflexivity|]. split; [lia|]. split; [lia|].
    split; [|intros a _; reflexivity].
    intros [|i] child H; discriminate.
  - simpl flat_map in *. rewrite <- app_assoc in Hat.
    destruct Hstack as (Hsp & Hal & Hroom & Htop).
    change (stack_needs stack_need (child :: children))
      with (Z.max (stack_need child) (1 + stack_needs stack_need children)) in Hroom.
    pose proof (stack_needs_nonneg stack_need children) as Hneeds.
    destruct (Hchild _ s p sp Hat) as (k1 & s1 & Hrun1 & Hpc1 & Hsp1 & Hv1 & Hk1);
      [repeat split; [exact Hsp | exact Hal | lia | exact Htop] | exact Hagree |].
    apply (at_code_after s s1) in Hat; [|exact Hpc1 | apply (kept_top sp); [exact Hk1 | exact Htop]].
    destruct (IH _ s1 _ (sp - 4) Hat) as (k2 & s2 & Hrun2 & Hpc2 & Hsp2 & Hv2 & Hk2).
    { repeat split; [exact Hsp1 | | lia | lia].
      apply aligned_spec. apply aligned_spec in Hal. zdm. }
    { eapply agrees_kept; [exact Hagree | exact Hk1 | exact Htop]. }
    exists (k1 + k2)%nat, s2. split; [|split; [|split; [|split]]].
    + eapply run_then; eassumption.
    + rewrite Hpc2, length_app. lia.
    + rewrite Hsp2. simpl length. lia.
    + intros [|i] c Hc; simpl in Hc.
      * injection Hc as <-. rewrite <- Hv1.
        replace (sp - 4 * (Z.of_nat 0 + 1)) with (sp - 4) by lia.
        apply load32_same. intros x Hx. apply Hk2. lia.
      * rewrite <- (Hv2 i c Hc). f_equal. lia.
    + eapply kept_then; [exact Hk1 | exact Hk2 | lia].
Qed.

Lemma runs_arithmetic op c l r x ins f :
  words directory (mkNode op c [l; r])
  = flat_map (words directory) [l; r] ++ [0xe8bd0003; x; 0xe52d0004] ->
  stack_need (mkNode op c [l; r]) = Z.max 1 (stack_needs stack_need [l; r]) ->
  value w directory m0 (mkNode op c [l; r])
  = word (f (value w directory m0 l) (value w directory m0 r)) ->
  decode x = Some ins ->
  ins = Iadd 0 1 0 /\ f = Z.add \/ ins = Isub 0 1 0 /\ f = Z.sub \/
  ins = Imul 0 1 0 /\ f = Z.mul ->
  runs l -> runs r -> runs (mkNode op c [l; r]).
Proof using All.
  intros Hwords Hneed Hvalue Hd Hins Hl Hr rest s p sp Hat Hstack Hagree.
  rewrite Hwords in *. rewrite Hneed in Hstack. rewrite Hvalue. clear Hwords Hneed Hvalue.
  rewrite <- app_assoc in Hat.
  destruct Hstack as (Hsp & Hal & Hroom & Htop).
  pose proof (stack_needs_nonneg stack_need [l; r]) as Hneeds.
  assert (2 <= stack_needs stack_need [l; r]) as Htwo.
  { simpl. pose proof (stack_needs_nonneg stack_need []). simpl in *. lia. }
  destruct (run_arguments [l; r] ltac:(repeat constructor; assumption) _ s p sp Hat)
    as (k1 & s1 & Hrun1 & Hpc1 & Hsp1 & Hv1 & Hk1);
    [repeat split; [exact Hsp | exact Hal | lia | exact Htop] | exact Hagree |].
  apply (at_code_after s s1) in Hat; [|exact Hpc1 | apply (kept_top sp); [exact Hk1 | exact Htop]].
  assert (load32 (mem s1) (sp - 8 + 4) = value w directory m0 l) as Hvl
    by (rewrite <- (Hv1 0%nat l eq_refl); f_equal; simpl; lia).
  assert (load32 (mem s1) (sp - 8) = value w directory m0 r) as Hvr
    by (rewrite <- (Hv1 1%nat r eq_refl); f_equal; simpl; lia).
  assert (regs s1 SP = sp - 8) as Hsp1' by (rewrite Hsp1; simpl; lia).
  clear Hsp1. rename Hsp1' into Hsp1.
  set (p1 := p + 4 * Z.of_nat (length (flat_map (words directory) [l; r]))) in *.
  simpl app in Hat.
  destruct (run_pop_pair s1 p1 0xe8bd0003 (x :: 0xe52d0004 :: rest) (sp - 8)
              ltac:(reflexivity) Hat Hsp1)
    as (s2 & Hrun2 & Hpc2 & Hsp2 & Hr0 & Hr1 & Hmem2);
    [apply aligned_spec; apply aligned_spec in Hal; zdm | lia | lia |].
  apply (at_code_next s1 s2) in Hat; [|exact Hpc2 | apply kept_same; exact Hmem2].
  destruct (run_operation s2 (p1 + 4) x (0xe52d0004 :: rest) ins f Hd Hins Hat)
    as (s3 & Hrun3 & Hpc3 & Hr3 & Hsp3 & Hmem3).
  apply (at_code_next s2 s3) in Hat; [|exact Hpc3 | apply kept_same; exact Hmem3].
  assert (on_stack s3 sp 1) as Hstack3.
  { repeat split; [rewrite Hsp3, Hsp2; lia | exact Hal | lia | exact Htop]. }
  destruct (run_push s3 (p1 + 4 + 4) 0xe52d0004 rest sp 0
              ltac:(reflexivity) ltac:(lia) ltac:(lia) Hat Hstack3)
    as (s4 & Hrun4 & Hpc4 & Hsp4 & Hregs4 & Hmem4).
  exists (k1 + 3)%nat, s4. split; [|split; [|split; [|split]]].
  - apply (run_then w k1 3 s s1 s4 Hrun1).
    apply (run_then w 1 2 s1 s2 s4); [apply run_one; exact Hrun2|].
    apply (run_then w 1 1 s2 s3 s4); apply run_one; assumption.
  - rewrite Hpc4. unfold p1. rewrite length_app. simpl length. lia.
  - exact Hsp4.
  - rewrite Hmem4, load32_store32, Hr3, Hr0, Hr1, Hvl, Hvr.
    unfold word. apply Z.mod_mod. lia.
  - apply (kept_then sp sp s s1 s4); [exact Hk1 | | lia].
    apply (kept_then sp sp s1 s2 s4); [apply kept_same; exact Hmem2 | | lia].
    apply (kept_then sp sp s2 s3 s4); [apply kept_same; exact Hmem3 | | lia].
    eapply kept_push; [exact Hmem4 | lia].
Qed.

Lemma decode_pop_word k :
  0 <= k <= 3 -> decode (pop_word k) = Some (Ildr false true false k 13 4).
Proof.
  intros H. assert (k = 0 \/ k = 1 \/ k = 2 \/ k = 3) as Hk by lia.
  destruct Hk as [-> | [-> | [-> | ->]]]; reflexivity.
Qed.

(** The pops of a call load the arguments into r0 .. r(n-1). *)
Lemma run_pops n :
  (n <= 4)%nat ->
  forall rest s p sp,
    at_code s p (pop_words n ++ rest) ->
    regs s SP = sp - 4 * Z.of_nat n -> aligned sp = true ->
    4 * Z.of_nat n <= sp -> sp <= top ->
    exists s',
      run w n s = Some s' /\
      regs s' PC = p + 4 * Z.of_nat n /\ regs s' SP = sp /\
      (forall k, (k < n)%nat ->
         regs s' (Z.of_nat k) = load32 (mem s) (sp - 4 * (Z.of_nat k + 1))) /\
      (forall q, q <> PC -> q <> SP -> Z.of_nat n <= q -> regs s' q = regs s q) /\
      mem s' = mem s.
Proof using All.
  induction n as [|n IH]; intros Hn rest s p sp Hat Hsp Hal Hpos Htop.
  - exists s. simpl. destruct Hat as (Hpc & _).
    repeat split; [lia | lia |]. intros k Hk. lia.
  - simpl pop_words in Hat. simpl app in Hat.
    destruct (run_pop s p (pop_word (Z.of_nat n)) (pop_words n ++ rest)
                (sp - 4 * Z.of_nat (S n)) (Z.of_nat n)
                ltac:(apply decode_pop_word; lia) ltac:(lia) ltac:(lia) Hat Hsp)
      as (s1 & Hrun1 & Hpc1 & Hsp1 & Hr1 & Hregs1 & Hmem1);
      [apply aligned_spec; apply aligned_spec in Hal; zdm | lia | lia |].
    apply (at_code_next s s1) in Hat; [|exact Hpc1 | apply kept_same; exact Hmem1].
    destruct (IH ltac:(lia) rest s1 (p + 4) sp Hat)
      as (s2 & Hrun2 & Hpc2 & Hsp2 & Hr2 & Hregs2 & Hmem2);
      [lia | exact Hal | lia | exact Htop |].
    exists s2. split; [|split; [|split; [|split; [|split]]]].
    + change (S n) with (1 + n)%nat.
      apply (run_then w 1 n s s1 s2); [apply run_one; exact Hrun1 | exact Hrun2].
    + lia.
    + exact Hsp2.
    + intros k Hk. destruct (Nat.eq_dec k n) as [-> | Hne].
      * rewrite Hregs2 by (unfold PC, SP; lia). rewrite Hr1. f_equal. lia.
      * rewrite Hr2 by lia. rewrite Hmem1. reflexivity.
    + intros q H1 H2 H3. rewrite Hregs2, Hregs1 by lia. reflexivity.
    + rewrite Hmem2. exact Hmem1.
Qed.

Lemma stack_needs_length need children :
  Z.of_nat (length children) <= stack_needs need children.
Proof. induction children; simpl length; simpl stack_needs; lia. Qed.

Lemma call_arguments args (r : Z -> Z) :
  (1 <= length args <= 4)%nat ->
  (forall k child, nth_error args k = Some child ->
     r (Z.of_nat k) = value w directory m0 child) ->
  firstn (length args) [r 0; r 1; r 2; r 3] = map (value w directory m0) args.
Proof.
  intros Hn H.
  destruct args as [|a0 [|a1 [|a2 [|a3 [|a4 args]]]]]; simpl in Hn; try lia; simpl.
  - rewrite <- (H 0%nat a0 eq_refl). reflexivity.
  - rewrite <- (H 0%nat a0 eq_refl), <- (H 1%nat a1 eq_refl). reflexivity.
  - rewrite <- (H 0%nat a0 eq_refl), <- (H 1%nat a1 eq_refl), <- (H 2%nat a2 eq_refl).
    reflexivity.
  - rewrite <- (H 0%nat a0 eq_refl), <- (H 1%nat a1 eq_refl), <- (H 2%nat a2 eq_refl),
      <- (H 3%nat a3 eq_refl).
    reflexivity.
Qed.

Lemma runs_function f a g args :
  directory !! f = Some a ->
  0 <= a < 2 ^ 32 ->
  callables w a = Some g ->
  arity g = length args ->
  (1 <= length args <= 4)%nat ->
  Forall runs args ->
  runs (mkNode Function (Some f) args).
Proof using All.
  intros Hf Ha Hg Harity Hn Hargs rest s p sp Hat Hstack Hagree.
  assert (words directory (mkNode Function (Some f) args)
          = flat_map (words directory) args ++ pop_words (length args) ++
            [0xe59f4000; 0xea000000; a; 0xe12fff34; 0xe52d0004]) as Hwords
    by (simpl; unfold address_of; rewrite Hf; reflexivity).
  assert (value w directory m0 (mkNode Function (Some f) args)
          = word (body g (map (value w directory m0) args))) as Hvalue
    by (simpl; rewrite Hf, Hg; reflexivity).
  change (stack_need (mkNode Function (Some f) args))
    with (Z.max 1 (stack_needs stack_need args)) in Hstack.
  rewrite Hwords in *. rewrite Hvalue. clear Hwords Hvalue.
  rewrite <- !app_assoc in Hat.
  destruct Hstack as (Hsp & Hal & Hroom & Htop).
  pose proof (stack_needs_length stack_need args) as Hlen.
  set (n := length args) in *.
  destruct (run_arguments args Hargs _ s p sp Hat)
    as (k1 & s1 & Hrun1 & Hpc1 & Hsp1 & Hv1 & Hk1);
    [repeat split; [exact Hsp | exact Hal | lia | exact Htop] | exact Hagree |].
  apply (at_code_after s s1) in Hat; [|exact Hpc1 | apply (kept_top sp); [exact Hk1 | exact Htop]].
  set (p1 := p + 4 * Z.of_nat (length (flat_map (words directory) args))) in *.
  destruct (run_pops n ltac:(lia) _ s1 p1 sp Hat Hsp1 Hal ltac:(lia) Htop)
    as (s2 & Hrun2 & Hpc2 & Hsp2 & Hr2 & _ & Hmem2).
  apply (at_code_after s1 s2) in Hat.
  2:{ rewrite Hpc2. f_equal. f_equal. f_equal. clear. induction n; simpl; congruence. }
  2:{ apply kept_same. exact Hmem2. }
  replace (length (pop_words n)) with n in Hat by (clear; induction n; simpl; congruence).
  simpl app in Hat.
  destruct (run_literal s2 (p1 + 4 * Z.of_nat n) 0xe59f4000 0xea000000 a
              (0xe12fff34 :: 0xe52d0004 :: rest) 4
              ltac:(reflexivity) ltac:(reflexivity) ltac:(lia) Hat)
    as (s3 & Hrun3 & Hpc3 & Hr3 & Hregs3 & Hmem3).
  apply (at_code_after s2 s3 _ [0xe59f4000; 0xea000000; a]) in Hat;
    [|exact Hpc3 | apply kept_same; exact Hmem3].
  simpl length in Hat. change (4 * Z.of_nat 3) with 12 in Hat.
  assert (regs s3 SP = sp) as Hsp3 by (rewrite Hregs3; [exact Hsp2 | discriminate | discriminate]).
  destruct (run_call s3 _ 0xe12fff34 (0xe52d0004 :: rest) sp a g
              ltac:(reflexivity) Hat Hr3 Hg ltac:(lia) Hsp3)
    as (s4 & Hrun4 & Hpc4 & Hsp4 & Hr4 & Hk4).
  apply (at_code_next s3 s4) in Hat; [|exact Hpc4 | apply (kept_top sp); [exact Hk4 | exact Htop]].
  assert (on_stack s4 sp 1) as Hstack4
    by (repeat split; [exact Hsp4 | exact Hal | lia | exact Htop]).
  destruct (run_push s4 _ 0xe52d0004 rest sp 0
              ltac:(reflexivity) ltac:(lia) ltac:(lia) Hat Hstack4)
    as (s5 & Hrun5 & Hpc5 & Hsp5 & Hregs5 & Hmem5).
  exists (k1 + (n + (2 + (2 + 1))))%nat, s5. split; [|split; [|split; [|split]]].
  - apply (run_then w _ _ s s1 s5 Hrun1).
    apply (run_then w _ _ s1 s2 s5 Hrun2).
    apply (run_then w _ _ s2 s3 s5 Hrun3).
    apply (run_then w _ _ s3 s4 s5 Hrun4).
    apply run_one. exact Hrun5.
  - rewrite Hpc5. unfold p1. rewrite !length_app. simpl length.
    replace (length (pop_words n)) with n by (clear; induction n; simpl; congruence).
    lia.
  - exact Hsp5.
  - rewrite Hmem5, load32_store32, Hr4, Harity.
    rewrite !Hregs3 by discriminate.
    unfold n in *.
    rewrite (call_arguments args (regs s2) Hn).
    + unfold word. apply Z.mod_mod. lia.
    + intros k child Hk. rewrite Hr2.
      * rewrite <- (Hv1 k child Hk). reflexivity.
      * apply nth_error_Some. rewrite Hk. discriminate.
  - apply (kept_then sp sp s s1 s5); [exact Hk1 | | lia].
    apply (kept_then sp sp s1 s2 s5); [apply kept_same; exact Hmem2 | | lia].
    apply (kept_then sp sp s2 s3 s5); [apply kept_same; exact Hmem3 | | lia].
    apply (kept_then sp sp s3 s4 s5); [exact Hk4 | | lia].
    eapply kept_push; [exact Hmem5 | lia].
Qed.

(** The code of every evaluable tree pushes the tree's value. *)
Lemma evaluable_runs node : evaluable w directory top node -> runs node.
Proof using All.
  induction node as [t c children IH] using Node_ind.
  intros He.
  inversion He as [text Hr | v a Hv Ha Hal Hout | op c' l r Hop Hl Hr
                  | f a g args Hf Ha Hg Harity Hn Hargs]; subst.
  - apply runs_constant. exact Hr.
  - eapply runs_variable; eassumption.
  - apply Forall_cons in IH as [IHl IH]. apply Forall_cons in IH as [IHr _].
    destruct Hop as [-> | [-> | ->]].
    + apply (runs_arithmetic Plus c l r 0xe0810000 (Iadd 0 1 0) Z.add); auto.
    + apply (runs_arithmetic Minus c l r 0xe0410000 (Isub 0 1 0) Z.sub); auto.
    + apply (runs_arithmetic Product c l r 0xe0000091 (Imul 0 1 0) Z.mul); auto 6.
  - eapply runs_function; try eassumption.
    rewrite List.Forall_forall in IH, Hargs. apply List.Forall_forall.
    intros x Hx. apply IH; auto.
Qed.

(** Prologue, the tree's code, epilogue: the machine returns the value. *)
Lemma run_program T s :
  evaluable w directory top T ->
  at_code s base
    (0xe52de004 :: 0xe52d4004 :: words directory T ++ [0xe49d0004; 0xe8bd8010]) ->
  regs s SP = top ->
  stack_limit w + 4 * (stack_need T + 2) <= top ->
  mem s = m0 ->
  exists k s',
    run w k s = Some s' /\
    regs s' PC = word (regs s LR) /\
    regs s' 0 = value w directory m0 T /\
    regs s' SP = top /\
    regs s' 4 = word (regs s 4).
Proof using All.
  intros He Hat Hsp Hroom Hm0.
  assert (1 <= stack_need T) as Hneed.
  { destruct T as [[] c children]; simpl; lia. }
  destruct (run_push s base 0xe52de004 _ top 14 ltac:(reflexivity) ltac:(lia) ltac:(lia) Hat)
    as (s1 & Hrun1 & Hpc1 & Hsp1 & Hregs1 & Hmem1);
    [repeat split; [exact Hsp | exact top_aligned | lia | lia] |].
  apply (at_code_next s s1) in Hat;
    [|exact Hpc1 | apply (kept_top top); [eapply kept_push; [exact Hmem1 | lia] | lia]].
  destruct (run_push s1 (base + 4) 0xe52d4004 _ (top - 4) 4
              ltac:(reflexivity) ltac:(lia) ltac:(lia) Hat)
    as (s2 & Hrun2 & Hpc2 & Hsp2 & Hregs2 & Hmem2).
  { repeat split; [exact Hsp1 | | lia | lia].
    apply aligned_spec. pose proof (proj1 (aligned_spec top) top_aligned). zdm. }
  assert (kept top s1 s2) as Hk2.
  { intros a Ha. rewrite Hmem2. apply store32_other. lia. }
  apply (at_code_next s1 s2) in Hat; [|exact Hpc2 | exact Hk2].
  replace (top - 4 - 4) with (top - 8) in * by lia.
  destruct (evaluable_runs T He [0xe49d0004; 0xe8bd8010] s2 (base + 4 + 4) (top - 8) Hat)
    as (k3 & s3 & Hrun3 & Hpc3 & Hsp3 & Hv3 & Hk3).
  { repeat split; [exact Hsp2 | | lia | lia].
    apply aligned_spec. pose proof (proj1 (aligned_spec top) top_aligned). zdm. }
  { intros a Ha. rewrite Hmem2, store32_other, Hmem1, store32_other, Hm0 by lia. reflexivity. }
  apply (at_code_after s2 s3) in Hat; [|exact Hpc3 | apply (kept_top (top - 8)); [exact Hk3 | lia]].
  set (p3 := base + 4 + 4 + 4 * Z.of_nat (length (words directory T))) in *.
  replace (top - 8 - 4) with (top - 12) in * by lia.
  destruct (run_pop s3 p3 0xe49d0004 [0xe8bd8010] (top - 12) 0
              ltac:(reflexivity) ltac:(lia) ltac:(lia) Hat Hsp3)
    as (s4 & Hrun4 & Hpc4 & Hsp4 & Hr4 & Hregs4 & Hmem4);
    [apply aligned_spec; pose proof (proj1 (aligned_spec top) top_aligned); zdm | lia | lia |].
  apply (at_code_next s3 s4) in Hat; [|exact Hpc4 | apply kept_same; exact Hmem4].
  replace (top - 12 + 4) with (top - 8) in * by lia.
  destruct (run_return s4 (p3 + 4) 0xe8bd8010 (top - 8) ltac:(reflexivity) Hat Hsp4)
    as (s5 & Hrun5 & Hpc5 & Hsp5 & Hr5 & Hr05);
    [apply aligned_spec; pose proof (proj1 (aligned_spec top) top_aligned); zdm | lia | lia |].
  exists (1 + (1 + (k3 + (1 + 1))))%nat, s5. split; [|split; [|split; [|split]]].
  - apply (run_then w _ _ s s1 s5 (run_one _ _ Hrun1)).
    apply (run_then w _ _ s1 s2 s5 (run_one _ _ Hrun2)).
    apply (run_then w _ _ s2 s3 s5 Hrun3).
    apply (run_then w _ _ s3 s4 s5 (run_one _ _ Hrun4)).
    apply run_one. exact Hrun5.
  - rewrite Hpc5, Hmem4.
    rewrite (load32_same (mem s2) (mem s3)) by (intros x Hx; apply Hk3; lia).
    rewrite (load32_same (mem s1) (mem s2))
      by (intros x Hx; rewrite Hmem2; apply store32_other; lia).
    replace (top - 8 + 4) with (top - 4) by lia.
    rewrite Hmem1. apply load32_store32.
  - rewrite Hr05, Hr4. exact Hv3.
  - rewrite Hsp5. lia.
  - rewrite Hr5, Hmem4.
    rewrite (load32_same (mem s2) (mem s3)) by (intros x Hx; apply Hk3; lia).
    rewrite Hmem2, load32_store32. f_equal. apply Hregs1; discriminate.
Qed.

End Execution.

(** ** The emitted code returns the value of the tree *)

Lemma jit_compile_evaluable w directory top T :
  evaluable w directory top T ->
  jit_compile_tree_to_arm directory T
  = Ok (0xe52de004 :: 0xe52d4004 :: words directory T ++ [0xe49d0004; 0xe8bd8010]).
Proof.
  intros He. unfold jit_compile_tree_to_arm, compile.
  rewrite (compile__table directory T (evaluable_ast w directory top T He)).
  cbn [bind]. unfold add_footer, add_header. cbn [app].
  rewrite !GetCompiledBinary_cons, GetCompiledBinary_app.
  rewrite (translate_table w directory top T He). reflexivity.
Qed.

(** C1: for every tree in which every constant fits in 32 bits, every
    call has one to four arguments and every name is bound, the emitter
    produces a word stream, and a machine that runs it as A32 code
    (little-endian, variables read at their bound addresses, functions
    called per AAPCS) comes, after finitely many steps, to the return
    address with r0 holding the value of the tree under wrap-around
    32-bit arithmetic; sp and r4 are as on entry. *)
Theorem emitted_code_returns_the_value :
  forall (w : A32.world) (directory : gmap string Z) (T : Node) (s : A32.state),
    evaluable w directory (A32.regs s A32.SP) T ->
    (exists ws, jit_compile_tree_to_arm directory T = Ok ws) /\
    (forall ws,
        jit_compile_tree_to_arm directory T = Ok ws ->
        A32.loaded (A32.mem s) (A32.regs s A32.PC) ws ->
        ready w s (Z.of_nat (length ws)) (stack_need T) ->
        exists steps s',
          A32.run w steps s = Some s' /\
          A32.regs s' A32.PC = A32.word (A32.regs s A32.LR) /\
          A32.regs s' 0 = value w directory (A32.mem s) T /\
          A32.regs s' A32.SP = A32.regs s A32.SP /\
          A32.regs s' 4 = A32.word (A32.regs s 4)).
Proof.
  intros w directory T s He.
  pose proof (jit_compile_evaluable w directory _ T He) as Hjit.
  split; [eexists; exact Hjit|].
  intros ws Hws Hloaded (Hpc & Hpc0 & Hpc1 & Hsp & Hsp1 & Hlimit & Hroom & Haway & Hcalls).
  rewrite Hjit in Hws. injection Hws as <-.
  apply (run_program w (A32.regs s A32.PC) _ (A32.regs s A32.SP)
           Hpc (conj Hpc0 Hpc1) Hsp Hsp1 Hlimit Haway Hcalls directory (A32.mem s) T s He);
    [|reflexivity | exact Hroom | reflexivity].
  split; [reflexivity|]. split; [lia|]. split; [lia|]. split; [exact Hpc | exact Hloaded].
Qed.

(** The end-to-end scenarios of the specification, on the model of the
    machine (the trees are those the parser gives for the texts). *)
Example returned_2_plus_3 :
  returned (binary Plus (constant "0x2") (constant "0x3")) = Some 5.
Proof. vm_compute. reflexivity. Qed.

Example returned_2_times_3_plus_4 :
  returned (binary Plus (binary Product (constant "0x2") (constant "0x3")) (constant "0x4"))
  = Some 10.
Proof. vm_compute. reflexivity. Qed.

Example returned_2_plus_3_in_parentheses_times_4 :
  returned (binary Product (binary Plus (constant "0x2") (constant "0x3")) (constant "0x4"))
  = Some 20.
Proof. vm_compute. reflexivity. Qed.

Example returned_minus_10_plus_3 :
  returned (binary Plus (binary Minus (constant "0x0") (constant "0xa")) (constant "0x3"))
  = Some (2 ^ 32 - 7).
Proof. vm_compute. reflexivity. Qed.

Example returned_x_times_2 :
  returned (binary Product (variable "x") (constant "0x2")) = Some 42.
Proof. vm_compute. reflexivity. Qed.

Example returned_add_of_mul :
  returned (call "add" [call "mul" [constant "0x2"; constant "0x3"]; constant "0x4"])
  = Some 10.
Proof. vm_compute. reflexivity. Qed.

(** [x - add(2, 3 * 4)] with [x = 21]: 7, returned to 0x4444 after 30
    steps with sp as on entry. *)
Example demo_tree_value :
  value demo_world demo_map (A32.mem demo_state) demo_tree = 7.
Proof. vm_compute. reflexivity. Qed.

Example demo_run_30_steps :
  option_map (fun s => (A32.regs s 0, A32.regs s A32.SP, A32.regs s A32.PC))
             (A32.run demo_world 30 demo_state)
  = Some (7, 0x8000, 0x4444).
Proof. vm_compute. reflexivity. Qed.

Lemma demo_tree_returns_its_value :
  exists steps s',
    A32.run demo_world steps demo_state = Some s' /\
    A32.regs s' A32.PC = A32.word (A32.regs demo_state A32.LR) /\
    A32.regs s' 0 = value demo_world demo_map (A32.mem demo_state) demo_tree /\
    A32.regs s' A32.SP = A32.regs demo_state A32.SP /\
    A32.regs s' 4 = A32.word (A32.regs demo_state 4).
Proof.
  refine (proj2 (emitted_code_returns_the_value demo_world demo_map demo_tree demo_state _)
                demo_code _ _ _).
  - apply evaluable_arithmetic; [auto | |].
    + eapply evaluable_variable; [reflexivity | vm_compute; split; [discriminate | reflexivity]
                                 | reflexivity | right; vm_compute; discriminate].
    + eapply (evaluable_function _ _ _ "add" 0x9000);
        [reflexivity | vm_compute; split; [discriminate | reflexivity] | reflexivity
        | reflexivity | simpl; lia |].
      apply List.Forall_cons; [apply evaluable_constant; eexists _, _; split; reflexivity|].
      apply List.Forall_cons; [|apply List.Forall_nil].
      apply evaluable_arithmetic; [auto | |];
        apply evaluable_constant; eexists _, _; split; reflexivity.
  - vm_compute. reflexivity.
  - vm_compute. repeat split.
  - unfold ready. change (A32.regs demo_state A32.PC) with 0x10000.
    change (A32.regs demo_state A32.SP) with 0x8000.
    change (A32.stack_limit demo_world) with 0x7000.
    repeat split; try (vm_compute; first [reflexivity | discriminate]).
    + right. vm_compute. discriminate.
    + intros a Ha. unfold demo_world, A32.callables.
      destruct (Z.eqb_spec a 0x9000) as [-> | _];
        [vm_compute in Ha; destruct Ha as [Ha _]; destruct (Ha eq_refl)|].
      destruct (Z.eqb_spec a 0x9100) as [-> | _]; [|reflexivity].
      vm_compute in Ha. destruct Ha as [Ha _]. destruct (Ha eq_refl).
Defined.
(** * The parser *)

(** ** Characters and ranges *)

Section Characters.

Lemma get_chars (e : string) (i : nat) :
  get i e = nth_error (list_ascii_of_string e) i.
Proof.
  revert i. induction e as [|c e IH]; intros [|i]; simpl; auto.
Qed.

Lemma length_chars (e : string) :
  length (list_ascii_of_string e) = String.length e.
Proof. induction e; simpl; congruence. Qed.

Lemma char_at_inside (e : string) (i : nat) :
  (i < String.length e)%nat ->
  exists c, nth_error (list_ascii_of_string e) i = Some c /\ char_at e i = Ok c.
Proof.
  intros Hi. unfold char_at. rewrite get_chars.
  destruct (nth_error (list_ascii_of_string e) i) as [c|] eqn:Hc.
  - exists c. split; reflexivity.
  - apply nth_error_None in Hc. rewrite length_chars in Hc. lia.
Qed.

Lemma char_at_end (e : string) : char_at e (String.length e) = Ok zero.
Proof.
  unfold char_at. rewrite get_chars.
  destruct (nth_error (list_ascii_of_string e) (String.length e)) as [c|] eqn:Hc.
  - assert (String.length e < length (list_ascii_of_string e))%nat as H
        by (apply nth_error_Some; congruence).
    rewrite length_chars in H. lia.
  - rewrite Nat.eqb_refl. reflexivity.
Qed.

Lemma char_at_beyond (e : string) (i : nat) :
  (String.length e < i)%nat -> char_at e i = Error Undefined.
Proof.
  intros Hi. unfold char_at. rewrite get_chars.
  destruct (nth_error (list_ascii_of_string e) i) as [c|] eqn:Hc.
  - assert (i < length (list_ascii_of_string e))%nat as H
        by (apply nth_error_Some; congruence).
    rewrite length_chars in H. lia.
  - destruct (Nat.eqb_spec i (String.length e)); [lia | reflexivity].
Qed.

Lemma char_at_Ok (e : string) (i : nat) (c : ascii) :
  char_at e i = Ok c -> (i <= String.length e)%nat.
Proof.
  intros H. destruct (Nat.le_gt_cases i (String.length e)) as [|Hgt]; [assumption|].
  rewrite (char_at_beyond e i Hgt) in H. discriminate.
Qed.

Lemma char_at_cases (e : string) (i : nat) :
  ((i < String.length e)%nat /\
   exists c, nth_error (list_ascii_of_string e) i = Some c /\ char_at e i = Ok c) \/
  (i = String.length e /\ char_at e i = Ok zero) \/
  ((String.length e < i)%nat /\ char_at e i = Error Undefined).
Proof.
  destruct (Nat.lt_trichotomy i (String.length e)) as [H | [H | H]].
  - left. split; [exact H | apply char_at_inside; exact H].
  - right. left. subst. split; [reflexivity | apply char_at_end].
  - right. right. split; [exact H | apply char_at_beyond; exact H].
Qed.

Lemma chars_substring (e : string) (n m : nat) :
  list_ascii_of_string (substring n m e) = firstn m (skipn n (list_ascii_of_string e)).
Proof.
  revert n m. induction e as [|c e IH]; intros [|n] [|m]; simpl; try reflexivity.
  - rewrite (IH 0%nat m). reflexivity.
  - rewrite (IH n 0%nat). reflexivity.
  - rewrite (IH n (S m)). reflexivity.
Qed.

Lemma chars_append (a b : string) :
  list_ascii_of_string (a +:+ b) = list_ascii_of_string a ++ list_ascii_of_string b.
Proof.
  induction a as [|c a IH]; [reflexivity|].
  change (String c a +:+ b) with (String c (a +:+ b)). simpl. rewrite IH. reflexivity.
Qed.

Lemma chars_inj (a b : string) :
  list_ascii_of_string a = list_ascii_of_string b -> a = b.
Proof.
  intros H. rewrite <- (string_of_list_ascii_of_string a), H.
  apply string_of_list_ascii_of_string.
Qed.

End Characters.

(** ** Spaces *)

Lemma for_each_char_push (keep : ascii -> bool) (s acc : string) :
  list_ascii_of_string
    (for_each_char (fun out c => if keep c then out +:+ String c "" else out) s acc)
  = list_ascii_of_string acc ++ List.filter keep (list_ascii_of_string s).
Proof.
  revert acc. induction s as [|c s IH]; intros acc; simpl.
  - rewrite app_nil_r. reflexivity.
  - rewrite IH. destruct (keep c); [|reflexivity].
    rewrite chars_append. simpl. rewrite <- app_assoc. reflexivity.
Qed.

(** X1: [GetRidOfSpaces] leaves the characters of the text that are not
    a space, in their order, and nothing else. *)
Theorem GetRidOfSpaces_keeps_the_other_characters :
  forall expression_ : string,
    list_ascii_of_string (GetRidOfSpaces expression_)
    = List.filter (fun c => negb (c =? " ")%char) (list_ascii_of_string expression_).
Proof.
  intros e. unfold GetRidOfSpaces.
  rewrite (for_each_char_push (fun c => negb (c =? " ")%char)). reflexivity.
Qed.

(** ** Balance of parentheses *)

Section Balance.

Lemma balance_nil : balance [] = 0.
Proof. reflexivity. Qed.

Lemma balance_cons (c : ascii) (l : list ascii) :
  balance (c :: l) = delta c + balance l.
Proof.
  unfold balance, delta. simpl.
  destruct (ascii_dec c "(") as [->|H1]; [simpl; lia|].
  destruct (ascii_dec c ")") as [->|H2]; [simpl; lia|].
  apply Ascii.eqb_neq in H1, H2. rewrite H1, H2. lia.
Qed.

Lemma balance_app (l1 l2 : list ascii) :
  balance (l1 ++ l2) = balance l1 + balance l2.
Proof.
  induction l1 as [|c l1 IH]; simpl; [reflexivity|].
  rewrite !balance_cons, IH. lia.
Qed.

Lemma balance_step_delta (b : Z) (correct : bool) (c : ascii) :
  balance_step (b, correct) c = (b + delta c, if b <? 0 then false else correct).
Proof.
  unfold balance_step, delta.
  destruct (c =? "(")%char; [reflexivity|].
  destruct (c =? ")")%char; [reflexivity|]. f_equal. lia.
Qed.

Lemma fold_balance_step (l : list ascii) (b : Z) (correct : bool) :
  fst (fold_left balance_step l (b, correct)) = b + balance l /\
  (snd (fold_left balance_step l (b, correct)) = true <->
   correct = true /\ forall k, (k < length l)%nat -> 0 <= b + balance (firstn k l)).
Proof.
  revert b correct. induction l as [|c l IH]; intros b correct.
  - simpl. rewrite balance_nil. split; [lia|]. split; [|tauto].
    intros ->. split; [reflexivity|]. intros k Hk. simpl in Hk. lia.
  - cbn [fold_left]. rewrite balance_step_delta.
    destruct (IH (b + delta c) (if b <? 0 then false else correct)) as [IH1 IH2].
    rewrite IH1, IH2, balance_cons. split; [lia|]. split.
    + intros [Hc Hk]. destruct (Z.ltb_spec b 0) as [Hb|Hb]; [discriminate|].
      split; [exact Hc|]. intros [|k] Hlt.
      * simpl. rewrite balance_nil. lia.
      * cbn [firstn]. rewrite balance_cons. simpl in Hlt.
        specialize (Hk k ltac:(lia)). lia.
    + intros [-> Hk]. pose proof (Hk 0%nat ltac:(simpl; lia)) as H0.
      simpl in H0. rewrite balance_nil in H0.
      destruct (Z.ltb_spec b 0) as [Hb|Hb]; [lia|]. split; [reflexivity|].
      intros k Hlt. specialize (Hk (S k) ltac:(simpl; lia)).
      cbn [firstn] in Hk. rewrite balance_cons in Hk. lia.
Qed.

Lemma for_each_from_inside {State} (e : string) (f : State -> ascii -> State)
    (count it : nat) (state : State) :
  (it + count <= String.length e)%nat ->
  for_each_from e f count it state
  = Ok (fold_left f (firstn count (skipn it (list_ascii_of_string e))) state).
Proof.
  revert it state. induction count as [|count IH]; intros it state Hle.
  - reflexivity.
  - cbn [for_each_from].
    destruct (char_at_inside e it ltac:(lia)) as (c & Hn & ->). cbn [bind].
    rewrite (IH (S it) (f state c) ltac:(lia)).
    assert (skipn it (list_ascii_of_string e) = c :: skipn (S it) (list_ascii_of_string e)) as ->.
    { clear - Hn. revert Hn. generalize (list_ascii_of_string e) as l.
      induction it as [|it IHit]; intros [|a l] Hn; simpl in Hn; try discriminate.
      - injection Hn as ->. reflexivity.
      - apply (IHit l Hn). }
    reflexivity.
Qed.

Lemma for_each_range_inside {State} (e : string) (f : State -> ascii -> State)
    (left right : nat) (state : State) :
  (left <= right <= String.length e)%nat ->
  for_each_range e f left right state = Ok (fold_left f (range_chars e left right) state).
Proof.
  intros [Hl Hr]. unfold for_each_range, range_chars.
  destruct (Nat.ltb_spec right left); [lia|].
  rewrite for_each_from_inside by lia. rewrite chars_substring. reflexivity.
Qed.

Lemma for_each_range_Ok {State} (e : string) (f : State -> ascii -> State)
    (left right : nat) (state r : State) :
  for_each_range e f left right state = Ok r -> (left <= right)%nat.
Proof.
  unfold for_each_range. destruct (Nat.ltb_spec right left); [discriminate | lia].
Qed.

Lemma length_range_chars (e : string) (left right : nat) :
  (left <= right <= String.length e)%nat ->
  length (range_chars e left right) = (right - left)%nat.
Proof.
  intros H. unfold range_chars. rewrite chars_substring, length_firstn, length_skipn, length_chars.
  lia.
Qed.

End Balance.

(** X2: on a range of the text, [IsParBalance] answers that no proper
    prefix of the range closes more parentheses than it opens; the whole
    range is not looked at, so a range may end on one closing parenthesis
    too many, or leave some open. *)
Theorem IsParBalance_looks_at_proper_prefixes :
  forall (expression_ : string) (left right : nat),
    (left <= right <= String.length expression_)%nat ->
    exists correct,
      IsParBalance expression_ left right = Ok correct /\
      (correct = true <->
       forall k, (k < right - left)%nat ->
                 0 <= balance (firstn k (range_chars expression_ left right))).
Proof.
  intros e left right H. unfold IsParBalance.
  rewrite (for_each_range_inside e balance_step left right (0, true) H). cbn [bind].
  eexists. split; [reflexivity|].
  destruct (fold_balance_step (range_chars e left right) 0 true) as [_ ->].
  rewrite (length_range_chars e left right H). split.
  - intros [_ Hk] k Hlt. specialize (Hk k Hlt). lia.
  - intros Hk. split; [reflexivity|]. intros k Hlt. specialize (Hk k Hlt). lia.
Qed.

Lemma IsParBalance_accepts_a_closing_parenthesis_too_many :
  exists correct,
    IsParBalance "(a))" 0 4 = Ok correct /\
    (correct = true <->
     forall k, (k < 4 - 0)%nat -> 0 <= balance (firstn k (range_chars "(a))" 0 4))).
Proof.
  apply (IsParBalance_looks_at_proper_prefixes "(a))" 0 4). simpl. lia.
Defined.

(** ** The search for the operation that splits a range *)

Section Search.

Variable e : string.

Lemma skip_operators_from (fuel i j : nat) :
  skip_operators e fuel i = Ok j -> (i <= j)%nat.
Proof.
  revert i. induction fuel as [|fuel IH]; intros i; cbn [skip_operators]; [discriminate|].
  destruct (char_at e i) as [c|]; cbn [bind]; [|discriminate].
  destruct ((c =? "*")%char || (c =? "-")%char || (c =? "+")%char).
  - intros H. apply IH in H. lia.
  - intros [= <-]. lia.
Qed.

Lemma GetTypeFromChar_operation (c : ascii) :
  is_Default (GetTypeFromChar c) = false ->
  GetTypeFromChar c = Plus \/ GetTypeFromChar c = Minus \/ GetTypeFromChar c = Product.
Proof.
  unfold GetTypeFromChar.
  destruct (c =? "+")%char; [auto|]. destruct (c =? "-")%char; [auto|].
  destruct (c =? "*")%char; [auto|]. discriminate.
Qed.

Lemma GetTypeFromChar_zero : GetTypeFromChar zero = Default.
Proof. reflexivity. Qed.

Lemma char_at_operation (i : nat) (c : ascii) :
  char_at e i = Ok c -> is_Default (GetTypeFromChar c) = false ->
  operation_at e i (GetTypeFromChar c).
Proof.
  intros Hc Hop. destruct (char_at_cases e i) as [(_ & c' & Hn & Hc') | [[_ Hz] | [_ He]]].
  - rewrite Hc in Hc'. injection Hc' as <-. exists c. split; [exact Hn|]. split; [reflexivity|].
    apply GetTypeFromChar_operation, Hop.
  - rewrite Hc in Hz. injection Hz as ->. discriminate.
  - rewrite Hc in He. discriminate.
Qed.

(** Once past [right], the loop never comes to its end. *)
Lemma find_operation_past (right fuel i : nat) type pos bal r :
  (right < i)%nat -> find_operation e right fuel i type pos bal <> Ok r.
Proof.
  revert i type pos bal. induction fuel as [|fuel IH]; intros i type pos bal Hi;
    cbn [find_operation]; destruct (Nat.eqb_spec i right); try lia; [discriminate|].
  destruct (char_at e i) as [c|]; cbn [bind]; [|discriminate].
  set (bal1 := if (c =? "(")%char then bal + 1 else bal).
  set (bal2 := if (c =? ")")%char then bal1 - 1 else bal1).
  destruct (negb (bal2 =? 0)); [apply IH; lia|].
  destruct (is_Default (GetTypeFromChar c)); [apply IH; lia|].
  destruct type as [minimum|]; [|apply IH; lia].
  match goal with |- (let* replace := ?m in _) <> _ => destruct m as [replace|] end;
    cbn [bind]; [|discriminate].
  destruct (skip_operators e (scan_fuel e) (S i)) as [j|] eqn:Hj; cbn [bind]; [|discriminate].
  apply skip_operators_from in Hj. apply IH. lia.
Qed.

(** What the loop holds in [type] and [pos] at [i]. *)
Let found (left i : nat) (type : option ExpressionType) (pos : nat) : Prop :=
  match type with
  | None => pos = left
  | Some t => (left <= pos < i)%nat /\ operation_at e pos t
  end.

Lemma find_operation_found (left right fuel i : nat) type pos bal type' pos' :
  (left <= i)%nat ->
  found left i type pos ->
  find_operation e right fuel i type pos bal = Ok (type', pos') ->
  found left right type' pos'.
Proof.
  revert i type pos bal. induction fuel as [|fuel IH]; intros i type pos bal Hi Hinv;
    cbn [find_operation]; destruct (Nat.eqb_spec i right) as [->|Hne].
  all: try (intros [= <- <-]; exact Hinv).
  assert (forall j, (i <= j)%nat -> found left j type pos) as Hkeep.
  { intros j Hj. destruct type; [|exact Hinv]. destruct Hinv as [Hp Ho].
    split; [lia | exact Ho]. }
  destruct (char_at e i) as [c|] eqn:Hc; cbn [bind]; [|discriminate].
  set (bal1 := if (c =? "(")%char then bal + 1 else bal).
  set (bal2 := if (c =? ")")%char then bal1 - 1 else bal1).
  destruct (negb (bal2 =? 0)); [apply IH; [lia | apply Hkeep; lia]|].
  destruct (is_Default (GetTypeFromChar c)) eqn:Hop; [apply IH; [lia | apply Hkeep; lia]|].
  pose proof (char_at_operation i c Hc Hop) as Hat.
  assert (forall j, (i < j)%nat -> found left j (Some (GetTypeFromChar c)) i) as Hnew.
  { intros j Hj. split; [lia | exact Hat]. }
  destruct type as [minimum|]; [|apply IH; [lia | apply Hnew; lia]].
  match goal with |- (let* replace := ?m in _) = _ -> _ => destruct m as [replace|] end;
    cbn [bind]; [|discriminate].
  destruct (skip_operators e (scan_fuel e) (S i)) as [j|] eqn:Hj; cbn [bind]; [|discriminate].
  apply skip_operators_from in Hj. apply IH; [lia|].
  destruct replace; [apply Hnew; lia | apply Hkeep; lia].
Qed.

End Search.

(** X3: when [FindArithmeticOperation] comes back with an operation, its
    position is inside the range and holds the character of exactly that
    operation, one of [+], [-] and [*]; when it comes back with none, the
    position is the start of the range. *)
Theorem FindArithmeticOperation_points_at_its_operation :
  forall (expression_ : string) (left right : nat) type pos,
    FindArithmeticOperation expression_ left right = Ok (type, pos) ->
    match type with
    | Some t => (left <= pos < right)%nat /\ operation_at expression_ pos t
    | None => pos = left
    end.
Proof.
  intros e left right type pos H. unfold FindArithmeticOperation in H.
  exact (find_operation_found e left right _ left None left 0 type pos (Nat.le_refl _) eq_refl H).
Qed.

Lemma FindArithmeticOperation_points_at_the_plus_of_2_plus_3_times_4 :
  (0 <= 1 < 5)%nat /\ operation_at "2+3*4" 1 Plus.
Proof.
  apply (FindArithmeticOperation_points_at_its_operation "2+3*4" 0 5 (Some Plus) 1).
  reflexivity.
Defined.

Section NoOperation.

Variable e : string.

Lemma skipn_nth_error {A} (l : list A) (i : nat) (c : A) :
  nth_error l i = Some c -> skipn i l = c :: skipn (S i) l.
Proof.
  revert l. induction i as [|i IH]; intros [|a l] H; simpl in H; try discriminate.
  - injection H as ->. reflexivity.
  - apply (IH l H).
Qed.

Lemma firstn_snoc {A} (l : list A) (n : nat) (c : A) :
  nth_error l n = Some c -> firstn (S n) l = firstn n l ++ [c].
Proof.
  revert l. induction n as [|n IH]; intros [|a l] H; simpl in H; try discriminate.
  - injection H as ->. reflexivity.
  - cbn [firstn]. rewrite (IH l H). reflexivity.
Qed.

Lemma range_chars_snoc (left i : nat) (c : ascii) :
  (left <= i)%nat ->
  nth_error (list_ascii_of_string e) i = Some c ->
  range_chars e left (S i) = range_chars e left i ++ [c].
Proof.
  intros Hle Hc. unfold range_chars. rewrite !chars_substring.
  replace (S i - left)%nat with (S (i - left)) by lia.
  apply firstn_snoc. rewrite nth_error_skipn.
  replace (left + (i - left))%nat with i by lia. exact Hc.
Qed.

Lemma find_operation_keeps (right fuel i : nat) t pos bal type' pos' :
  find_operation e right fuel i (Some t) pos bal = Ok (type', pos') -> type' <> None.
Proof.
  revert i t pos bal. induction fuel as [|fuel IH]; intros i t pos bal;
    cbn [find_operation]; destruct (Nat.eqb_spec i right) as [->|Hne].
  all: try (intros [= <- <-]; discriminate).
  destruct (char_at e i) as [c|] eqn:Hc; cbn [bind]; [|discriminate].
  set (bal1 := if (c =? "(")%char then bal + 1 else bal).
  set (bal2 := if (c =? ")")%char then bal1 - 1 else bal1).
  destruct (negb (bal2 =? 0)); [apply IH|].
  destruct (is_Default (GetTypeFromChar c)) eqn:Hop; [apply IH|].
  match goal with |- (let* replace := ?m in _) = _ -> _ => destruct m as [replace|] end;
    cbn [bind]; [|discriminate].
  destruct (skip_operators e (scan_fuel e) (S i)) as [j|] eqn:Hj; cbn [bind]; [|discriminate].
  destruct replace; apply IH.
Qed.

Lemma balance_snoc (l : list ascii) (c : ascii) :
  balance (l ++ [c]) = balance l + delta c.
Proof. rewrite balance_app, balance_cons, balance_nil. lia. Qed.

Lemma find_operation_none (left right fuel i : nat) :
  (left <= i <= right)%nat -> (right <= String.length e)%nat -> (right - i < fuel)%nat ->
  find_operation e right fuel i None left (balance (range_chars e left i)) = Ok (None, left)
  <-> forall k, (i <= k < right)%nat -> ~ operation_outside e left k.
Proof.
  revert i. induction fuel as [|fuel IH]; intros i Hi Hr Hfuel; [lia|].
  cbn [find_operation]. destruct (Nat.eqb_spec i right) as [->|Hne].
  - split; [intros _ k Hk; lia | reflexivity].
  - destruct (char_at_inside e i ltac:(lia)) as (c & Hn & ->). cbn [bind].
    pose proof (range_chars_snoc left i c ltac:(lia) Hn) as Hsnoc.
    assert ((if (c =? ")")%char
             then (if (c =? "(")%char
                   then balance (range_chars e left i) + 1
                   else balance (range_chars e left i)) - 1
             else if (c =? "(")%char
                  then balance (range_chars e left i) + 1
                  else balance (range_chars e left i))
            = balance (range_chars e left (S i))) as ->.
    { rewrite Hsnoc, balance_snoc. unfold delta.
      destruct (Ascii.eqb_spec c "(") as [->|H1]; [simpl; lia|].
      destruct (c =? ")")%char; lia. }
    assert ((forall k, (i <= k < right)%nat -> ~ operation_outside e left k) <->
            (~ operation_outside e left i /\
             forall k, (S i <= k < right)%nat -> ~ operation_outside e left k)) as ->.
    { split.
      - intros H. split; [apply H; lia | intros k Hk; apply H; lia].
      - intros [H0 H] k Hk. destruct (Nat.eq_dec k i) as [->|]; [exact H0 | apply H; lia]. }
    specialize (IH (S i) ltac:(lia) Hr ltac:(lia)).
    destruct (Z.eqb_spec (balance (range_chars e left (S i))) 0) as [Hb|Hb]; cbn [negb].
    + destruct (is_Default (GetTypeFromChar c)) eqn:Hop.
      * rewrite IH. split; [|tauto]. intros H. split; [|exact H].
        intros [_ (t & c' & Hc' & Ht & Hop')]. rewrite Hn in Hc'. injection Hc' as <-.
        rewrite Ht in Hop. destruct Hop' as [-> | [-> | ->]]; discriminate.
      * split.
        -- intros H. apply find_operation_keeps in H. congruence.
        -- intros [H0 _]. destruct H0. split; [exact Hb|].
           exists (GetTypeFromChar c), c. split; [exact Hn|]. split; [reflexivity|].
           apply GetTypeFromChar_operation, Hop.
    + rewrite IH. split; [|tauto]. intros H. split; [|exact H].
      intros [Hb' _]. contradiction.
Qed.

End NoOperation.

Lemma FindArithmeticOperation_none (e : string) (left right : nat) :
  (left <= right <= String.length e)%nat ->
  FindArithmeticOperation e left right = Ok (None, left)
  <-> forall i, (left <= i < right)%nat -> ~ operation_outside e left i.
Proof.
  intros [Hl Hr]. unfold FindArithmeticOperation.
  assert (balance (range_chars e left left) = 0) as Hb.
  { unfold range_chars. rewrite Nat.sub_diag, chars_substring. reflexivity. }
  rewrite <- Hb at 1.
  apply (find_operation_none e left right (scan_fuel e) left); unfold scan_fuel; lia.
Qed.

(** X4: on a range inside the text, [FindArithmeticOperation] comes back
    with no operation exactly when no [+], [-] or [*] of the range stands
    outside all the parentheses opened since the start of the range. *)
Theorem FindArithmeticOperation_finds_none_iff_none_is_outside :
  forall (expression_ : string) (left right : nat),
    (left <= right <= String.length expression_)%nat ->
    FindArithmeticOperation expression_ left right = Ok (None, left)
    <-> forall i, (left <= i < right)%nat -> ~ operation_outside expression_ left i.
Proof.
  intros e left right Hrange. exact (FindArithmeticOperation_none e left right Hrange).
Qed.

Lemma FindArithmeticOperation_finds_none_in_a_call :
  FindArithmeticOperation "f(a+b)" 0 6 = Ok (None, 0%nat)
  <-> forall i, (0 <= i < 6)%nat -> ~ operation_outside "f(a+b)" 0 i.
Proof.
  apply (FindArithmeticOperation_finds_none_iff_none_is_outside "f(a+b)" 0 6). simpl. lia.
Defined.

(** ** The parameters of a call *)

Section Parameters.

Variable e : string.

Lemma range_chars_empty (i : nat) : range_chars e i i = [].
Proof. unfold range_chars. rewrite Nat.sub_diag, chars_substring. reflexivity. Qed.

Lemma range_chars_cons (i j : nat) (c : ascii) :
  (i < j)%nat -> has_char e i c ->
  range_chars e i j = c :: range_chars e (S i) j.
Proof.
  intros Hlt Hc. unfold range_chars. rewrite !chars_substring.
  rewrite (skipn_nth_error _ i c Hc).
  replace (j - i)%nat with (S (j - S i)) by lia. reflexivity.
Qed.

Lemma find_open_Ok (fuel i p : nat) :
  find_open e fuel i = Ok p ->
  (i <= p)%nat /\ has_char e p "(" /\
  forall k, (i <= k < p)%nat -> ~ has_char e k "(".
Proof.
  revert i. induction fuel as [|fuel IH]; intros i; cbn [find_open]; [discriminate|].
  destruct (char_at_cases e i) as [(_ & c & Hn & ->) | [[Hi ->] | [_ ->]]]; cbn [bind];
    [| |discriminate].
  - destruct (Ascii.eqb_spec c "(") as [->|Hne].
    + intros [= <-]. split; [lia|]. split; [exact Hn|]. intros k Hk. lia.
    + intros H. apply IH in H as (Hle & Hp & Hbefore). split; [lia|]. split; [exact Hp|].
      intros k Hk Hc. destruct (Nat.eq_dec k i) as [->|].
      * unfold has_char in Hc. congruence.
      * apply (Hbefore k); [lia | exact Hc].
  - change (zero =? "(")%char with false. cbn iota. intros H.
    apply IH in H as (Hle & Hp & _). unfold has_char in Hp.
    assert (p < length (list_ascii_of_string e))%nat as Hlt
        by (apply nth_error_Some; congruence).
    rewrite length_chars in Hlt. lia.
Qed.

Lemma scan_parameter_Ok (fuel i : nat) (bal : Z) (closed : bool) (j : nat) :
  0 <= bal ->
  scan_parameter e fuel i bal = Ok (closed, j) ->
  (i <= j)%nat /\ has_char e j (if closed then ")" else ",")%char /\
  bal + balance (range_chars e i j) = 0.
Proof.
  revert i bal. induction fuel as [|fuel IH]; intros i bal Hbal; cbn [scan_parameter];
    [discriminate|].
  destruct (char_at_cases e i) as [(_ & c & Hn & ->) | [[Hi ->] | [_ ->]]]; cbn [bind];
    [| |discriminate].
  - destruct (Ascii.eqb_spec c ",") as [->|Hcomma]; cbn [negb orb].
    + change ("," =? "(")%char with false. change ("," =? ")")%char with false.
      cbn [andb]. rewrite andb_false_r.
      destruct (Z.gtb_spec bal 0) as [Hpos|Hzero].
      * intros H. apply IH in H as (Hle & Hj & Hb); [|lia].
        split; [lia|]. split; [exact Hj|].
        rewrite (range_chars_cons i j ","%char ltac:(lia) Hn), balance_cons. exact Hb.
      * intros [= <- <-]. split; [lia|]. split; [exact Hn|].
        rewrite range_chars_empty, balance_nil. lia.
    + destruct (Ascii.eqb_spec c "(") as [->|Hopen].
      * change ("(" =? ")")%char with false. rewrite andb_false_r.
        intros H. apply IH in H as (Hle & Hj & Hb); [|lia].
        split; [lia|]. split; [exact Hj|].
        rewrite (range_chars_cons i j "("%char ltac:(lia) Hn), balance_cons.
        change (delta "(") with 1. lia.
      * destruct (Ascii.eqb_spec c ")") as [->|Hclose].
        -- rewrite andb_true_r. destruct (Z.eqb_spec (bal - 1) (-1)) as [Hlast|Hmore].
           ++ intros [= <- <-]. split; [lia|]. split; [exact Hn|].
              rewrite range_chars_empty, balance_nil. lia.
           ++ intros H. apply IH in H as (Hle & Hj & Hb); [|lia].
              split; [lia|]. split; [exact Hj|].
              rewrite (range_chars_cons i j ")"%char ltac:(lia) Hn), balance_cons.
              change (delta ")") with (-1). lia.
        -- rewrite andb_false_r.
           intros H. apply IH in H as (Hle & Hj & Hb); [|lia].
           split; [lia|]. split; [exact Hj|].
           rewrite (range_chars_cons i j c ltac:(lia) Hn), balance_cons.
           unfold delta. apply Ascii.eqb_neq in Hopen, Hclose. rewrite Hopen, Hclose. lia.
  - change (zero =? ",")%char with false. change (zero =? "(")%char with false.
    change (zero =? ")")%char with false. cbn [negb orb andb]. rewrite andb_false_r.
    intros H. apply IH in H as (Hle & Hj & _); [|lia].
    unfold has_char in Hj.
    assert (j < length (list_ascii_of_string e))%nat as Hlt
        by (apply nth_error_Some; congruence).
    rewrite length_chars in Hlt. lia.
Qed.

(** The ranges in [answer] so far, still waiting for what follows the
    comma at their end. *)
Let open_ended (first : nat) (answer : list (nat * nat)) (next : nat) : Prop :=
  forall rest, rest <> [] -> parameters_from e next rest ->
               parameters_from e first (answer ++ rest).

Lemma scan_parameters_Ok (right fuel first current : nat) answer params :
  open_ended first answer current ->
  scan_parameters e right fuel current current answer = Ok params ->
  parameters_from e first params.
Proof.
  revert current answer. induction fuel as [|fuel IH]; intros current answer Hopen;
    cbn [scan_parameters]; destruct (Nat.eqb_spec current right); try discriminate.
  destruct (scan_parameter e (scan_fuel e) current 0) as [[closed j]|] eqn:Hscan;
    cbn [bind]; [|discriminate].
  apply scan_parameter_Ok in Hscan as (Hle & Hj & Hb); [|lia].
  destruct closed.
  - intros [= <-]. apply Hopen; [discriminate|].
    cbn [parameters_from]. split; [reflexivity|]. split; [exact Hle|]. split; [lia | exact Hj].
  - apply IH. intros rest Hne Hrest. rewrite <- app_assoc. apply Hopen; [discriminate|].
    cbn [app parameters_from]. split; [reflexivity|]. split; [exact Hle|]. split; [lia|].
    destruct rest as [|x rest]; [contradiction|]. split; [exact Hj | exact Hrest].
Qed.

End Parameters.

(** X5: the ranges [GetFunctionParameters] gives start behind the first
    opening parenthesis from [left] on; there is at least one; each ends
    on a comma where the next one starts, the last on a closing
    parenthesis; and each closes the parentheses it opens. *)
Theorem GetFunctionParameters_splits_at_the_commas :
  forall (expression_ : string) (left right : nat) params,
    GetFunctionParameters expression_ left right = Ok params ->
    exists open,
      (left <= open)%nat /\ has_char expression_ open "(" /\
      (forall k, (left <= k < open)%nat -> ~ has_char expression_ k "(") /\
      parameters_from expression_ (S open) params.
Proof.
  intros e left right params. unfold GetFunctionParameters.
  destruct (find_open e (scan_fuel e) left) as [p|] eqn:Hp; cbn [bind]; [|discriminate].
  apply find_open_Ok in Hp as (Hle & Hopen & Hfirst). intros H.
  exists p. split; [exact Hle|]. split; [exact Hopen|]. split; [exact Hfirst|].
  apply (scan_parameters_Ok e right (scan_fuel e) (S p) (S p) [] params); [|exact H].
  intros rest _ Hrest. exact Hrest.
Qed.

Lemma GetFunctionParameters_splits_the_arguments_of_add :
  exists open,
    (0 <= open)%nat /\ has_char "add(mul(2,3),4)" open "(" /\
    (forall k, (0 <= k < open)%nat -> ~ has_char "add(mul(2,3),4)" k "(") /\
    parameters_from "add(mul(2,3),4)" (S open) [(4, 12); (13, 14)]%nat.
Proof.
  apply (GetFunctionParameters_splits_at_the_commas "add(mul(2,3),4)" 0 15).
  reflexivity.
Defined.

(** ** The recursion of [ParseExpression] *)

Section Recursion.

Variable e : string.

Let size : nat := String.length e.

Lemma bind_deep_Ok {A B} (m : option (result A)) (k : A -> option (result B)) (b : B) :
  bind_deep m k = Some (Ok b) -> exists a, m = Some (Ok a) /\ k a = Some (Ok b).
Proof.
  destruct m as [[a|err]|]; simpl; intros H; try discriminate. exists a. split; [reflexivity | exact H].
Qed.

Lemma bind_deep_ends {A B} (m : option (result A)) (k : A -> option (result B)) :
  m <> None -> (forall a, m = Some (Ok a) -> k a <> None) -> bind_deep m k <> None.
Proof.
  destruct m as [[a|err]|]; simpl; intros Hm Hk; [apply Hk; reflexivity | discriminate | congruence].
Qed.

Lemma Some_eq {A} (a b : A) : Some a = Some b -> a = b.
Proof. congruence. Qed.

Lemma for_each_range_ordered {State} (f : State -> ascii -> State) (left right : nat) st r :
  for_each_range e f left right st = Ok r -> (left <= right)%nat.
Proof.
  unfold for_each_range. destruct (Nat.ltb_spec right left); [discriminate | lia].
Qed.

Lemma surplus_parentheses_inside (fuel left right s0 s : nat) :
  (left + s0 + s0 <= right)%nat ->
  surplus_parentheses e fuel left right s0 = Ok s ->
  (left + s + s <= right)%nat.
Proof.
  revert s0. induction fuel as [|fuel IH]; intros s0 H0; cbn [surplus_parentheses];
    [discriminate|].
  destruct (char_at e (left + s0)) as [first|]; cbn [bind]; [|discriminate].
  destruct (negb (first =? "(")%char); [intros [= <-]; exact H0|].
  destruct (Nat.ltb_spec right (1 + s0)); [discriminate|].
  destruct (char_at e (right - 1 - s0)) as [last|]; cbn [bind]; [|discriminate].
  destruct (negb (last =? ")")%char); [intros [= <-]; exact H0|].
  unfold IsParBalance.
  destruct (for_each_range e balance_step (left + s0 + 1) (right - s0 - 1) (0, true))
    as [[b correct]|] eqn:Hrange; cbn [bind]; [|discriminate].
  apply for_each_range_ordered in Hrange.
  destruct correct; cbn [snd]; [|intros [= <-]; exact H0].
  apply IH. lia.
Qed.

Lemma has_char_inside (i : nat) (c : ascii) : has_char e i c -> (i < size)%nat.
Proof.
  unfold has_char, size. intros H. rewrite <- length_chars. apply nth_error_Some. congruence.
Qed.

Lemma parameters_from_inside (start : nat) (params : list (nat * nat)) :
  parameters_from e start params ->
  (start + length params <= size)%nat /\
  Forall (fun p => (start <= fst p <= snd p)%nat /\ (snd p < size)%nat) params.
Proof.
  revert start. induction params as [|[l r] rest IH]; intros start; [intros []|].
  cbn [parameters_from]. intros (-> & Hle & _ & Hrest).
  destruct rest as [|p rest].
  - apply has_char_inside in Hrest. split; [simpl; lia|].
    constructor; [simpl; lia | constructor].
  - destruct Hrest as [Hcomma Hrest]. apply has_char_inside in Hcomma.
    apply IH in Hrest as [Hlen Hall]. split; [simpl in *; lia|].
    constructor; [simpl; lia|].
    eapply Forall_impl; [exact Hall|]. simpl. intros [l' r']. simpl. lia.
Qed.

(** How deep the recursion can still go from a range. *)
Let room (left right : nat) : nat := ((size - left) * S size + (right - left))%nat.

Lemma room_right (left right left' right' : nat) :
  (left < left')%nat -> (left' <= right' <= size)%nat -> (right <= size)%nat ->
  (room left' right' < room left right)%nat.
Proof. unfold room. intros. nia. Qed.

Lemma room_left (left right left' right' : nat) :
  (left <= left')%nat -> (left' <= right')%nat -> (right' < right)%nat -> (right <= size)%nat ->
  (room left' right' < room left right)%nat.
Proof.
  unfold room. intros. destruct (Nat.eq_dec left left') as [->|]; [lia | nia].
Qed.

Lemma parse_parameters_ends (PE : Node -> nat -> nat -> option (result Node))
    (params : list (nat * nat)) (counter : nat) (children : list Node) :
  Forall (fun p => forall node, PE node (fst p) (snd p) <> None) params ->
  parse_parameters PE params counter children <> None.
Proof.
  revert counter children. induction params as [|[l r] rest IH]; intros counter children Hall;
    cbn [parse_parameters]; [discriminate|].
  apply Forall_cons_1 in Hall as [Hhead Hrest].
  apply bind_deep_ends; [apply Hhead|]. intros a _. apply IH, Hrest.
Qed.

Lemma ParseExpression_ends (depth : nat) :
  forall (node : Node) (left right : nat),
    (left <= right <= size)%nat -> (room left right < depth)%nat ->
    ParseExpression e depth node left right <> None.
Proof.
  induction depth as [|depth IH]; intros node left right Hrange Hroom; [lia|].
  cbn [ParseExpression].
  apply bind_deep_ends; [discriminate|]. intros s Hs%Some_eq.
  apply (surplus_parentheses_inside _ left right 0 s ltac:(lia)) in Hs.
  apply bind_deep_ends; [discriminate|]. intros [[type|] pos] Hfind%Some_eq.
  - apply (find_operation_found e (left + s) (right - s) _ (left + s) None (left + s) 0
             (Some type) pos (Nat.le_refl _) eq_refl) in Hfind as [Hpos _].
    unfold ParseArithmetic.
    apply bind_deep_ends.
    { apply IH; [lia|].
      pose proof (room_left left right (left + s) pos
                    ltac:(lia) ltac:(lia) ltac:(lia) ltac:(lia)). lia. }
    intros first _. apply bind_deep_ends; [|discriminate].
    apply IH; [lia|].
    pose proof (room_right left right (S pos) (right - s)
                  ltac:(lia) ltac:(lia) ltac:(lia)). lia.
  - apply bind_deep_ends; [discriminate|]. intros constant _.
    destruct constant; [discriminate|].
    apply bind_deep_ends; [discriminate|]. intros function _.
    destruct function; [|discriminate].
    unfold ParseFunction.
    apply bind_deep_ends; [discriminate|]. intros name _.
    apply bind_deep_ends; [discriminate|]. intros params Hparams%Some_eq.
    apply bind_deep_ends; [|discriminate].
    apply parse_parameters_ends.
    unfold GetFunctionParameters in Hparams.
    destruct (find_open e (scan_fuel e) (left + s)) as [p|] eqn:Hp; cbn [bind] in Hparams;
      [|discriminate].
    apply find_open_Ok in Hp as (Hle & _ & _).
    apply (scan_parameters_Ok e (right - s) (scan_fuel e) (S p) (S p) [] params) in Hparams;
      [|intros rest _ Hrest; exact Hrest].
    apply parameters_from_inside in Hparams as [_ Hall].
    eapply Forall_impl; [exact Hall|]. intros [l r]. simpl. intros [Hl Hr] node'.
    apply IH; [lia|].
    pose proof (room_right left right l r ltac:(lia) ltac:(lia) ltac:(lia)). lia.
Qed.

Lemma parse_depth_room : (room 0 size < parse_depth e)%nat.
Proof. unfold room, parse_depth. fold size. nia. Qed.

End Recursion.

(** X6: the recursion of [ParseExpression] ends on every text: from the
    whole text it never goes deeper than the square of the length plus
    one, whatever the characters are. *)
Theorem ParseExpression_recursion_ends :
  forall (expression_ : string) (current_node : Node),
    ParseExpression expression_ (parse_depth expression_) current_node
                    0 (String.length expression_) <> None.
Proof.
  intros e node. apply ParseExpression_ends; [lia | apply parse_depth_room].
Qed.

(** ** The trees the parser builds *)

Section Shape.

Variable e : string.

Let size : nat := String.length e.

Lemma substring_nothing (s : string) (n : nat) : substring n 0 s = "".
Proof. revert n. induction s as [|c s IH]; intros [|n]; simpl; auto. Qed.

Lemma substring_something (s : string) (n m : nat) :
  (n < String.length s)%nat -> substring n (S m) s <> "".
Proof.
  revert n. induction s as [|c s IH]; intros n Hn; simpl in Hn; [lia|].
  destruct n as [|n]; simpl; [discriminate|]. apply IH. lia.
Qed.

Lemma ParseConstant_parsed (node : Node) (left right : nat) (n : Node) :
  sub_expressions node = [] ->
  IsConstant e left = Ok true ->
  ParseConstant e node left right = Ok n ->
  parsed size n.
Proof.
  intros Hnode Hconstant. unfold ParseConstant. rewrite Hnode.
  destruct (Nat.lt_ge_cases left right) as [Hlt|Hge].
  - rewrite (stoi_decimal_literal _ (IsConstant_leaf e left right Hlt Hconstant)).
    set (leaf := substring left (right - left) e).
    pose proof (literal_value_nonneg leaf) as Hnonneg.
    destruct (Z.ltb_spec Cxx.INT_MAX (literal_value leaf)) as [|Hmax]; cbn [bind];
      [discriminate|].
    intros [= <-]. apply (parsed_constant size _ (literal_value leaf)); [|lia].
    rewrite stoul_hex. f_equal. unfold Cxx.to_uint32.
    apply Z.mod_small. unfold Cxx.INT_MAX in Hmax. lia.
  - replace (right - left)%nat with 0%nat by lia. rewrite substring_nothing.
    discriminate.
Qed.

Lemma ParseVariable_parsed (node : Node) (left right : nat) (n : Node) :
  sub_expressions node = [] -> (right <= size)%nat ->
  ParseVariable e node left right = Ok n ->
  parsed size n.
Proof.
  intros Hnode Hright. unfold ParseVariable. rewrite Hnode.
  destruct (Z.ltb_spec (Z.of_nat right - Z.of_nat left) 1) as [|Hlong].
  - intros [= <-]. apply (parsed_constant size "0x0" 0); [reflexivity|].
    unfold Cxx.INT_MAX. lia.
  - destruct (Nat.ltb_spec (String.length e) left); [discriminate|].
    intros [= <-]. apply parsed_variable.
    replace (right - left)%nat with (S (right - left - 1)) by lia.
    apply substring_something. fold size. lia.
Qed.

Lemma parse_parameters_all (Q : Node -> Prop)
    (PE : Node -> nat -> nat -> option (result Node)) (params : list (nat * nat)) :
  Forall (fun p => forall node n,
              sub_expressions node = [] ->
              PE node (fst p) (snd p) = Some (Ok n) -> Q n) params ->
  forall (children result : list Node),
    Forall Q children ->
    parse_parameters PE params (length children) children = Some (Ok result) ->
    Forall Q result /\ length result = (length children + length params)%nat.
Proof.
  induction params as [|[l r] rest IH]; intros Hall children result Hchildren;
    cbn [parse_parameters].
  - intros [= <-]. split; [exact Hchildren | simpl; lia].
  - apply Forall_cons_1 in Hall as [Hhead Hrest].
    rewrite nth_middle. intros (parsed_ & Hparsed & Hnext)%bind_deep_Ok.
    apply (Hhead fresh_Node parsed_ eq_refl) in Hparsed.
    replace (<[length children := parsed_]> (children ++ [fresh_Node]))
      with (children ++ [parsed_]) in Hnext.
    2:{ rewrite <- (Nat.add_0_r (length children)) at 1. rewrite insert_app_r. reflexivity. }
    replace (S (length children)) with (length (children ++ [parsed_])) in Hnext
      by (rewrite length_app; simpl; lia).
    apply (IH Hrest) in Hnext as [Hall Hlen].
    + split; [exact Hall|]. rewrite Hlen, length_app. simpl. lia.
    + apply Forall_app. split; [exact Hchildren|]. constructor; [exact Hparsed | constructor].
Qed.

Lemma ParseExpression_parsed (depth : nat) :
  forall (node : Node) (left right : nat) (n : Node),
    (left <= right <= size)%nat -> sub_expressions node = [] ->
    ParseExpression e depth node left right = Some (Ok n) ->
    parsed size n.
Proof.
  induction depth as [|depth IH]; intros node left right n Hrange Hnode; [discriminate|].
  cbn [ParseExpression].
  intros (s & Hs%Some_eq & H)%bind_deep_Ok.
  apply (surplus_parentheses_inside e _ left right 0 s ltac:(lia)) in Hs.
  apply bind_deep_Ok in H as ([[type|] pos] & Hfind%Some_eq & H).
  - apply (find_operation_found e (left + s) (right - s) _ (left + s) None (left + s) 0
             (Some type) pos (Nat.le_refl _) eq_refl) in Hfind as [Hpos (_ & _ & _ & Hop)].
    unfold ParseArithmetic in H. rewrite Hnode in H. cbn [app nth] in H.
    apply bind_deep_Ok in H as (first & Hfirst & H).
    apply bind_deep_Ok in H as (second & Hsecond & [= <-]).
    apply IH in Hfirst; [|lia | reflexivity]. apply IH in Hsecond; [|lia | reflexivity].
    apply parsed_arithmetic; assumption.
  - apply bind_deep_Ok in H as (constant & Hconstant%Some_eq & H).
    destruct constant.
    { apply Some_eq in H. exact (ParseConstant_parsed node _ _ n Hnode Hconstant H). }
    apply bind_deep_Ok in H as (function & _ & H).
    destruct function.
    2:{ apply Some_eq in H. apply (ParseVariable_parsed node (left + s) (right - s) n Hnode); [lia | exact H]. }
    unfold ParseFunction in H.
    apply bind_deep_Ok in H as (name & _ & H).
    apply bind_deep_Ok in H as (params & Hparams%Some_eq & H).
    apply bind_deep_Ok in H as (children & Hchildren & [= <-]).
    unfold GetFunctionParameters in Hparams.
    destruct (find_open e (scan_fuel e) (left + s)) as [p|] eqn:Hp; cbn [bind] in Hparams;
      [|discriminate].
    apply find_open_Ok in Hp as (Hle & _ & _).
    apply (scan_parameters_Ok e (right - s) (scan_fuel e) (S p) (S p) [] params) in Hparams;
      [|intros rest _ Hrest; exact Hrest].
    assert (params <> []) as Hsome by (destruct params; [destruct Hparams | discriminate]).
    apply parameters_from_inside in Hparams as [Hcount Hall]. fold size in Hcount.
    rewrite Hnode in Hchildren.
    assert (Forall (fun p => forall node' n',
                        sub_expressions node' = [] ->
                        ParseExpression e depth node' (fst p) (snd p) = Some (Ok n') ->
                        parsed size n') params) as Heach.
    { eapply Forall_impl; [exact Hall|]. intros [l r]. simpl. intros [Hl Hr] node' n' Hnode'.
      apply IH; [fold size; lia | exact Hnode']. }
    destruct (parse_parameters_all (parsed size) _ params Heach [] children
                (@List.Forall_nil Node _) Hchildren) as [Hparsed Hlen].
    apply parsed_function; [|simpl in Hlen; lia | exact Hparsed].
    intros ->. simpl in Hlen. destruct params; [congruence | simpl in Hlen; lia].
Qed.

End Shape.

Lemma ExpressionParser_parsed (text : string) (root : Node) :
  ExpressionParser text = Ok root ->
  parsed (String.length (GetRidOfSpaces text)) root.
Proof.
  unfold ExpressionParser.
  destruct (ParseExpression _ _ _ _ _) as [[n|err]|] eqn:H; try discriminate.
  intros [= <-].
  apply (ParseExpression_parsed (GetRidOfSpaces text) _ fresh_Node 0
           (String.length (GetRidOfSpaces text)) n ltac:(lia) eq_refl H).
Qed.

(** X7: every tree the parser builds has the shape the emitter walks: a
    constant is a leaf whose literal reads back, with [std::stoul], as a
    number from 0 to [INT_MAX]; a variable is a leaf with a name that is
    not empty; an operation has no content and exactly two operands; a
    call has a name and at least one argument, and no more arguments
    than the text has characters. No node is left of type [Default]. *)
Theorem ExpressionParser_builds_parsed_trees :
  forall (expression : string) (root_ : Node),
    ExpressionParser expression = Ok root_ ->
    parsed (String.length (GetRidOfSpaces expression)) root_.
Proof.
  intros text root. exact (ExpressionParser_parsed text root).
Qed.

Lemma ExpressionParser_builds_a_parsed_tree_from_a_call :
  parsed (String.length (GetRidOfSpaces "add(mul(2, 3), x) - 1"))
    (binary Minus
       (call "add" [call "mul" [constant "0x2"; constant "0x3"]; variable "x"])
       (constant "0x1")).
Proof.
  apply (ExpressionParser_builds_parsed_trees "add(mul(2, 3), x) - 1"). reflexivity.
Defined.

(** * The parser's trees in the emitter *)

Section ParsedTrees.

Variable directory : gmap string Z.
Variable limit : nat.

Lemma visits_leaf t c n :
  visits (mkNode t c []) n -> n = mkNode t c [].
Proof.
  inversion 1 as [ | | | c' args a n' Hin]; subst; [reflexivity|]. destruct Hin.
Qed.

Lemma visits_pair op c l r n :
  op = Plus \/ op = Minus \/ op = Product ->
  visits (mkNode op c [l; r]) n ->
  n = mkNode op c [l; r] \/ visits l n \/ visits r n.
Proof.
  intros Hop. inversion 1; subst; auto. destruct Hop as [? | [? | ?]]; discriminate.
Qed.

Lemma visits_call c args n :
  visits (mkNode Function c args) n ->
  n = mkNode Function c args \/ exists a, In a args /\ visits a n.
Proof.
  inversion 1 as [ | op c' l r rest n' Hop | op c' l r rest n' Hop | c' args' a n' Hin]; subst;
    eauto; destruct Hop as [? | [? | ?]]; discriminate.
Qed.

Lemma parsed_visits root n :
  parsed limit root -> visits root n -> parsed limit n.
Proof.
  intros Hroot Hvisit.
  induction Hvisit as [n | op c l r rest n Hop _ IH | op c l r rest n Hop _ IH
                      | c args a n Hin _ IH].
  - exact Hroot.
  - apply IH. inversion Hroot; subst; try assumption;
      destruct Hop as [? | [? | ?]]; discriminate.
  - apply IH. inversion Hroot; subst; try assumption;
      destruct Hop as [? | [? | ?]]; discriminate.
  - apply IH. inversion Hroot as [ | | op l r Hop | name args' Hne Hlen Hargs]; subst.
    + destruct Hop as [? | [? | ?]]; discriminate.
    + rewrite List.Forall_forall in Hargs. apply Hargs, Hin.
Qed.

Lemma parsed_constants_readable root :
  parsed limit root -> constants_readable root.
Proof.
  intros Hroot n Hvisit Htype. apply (parsed_visits root n Hroot) in Hvisit.
  inversion Hvisit as [text v Hread | | |]; subst; simpl in Htype; try discriminate.
  - exists text, v. split; [reflexivity | exact Hread].
  - destruct H as [-> | [-> | ->]]; discriminate.
Qed.

(** What the walk of a node comes to. *)
Let walked (n : Node) (r : result (list instruction_t)) : Prop :=
  match r with
  | Ok _ => forall m, visits n m -> bound directory m
  | Error err => err = NameNotFound /\ exists m, visits n m /\ ~ bound directory m
  end.

Lemma for_each_walked children :
  Forall (fun child => forall instructions_,
              walked child (compile_ directory child instructions_)) children ->
  forall instructions_,
    match for_each (compile_ directory) children instructions_ with
    | Ok _ => forall a m, In a children -> visits a m -> bound directory m
    | Error err =>
        err = NameNotFound /\ exists a m, In a children /\ visits a m /\ ~ bound directory m
    end.
Proof.
  induction 1 as [|child children Hchild _ IH]; intros instructions_; simpl.
  - intros a m [].
  - specialize (Hchild instructions_).
    destruct (compile_ directory child instructions_) as [mid|err]; simpl.
    + specialize (IH mid). destruct (for_each _ children mid) as [r|err].
      * intros a m [<- | Hin]; [apply Hchild | apply (IH a m Hin)].
      * destruct IH as (-> & a & m & Hin & Hm). split; [reflexivity|]. exists a, m. auto.
    + destruct Hchild as (-> & m & Hm). split; [reflexivity|]. exists child, m. auto.
Qed.

Lemma compile__walked root :
  parsed limit root ->
  forall instructions_, walked root (compile_ directory root instructions_).
Proof.
  induction root as [t c children IH] using Node_ind.
  intros Hparsed instructions_.
  inversion Hparsed as [text v Hread Hv | name Hname | op l r Hop Hl Hr
                        | name args Hne Hlen Hargs]; subst.
  - simpl. intros m ->%visits_leaf. exact I.
  - simpl. unfold handle_variable, at_. simpl.
    destruct (directory !! name) as [a|] eqn:Hlookup; simpl.
    + intros m ->%visits_leaf. exists name, a. auto.
    + split; [reflexivity|]. eexists. split; [apply visits_root|].
      intros (name' & a & [= <-] & Ha). simpl in Ha. congruence.
  - apply Forall_cons in IH as [IHl IH]. apply Forall_cons in IH as [IHr _].
    assert (forall i, walked (mkNode t None [l; r])
                        (handle_arithmetic (compile_ directory) i (mkNode t None [l; r])
                           instructions_)) as Harith.
    { intros i. unfold handle_arithmetic. simpl sub_expressions. cbv iota.
      specialize (IHl Hl instructions_).
      destruct (compile_ directory l instructions_) as [mid|err]; simpl.
      - specialize (IHr Hr mid).
        destruct (compile_ directory r mid) as [r'|err]; simpl.
        + intros m Hm. apply visits_pair in Hm as [-> | [Hm | Hm]]; [| | |exact Hop].
          * destruct Hop as [-> | [-> | ->]]; exact I.
          * apply IHl, Hm.
          * apply IHr, Hm.
        + destruct IHr as (-> & m & Hm & Hunbound). split; [reflexivity|].
          exists m. split; [|exact Hunbound]. eapply visits_right; eassumption.
      - destruct IHl as (-> & m & Hm & Hunbound). split; [reflexivity|].
        exists m. split; [|exact Hunbound]. eapply visits_left; eassumption. }
    destruct Hop as [-> | [-> | ->]]; apply Harith.
  - simpl. unfold handle_function. simpl sub_expressions.
    assert (Forall (fun child => forall instructions_,
                walked child (compile_ directory child instructions_)) children) as Hall.
    { rewrite List.Forall_forall in IH, Hargs. apply List.Forall_forall.
      intros a Ha. apply (IH a Ha), Hargs, Ha. }
    pose proof (for_each_walked children Hall instructions_) as Heach.
    destruct (for_each (compile_ directory) children instructions_) as [mid|err]; simpl.
    + replace (Z.of_nat (length children) >? 0) with true
        by (symmetry; apply Z.gtb_lt; destruct children; [congruence | simpl; lia]).
      unfold at_. destruct (directory !! name) as [a|] eqn:Hlookup; simpl.
      * intros m [-> | (a' & Hin & Hm)]%visits_call.
        -- exists name, a. auto.
        -- apply (Heach a' m Hin Hm).
      * split; [reflexivity|]. eexists. split; [apply visits_root|].
        intros (name' & a & [= <-] & Ha). simpl in Ha. congruence.
    + destruct Heach as (-> & a & m & Hin & Hm & Hunbound). split; [reflexivity|].
      exists m. split; [|exact Hunbound]. eapply visits_argument; eassumption.
Qed.

End ParsedTrees.

(** X8: on a tree the parser built, the emitter's walk fails only for a
    name that is not in the map, and exactly then: if [compile] comes to
    its end, every variable and every called function of the tree is
    bound; if not, it raised what [std::map::at] raises, and some name of
    the tree is not bound. *)
Theorem compile_of_a_parsed_tree_fails_only_for_a_missing_name :
  forall (directory : gmap string Z) (limit : nat) (root : Node),
    parsed limit root ->
    match compile directory root with
    | Ok _ => forall n, visits root n -> bound directory n
    | Error err =>
        err = NameNotFound /\ exists n, visits root n /\ ~ bound directory n
    end.
Proof.
  intros directory limit root Hparsed. unfold compile.
  pose proof (compile__walked directory limit root Hparsed (add_header [])) as H.
  destruct (compile_ directory root (add_header [])) as [r|err]; exact H.
Qed.

Lemma compile_of_x_plus_y_misses_y :
  match compile demo_map (binary Plus (variable "x") (variable "y")) with
  | Ok _ => forall n, visits (binary Plus (variable "x") (variable "y")) n -> bound demo_map n
  | Error err =>
      err = NameNotFound /\
      exists n, visits (binary Plus (variable "x") (variable "y")) n /\ ~ bound demo_map n
  end.
Proof.
  apply (compile_of_a_parsed_tree_fails_only_for_a_missing_name demo_map
           (String.length (GetRidOfSpaces "x+y"))).
  apply (ExpressionParser_parsed "x+y"). reflexivity.
Defined.

Section Pipeline.

Variable directory : gmap string Z.
Variable limit : nat.

Hypothesis limit_fits : Z.of_nat limit <= Cxx.INT_MAX.

Lemma parsed_ast root :
  parsed limit root ->
  (forall n, visits root n -> bound directory n) ->
  ast directory root.
Proof using limit_fits.
  induction root as [t c children IH] using Node_ind.
  intros Hparsed Hbound.
  pose proof (Hbound _ (visits_root _)) as Hroot.
  inversion Hparsed as [text v Hread Hv | name Hname | op l r Hop Hl Hr
                        | name args Hne Hlen Hargs]; subst.
  - apply ast_constant.
  - destruct Hroot as (name' & a & [= <-] & Ha). eapply ast_variable, Ha.
  - apply Forall_cons in IH as [IHl IH]. apply Forall_cons in IH as [IHr _].
    apply ast_arithmetic; [exact Hop | apply (IHl Hl) | apply (IHr Hr)];
      intros n Hn; apply Hbound.
    + eapply visits_left; eassumption.
    + eapply visits_right; eassumption.
  - destruct Hroot as (name' & a & [= <-] & Ha).
    apply (ast_function directory name a children Ha Hne); [lia|].
    rewrite List.Forall_forall in IH, Hargs. apply List.Forall_forall.
    intros x Hx. apply (IH x Hx (Hargs x Hx)).
    intros n Hn. apply Hbound. eapply visits_argument; eassumption.
Qed.

(** The call of [f] has six arguments or more. *)
Let wide (f : Node) : Prop :=
  type f = Function /\ (6 <= length (sub_expressions f))%nat.

Let narrow (f : Node) : Prop :=
  type f = Function -> (length (sub_expressions f) <= 5)%nat.

Lemma narrow_or_wide root :
  parsed limit root ->
  (forall f, visits root f -> narrow f) \/ (exists f, visits root f /\ wide f).
Proof.
  induction root as [t c children IH] using Node_ind.
  intros Hparsed.
  inversion Hparsed as [text v Hread Hv | name Hname | op l r Hop Hl Hr
                        | name args Hne Hlen Hargs]; subst.
  - left. intros f ->%visits_leaf. intros [=].
  - left. intros f ->%visits_leaf. intros [=].
  - apply Forall_cons in IH as [IHl IH]. apply Forall_cons in IH as [IHr _].
    destruct (IHl Hl) as [Hnl | (f & Hf & Hwide)].
    2:{ right. exists f. split; [eapply visits_left; eassumption | exact Hwide]. }
    destruct (IHr Hr) as [Hnr | (f & Hf & Hwide)].
    2:{ right. exists f. split; [eapply visits_right; eassumption | exact Hwide]. }
    left. intros f Hf. apply visits_pair in Hf as [-> | [Hf | Hf]]; [| auto | auto | exact Hop].
    intros Htype. simpl in Htype. destruct Hop as [-> | [-> | ->]]; discriminate.
  - assert ((forall a f, In a children -> visits a f -> narrow f) \/
            (exists a f, In a children /\ visits a f /\ wide f)) as [Hall | (a & f & Ha & Hf & Hw)].
    { clear Hne Hlen Hparsed.
      induction children as [|x children IHc]; [left; intros a f []|].
      apply Forall_cons in IH as [IHx IH]. apply Forall_cons in Hargs as [Hx Hargs].
      destruct (IHx Hx) as [Hnx | (f & Hf & Hw)].
      2:{ right. exists x, f. split; [left; reflexivity | auto]. }
      destruct (IHc IH Hargs) as [Hrest | (a & f & Ha & Hf & Hw)].
      2:{ right. exists a, f. split; [right; exact Ha | auto]. }
      left. intros a f [<- | Ha] Hf; [apply Hnx, Hf | apply (Hrest a f Ha Hf)]. }
    2:{ right. exists f. split; [eapply visits_argument; eassumption | exact Hw]. }
    destruct (le_gt_dec (length children) 5) as [Hfew | Hmany].
    + left. intros f [-> | (a & Ha & Hf)]%visits_call; [intros _; exact Hfew|].
      apply (Hall a f Ha Hf).
    + right. eexists. split; [apply visits_root|]. split; [reflexivity | simpl; lia].
Qed.

(** The instructions are translated, to [n] words. *)
Let translated (n : nat) (l : list instruction_t) : Prop :=
  exists ws, GetCompiledBinary l = Ok ws /\ length ws = n.

Lemma translated_app n m a b :
  translated n a -> translated m b -> translated (n + m) (a ++ b).
Proof.
  intros (wa & Ha & <-) (wb & Hb & <-). exists (wa ++ wb).
  rewrite GetCompiledBinary_app, Ha, Hb, length_app. split; reflexivity.
Qed.

Lemma translated_pops n :
  (n <= 5)%nat -> translated n (table_pops n).
Proof.
  intros Hn. unfold translated.
  destruct n as [|[|[|[|[|[|n]]]]]]; [| | | | | |exfalso; lia];
    (eexists; split; reflexivity).
Qed.

Lemma translated_literal r text v :
  Cxx.stoul text = Ok v ->
  translated 3 [(LDR_FROM_NEXT, Some r, None, Some text); (WORD_DECL, None, None, Some text)].
Proof.
  intros Hv. unfold translated. rewrite !GetCompiledBinary_cons. cbn [translate deref bind].
  rewrite Hv. cbn [bind]. eexists. split; reflexivity.
Qed.

Lemma translated_narrow root :
  parsed limit root ->
  (forall n, visits root n -> bound directory n) ->
  (forall f, visits root f -> narrow f) ->
  translated (code_words root) (table_sequence directory root).
Proof.
  induction root as [t c children IH] using Node_ind.
  intros Hparsed Hbound Hnarrow.
  pose proof (Hbound _ (visits_root _)) as Hroot.
  inversion Hparsed as [text v Hread Hv | name Hname | op l r Hop Hl Hr
                        | name args Hne Hlen Hargs]; subst.
  - cbn [table_sequence code_words type content].
    apply (translated_app 3 1 [_; _] [_]); [apply (translated_literal _ text v Hread)|].
    eexists; split; reflexivity.
  - destruct Hroot as (name' & a & [= <-] & Ha).
    cbn [table_sequence code_words type content]. unfold addr. simpl in Ha. rewrite Ha.
    apply (translated_app 3 2 [_; _] [_; _]);
      [apply (translated_literal _ _ _ (stoul_print_pointer a))|].
    eexists; split; reflexivity.
  - apply Forall_cons in IH as [IHl IH]. apply Forall_cons in IH as [IHr _].
    assert (translated (list_sum (map code_words [l; r]))
              (flat_map (table_sequence directory) [l; r])) as Hchildren.
    { cbn [flat_map map list_sum fold_right]. rewrite app_nil_r, Nat.add_0_r. apply translated_app.
      - apply (IHl Hl); intros n Hn; [apply Hbound | apply Hnarrow];
          eapply visits_left; eassumption.
      - apply (IHr Hr); intros n Hn; [apply Hbound | apply Hnarrow];
          eapply visits_right; eassumption. }
    destruct Hop as [-> | [-> | ->]]; cbn [table_sequence code_words type sub_expressions];
      (apply translated_app; [exact Hchildren | eexists; split; reflexivity]).
  - destruct Hroot as (name' & a & [= <-] & Ha).
    cbn [table_sequence code_words type content sub_expressions].
    unfold addr. simpl in Ha. rewrite Ha. rewrite <- Nat.add_assoc.
    apply translated_app.
    { clear Hne Hlen Hparsed.
      assert (forall x f, In x children -> visits x f -> bound directory f /\ narrow f) as Hin.
      { intros x f Hx Hf. split; [apply Hbound | apply Hnarrow];
          eapply visits_argument; eassumption. }
      clear Hbound Hnarrow.
      induction children as [|x children IHc]; [eexists; split; reflexivity|].
      apply Forall_cons in IH as [IHx IH]. apply Forall_cons in Hargs as [Hx Hargs].
      cbn [flat_map map list_sum fold_right]. apply translated_app.
      - apply (IHx Hx); intros f Hf; apply (Hin x f); auto; left; reflexivity.
      - apply (IHc IH Hargs). intros y f Hy. apply Hin. right. exact Hy. }
    apply translated_app.
    { apply translated_pops. apply (Hnarrow _ (visits_root _)). reflexivity. }
    apply (translated_app 3 2 [_; _] [_; _]);
      [apply (translated_literal _ _ _ (stoul_print_pointer a))|].
    eexists; split; reflexivity.
Qed.

Lemma translated_program root r :
  parsed limit root ->
  (forall n, visits root n -> bound directory n) ->
  (forall f, visits root f -> narrow f) ->
  compile_ directory root (add_header []) = Ok r ->
  translated (4 + code_words root) (add_footer r).
Proof using limit_fits.
  intros Hparsed Hbound Hnarrow Hr.
  rewrite (compile__table directory root (parsed_ast root Hparsed Hbound) (add_header [])) in Hr.
  injection Hr as <-. unfold add_footer, add_header.
  replace (4 + code_words root)%nat with (2 + code_words root + 2)%nat by lia.
  apply translated_app;
    [apply (translated_app 2 _ [_; _] (table_sequence directory root))|].
  - eexists; split; reflexivity.
  - apply translated_narrow; assumption.
  - eexists; split; reflexivity.
Qed.

Lemma jit_compile_parsed root :
  parsed limit root ->
  match jit_compile_tree_to_arm directory root with
  | Ok _ =>
      (forall n, visits root n -> bound directory n) /\
      (forall f, visits root f -> type f = Function ->
                 (length (sub_expressions f) <= 5)%nat)
  | Error err =>
      (err = NameNotFound /\ exists n, visits root n /\ ~ bound directory n) \/
      (err = InternalConsistency /\
       exists f, visits root f /\ type f = Function /\
                 (6 <= length (sub_expressions f))%nat)
  end.
Proof using limit_fits.
  intros Hparsed. unfold jit_compile_tree_to_arm, compile.
  pose proof (compile__walked directory limit root Hparsed (add_header [])) as Hwalk.
  destruct (compile_ directory root (add_header [])) as [r|err] eqn:Hr; cbn [bind].
  2:{ left. exact Hwalk. }
  simpl in Hwalk.
  destruct (narrow_or_wide root Hparsed) as [Hnarrow | (f & Hf & Htype & Hwide)].
  - destruct (translated_program root r Hparsed Hwalk Hnarrow Hr) as (ws & -> & _).
    split; [exact Hwalk | exact Hnarrow].
  - assert (Z.of_nat (length (sub_expressions f)) <= Cxx.INT_MAX) as Hmax.
    { pose proof (parsed_visits limit root f Hparsed Hf) as Hpf.
      inversion Hpf; subst; simpl in Htype; try discriminate; simpl; lia. }
    destruct (GetCompiledBinary (add_footer r)) as [ws|err] eqn:Hws.
    + exfalso. revert Hws.
      apply (GetCompiledBinary_refuses (POP_REG, Some LR, None, None) _ InternalConsistency);
        [|reflexivity].
      apply in_or_app. left.
      apply (compile__pops_LR directory root f Hf Htype ltac:(lia) _ _ Hr).
    + right. split; [|exists f; auto].
      apply (GetCompiledBinary_refusal (add_footer r)); [|exact Hws].
      apply Forall_app. split; [|repeat constructor].
      apply (compile__readable directory root (parsed_constants_readable limit root Hparsed)
               _ _ Hr).
      repeat constructor.
Qed.

End Pipeline.



(** X10: the words written for a tree the parser built are four, for
    the two instructions in front and the two behind, and those of its
    nodes: four for a constant, five for a variable, three for an
    operation, and for a call five and one for each argument. *)
Theorem jit_compile_writes_the_words_of_the_nodes :
  forall (directory : gmap string Z) (limit : nat) (root : Node) (ws : list Z),
    Z.of_nat limit <= Cxx.INT_MAX ->
    parsed limit root ->
    jit_compile_tree_to_arm directory root = Ok ws ->
    length ws = (4 + code_words root)%nat.
Proof.
  intros directory limit root ws Hlimit Hparsed Hws.
  pose proof (jit_compile_parsed directory limit Hlimit root Hparsed) as H.
  rewrite Hws in H. destruct H as [Hbound Hnarrow].
  unfold jit_compile_tree_to_arm, compile in Hws.
  destruct (compile_ directory root (add_header [])) as [r|err] eqn:Hr; cbn [bind] in Hws;
    [|discriminate].
  destruct (translated_program directory limit Hlimit root r Hparsed Hbound Hnarrow Hr)
    as (ws' & Hws' & Hlen).
  rewrite Hws in Hws'. injection Hws' as <-. exact Hlen.
Qed.

Lemma jit_compile_writes_30_words_for_demo_tree :
  length demo_code = (4 + code_words demo_tree)%nat.
Proof.
  apply (jit_compile_writes_the_words_of_the_nodes demo_map
           (String.length (GetRidOfSpaces demo_text)) demo_tree demo_code).
  - vm_compute. discriminate.
  - apply (ExpressionParser_parsed demo_text). reflexivity.
  - reflexivity.
Defined.

(** * From the text to the value *)

Section Linked.

Variable w : A32.world.
Variable directory : gmap string Z.
Variable top : Z.
Variable limit : nat.

Lemma parsed_evaluable root :
  parsed limit root ->
  (forall n, visits root n -> linked w directory top n) ->
  evaluable w directory top root.
Proof.
  induction root as [t c children IH] using Node_ind.
  intros Hparsed Hlinked.
  pose proof (Hlinked _ (visits_root _)) as Hroot.
  inversion Hparsed as [text v Hread Hv | name Hname | op l r Hop Hl Hr
                        | name args Hne Hlen Hargs]; subst.
  - apply evaluable_constant. exists text, v. split; [reflexivity | exact Hread].
  - destruct Hroot as (name' & a & [= <-] & Ha & Hrange & Haligned & Hout).
    apply (evaluable_variable w directory top name a); assumption.
  - apply Forall_cons in IH as [IHl IH]. apply Forall_cons in IH as [IHr _].
    apply evaluable_arithmetic; [exact Hop | apply (IHl Hl) | apply (IHr Hr)];
      intros n Hn; apply Hlinked.
    + eapply visits_left; eassumption.
    + eapply visits_right; eassumption.
  - destruct Hroot as (name' & a & g & [= <-] & Ha & Hrange & Hg & Harity & Hfew).
    simpl in Harity, Hfew.
    apply (evaluable_function w directory top name a g children); try assumption.
    + split; [destruct children; [congruence | simpl; lia] | exact Hfew].
    + rewrite List.Forall_forall in IH, Hargs. apply List.Forall_forall.
      intros x Hx. apply (IH x Hx (Hargs x Hx)).
      intros n Hn. apply Hlinked. eapply visits_argument; eassumption.
Qed.

End Linked.

Lemma evaluable_returns (w : A32.world) (directory : gmap string Z) (T : Node) (s : A32.state)
    (ws : list Z) :
  evaluable w directory (A32.regs s A32.SP) T ->
  jit_compile_tree_to_arm directory T = Ok ws ->
  A32.loaded (A32.mem s) (A32.regs s A32.PC) ws ->
  ready w s (Z.of_nat (length ws)) (stack_need T) ->
  exists steps s',
    A32.run w steps s = Some s' /\
    A32.regs s' A32.PC = A32.word (A32.regs s A32.LR) /\
    A32.regs s' 0 = value w directory (A32.mem s) T /\
    A32.regs s' A32.SP = A32.regs s A32.SP /\
    A32.regs s' 4 = A32.word (A32.regs s 4).
Proof.
  intros He Hws Hloaded (Hpc & Hpc0 & Hpc1 & Hsp & Hsp1 & Hlimit & Hroom & Haway & Hcalls).
  rewrite (jit_compile_evaluable w directory _ T He) in Hws. injection Hws as <-.
  apply (run_program w (A32.regs s A32.PC) _ (A32.regs s A32.SP)
           Hpc (conj Hpc0 Hpc1) Hsp Hsp1 Hlimit Haway Hcalls directory (A32.mem s) T s He);
    [|reflexivity | exact Hroom | reflexivity].
  split; [reflexivity|]. split; [lia|]. split; [lia|]. split; [exact Hpc | exact Hloaded].
Qed.

(** X11: from the text to the value. When the parser accepts a text and
    every variable of its tree is bound, through [externs], to the
    address of an aligned [int] outside the free stack, and every called
    function to a callable with as many parameters as the call has
    arguments, four at most, then [jit_compile_expression_to_arm] writes
    words, and a machine that runs them as A32 code comes to the return
    address with the value of the tree in r0, sp and r4 as on entry. *)
Theorem jit_compile_expression_to_arm_returns_the_value :
  forall (w : A32.world) (expression : string) (externs : list symbol_t)
         (directory : gmap string Z) (root : Node) (s : A32.state),
    read_externs externs ∅ = Ok directory ->
    ExpressionParser expression = Ok root ->
    (forall n, visits root n -> linked w directory (A32.regs s A32.SP) n) ->
    (exists ws, jit_compile_expression_to_arm expression externs = Ok ws) /\
    (forall ws,
        jit_compile_expression_to_arm expression externs = Ok ws ->
        A32.loaded (A32.mem s) (A32.regs s A32.PC) ws ->
        ready w s (Z.of_nat (length ws)) (stack_need root) ->
        exists steps s',
          A32.run w steps s = Some s' /\
          A32.regs s' A32.PC = A32.word (A32.regs s A32.LR) /\
          A32.regs s' 0 = value w directory (A32.mem s) root /\
          A32.regs s' A32.SP = A32.regs s A32.SP /\
          A32.regs s' 4 = A32.word (A32.regs s 4)).
Proof.
  intros w text externs directory root s Hexterns Hparse Hlinked.
  pose proof (parsed_evaluable w directory _ _ root (ExpressionParser_parsed text root Hparse)
                Hlinked) as He.
  unfold jit_compile_expression_to_arm. rewrite Hexterns, Hparse. cbn [bind]. split.
  - eexists. apply (jit_compile_evaluable w directory _ root He).
  - intros ws Hws. apply (evaluable_returns w directory root s ws He Hws).
Qed.

Lemma jit_compile_expression_to_arm_returns_the_value_of_demo_text :
  exists steps s',
    A32.run demo_world steps demo_state = Some s' /\
    A32.regs s' A32.PC = A32.word (A32.regs demo_state A32.LR) /\
    A32.regs s' 0 = value demo_world demo_map (A32.mem demo_state) demo_tree /\
    A32.regs s' A32.SP = A32.regs demo_state A32.SP /\
    A32.regs s' 4 = A32.word (A32.regs demo_state 4).
Proof.
  refine (proj2 (jit_compile_expression_to_arm_returns_the_value
                   demo_world demo_text demo_externs demo_map demo_tree demo_state _ _ _)
                demo_code _ _ _).
  - reflexivity.
  - reflexivity.
  - intros n Hn.
    apply visits_pair in Hn as [-> | [->%visits_leaf | Hn]]; [exact I | | |auto].
    + exists "x", 0x20000. repeat split; try reflexivity; try discriminate.
      right. vm_compute. discriminate.
    + apply visits_call in Hn as [-> | (a & Ha & Hn)].
      * exists "add", 0x9000. eexists. repeat split; try reflexivity; try discriminate.
        simpl. lia.
      * destruct Ha as [<- | [<- | []]].
        -- apply visits_leaf in Hn as ->. exact I.
        -- apply visits_pair in Hn as [-> | [->%visits_leaf | ->%visits_leaf]];
             [exact I | exact I | exact I | auto].
  - vm_compute. reflexivity.
  - vm_compute. repeat split.
  - unfold ready. change (A32.regs demo_state A32.PC) with 0x10000.
    change (A32.regs demo_state A32.SP) with 0x8000.
    change (A32.stack_limit demo_world) with 0x7000.
    repeat split; try (vm_compute; first [reflexivity | discriminate]).
    + right. vm_compute. discriminate.
    + intros a Ha. unfold demo_world, A32.callables.
      destruct (Z.eqb_spec a 0x9000) as [-> | _];
        [vm_compute in Ha; destruct Ha as [Ha _]; destruct (Ha eq_refl)|].
      destruct (Z.eqb_spec a 0x9100) as [-> | _]; [|reflexivity].
      vm_compute in Ha. destruct Ha as [Ha _]. destruct (Ha eq_refl).
Defined.

(** * Texts without parentheses *)

Section Flat.

Variable e : string.

Let size : nat := String.length e.

Lemma has_char_at (i : nat) (c : ascii) : has_char e i c -> char_at e i = Ok c.
Proof.
  intros H. destruct (char_at_inside e i (has_char_inside e i c H)) as (c' & Hn & ->).
  unfold has_char in H. congruence.
Qed.

Lemma has_char_some (i : nat) : (i < size)%nat -> exists c, has_char e i c.
Proof.
  intros H. destruct (char_at_inside e i H) as (c & Hn & _). exists c. exact Hn.
Qed.

Lemma plain_spec (c : ascii) :
  plain c = true ->
  is_Default (GetTypeFromChar c) = true /\ (c =? "(")%char = false /\
  (c =? ")")%char = false /\ (c =? " ")%char = false /\
  (c =? "*")%char = false /\ (c =? "-")%char = false /\ (c =? "+")%char = false.
Proof.
  unfold plain, is_operator, GetTypeFromChar.
  destruct (c =? "+")%char; [discriminate|]. destruct (c =? "-")%char; [discriminate|].
  destruct (c =? "*")%char; [discriminate|]. cbn.
  destruct (c =? "(")%char; [discriminate|]. destruct (c =? ")")%char; [discriminate|].
  destruct (c =? " ")%char; [discriminate|]. auto 10.
Qed.

Lemma is_operator_spec (c : ascii) :
  is_operator c = true ->
  is_Default (GetTypeFromChar c) = false /\ (c =? "(")%char = false /\
  (c =? ")")%char = false /\ (c =? " ")%char = false.
Proof.
  unfold is_operator, GetTypeFromChar.
  destruct (Ascii.eqb_spec c "+") as [->|]; [auto|].
  destruct (Ascii.eqb_spec c "-") as [->|]; [auto|].
  destruct (Ascii.eqb_spec c "*") as [->|]; [auto|]. discriminate.
Qed.

Lemma operation_at_operator (i : nat) (t : ExpressionType) :
  operation_at e i t -> exists c, has_char e i c /\ is_operator c = true /\ GetTypeFromChar c = t.
Proof.
  intros (c & Hc & Ht & Hop). exists c. split; [exact Hc|]. split; [|exact Ht].
  unfold is_operator. rewrite Ht. destruct Hop as [-> | [-> | ->]]; reflexivity.
Qed.

Lemma operator_operation_at (i : nat) (c : ascii) :
  has_char e i c -> is_operator c = true -> operation_at e i (GetTypeFromChar c).
Proof.
  intros Hc Hop. exists c. split; [exact Hc|]. split; [reflexivity|].
  apply GetTypeFromChar_operation. apply is_operator_spec in Hop. apply Hop.
Qed.

Lemma skip_operators_plain (fuel i : nat) (c : ascii) :
  has_char e i c -> plain c = true -> skip_operators e (S fuel) i = Ok i.
Proof.
  intros Hc Hplain. cbn [skip_operators]. rewrite (has_char_at i c Hc). cbn [bind].
  apply plain_spec in Hplain as (_ & _ & _ & _ & -> & -> & ->). reflexivity.
Qed.

Section Split.

Variables l r p : nat.
Variable o : ExpressionType.

Hypothesis range_flat : flat e l r.
Hypothesis split_inside : (l <= p < r)%nat.
Hypothesis split_operation : operation_at e p o.
Hypothesis after_split :
  forall i t, (p < i < r)%nat -> operation_at e i t -> GetPriority o < GetPriority t.
Hypothesis before_split :
  forall i t, (l <= i < p)%nat -> operation_at e i t -> GetPriority o <= GetPriority t.

Lemma find_operation_flat (fuel : nat) :
  forall (i : nat) (type : option ExpressionType) (pos : nat),
    (l <= i <= r)%nat -> (r - i < fuel)%nat ->
    ((i <= p)%nat ->
     match type with
     | None => True
     | Some t => (l < i)%nat /\ GetPriority o <= GetPriority t
     end) ->
    ((p < i)%nat -> type = Some o /\ pos = p) ->
    find_operation e r fuel i type pos 0 = Ok (Some o, p).
Proof using range_flat split_inside split_operation after_split before_split.
  destruct range_flat as (Hsize & Hchars & Hops).
  induction fuel as [|fuel IH]; intros i type pos Hi Hfuel Hbefore Hafter; [lia|].
  cbn [find_operation]. destruct (Nat.eqb_spec i r) as [->|Hne].
  - destruct (Hafter ltac:(lia)) as [-> ->]. reflexivity.
  - destruct (has_char_some i ltac:(lia)) as [c Hc].
    rewrite (has_char_at i c Hc). cbn [bind].
    destruct (Hchars i c ltac:(lia) Hc) as [Hplain | Hop].
    + pose proof (plain_spec c Hplain) as (Hd & -> & -> & _). cbn [Z.eqb negb]. rewrite Hd.
      assert (i <> p) as Hip.
      { intros ->. apply operation_at_operator in split_operation as (c' & Hc' & Hop' & _).
        unfold has_char in Hc, Hc'. rewrite Hc in Hc'. injection Hc' as <-.
        unfold is_operator in Hop'. rewrite Hd in Hop'. discriminate. }
      apply IH; [lia | lia | |].
      * intros Hle. specialize (Hbefore ltac:(lia)). destruct type; [|exact I].
        split; [lia | apply Hbefore].
      * intros Hlt. apply Hafter. lia.
    + pose proof (is_operator_spec c Hop) as (Hd & -> & -> & _). cbn [Z.eqb negb]. rewrite Hd.
      destruct (Hops i c ltac:(lia) Hc Hop) as (Hnext & Hplain_next & Hplain_prev).
      pose proof (operator_operation_at i c Hc Hop) as Hat.
      destruct type as [t|].
      * (* an operation is held already *)
        assert (l < i)%nat as Hli.
        { destruct (Nat.le_gt_cases i p) as [Hle|Hgt]; [apply (Hbefore Hle)|lia]. }
        destruct i as [|j]; [lia|].
        destruct (has_char_some j ltac:(lia)) as [c' Hc'].
        pose proof (Hplain_prev j c' eq_refl ltac:(lia) Hc') as Hprev.
        rewrite (has_char_at j c' Hc').
        destruct (has_char_some (S (S j)) ltac:(lia)) as [c'' Hc''].
        assert (skip_operators e (scan_fuel e) (S (S j)) = Ok (S (S j))) as Hskip
            by (apply (skip_operators_plain _ _ c'' Hc''), Hplain_next, Hc'').
        assert (S (S j) <> p) as Hnp.
        { intros <-. apply operation_at_operator in split_operation as (c3 & Hc3 & Hop3 & _).
          unfold has_char in Hc'', Hc3. rewrite Hc'' in Hc3. injection Hc3 as <-.
          apply Hplain_next in Hc''. apply plain_spec in Hc'' as [Hd3 _].
          unfold is_operator in Hop3. rewrite Hd3 in Hop3. discriminate. }
        apply plain_spec in Hprev as (_ & _ & _ & _ & Hstar & _).
        destruct (Nat.lt_trichotomy (S j) p) as [Hlt | [Heq | Hgt]].
        -- (* before the split *)
           destruct (Hbefore ltac:(lia)) as [_ Ht].
           pose proof (before_split (S j) _ ltac:(lia) Hat) as Hc_prio.
           destruct (GetPriority (GetTypeFromChar c) <=? GetPriority t);
             cbn [bind]; rewrite ?Hstar; cbn [negb bind]; rewrite Hskip; cbn [bind];
             (apply IH; [lia | lia | intros _; split; [lia | assumption] | intros; lia]).
        -- (* at the split *)
           destruct (Hbefore ltac:(lia)) as [_ Ht].
           assert (GetTypeFromChar c = o) as Hco.
           { destruct split_operation as (c3 & Hc3 & Ht3 & _). rewrite <- Heq in Hc3.
             unfold has_char in Hc. rewrite Hc in Hc3. injection Hc3 as <-. exact Ht3. }
           rewrite Hco.
           destruct (Z.leb_spec (GetPriority o) (GetPriority t)) as [_|]; [|lia].
           cbn [bind]. rewrite Hstar. cbn [negb bind]. rewrite Hskip. cbn [bind].
           apply IH; [lia | lia | intros; lia | intros _; split; [reflexivity | exact Heq]].
        -- (* behind the split *)
           destruct (Hafter ltac:(lia)) as [[= ->] ->].
           pose proof (after_split (S j) _ ltac:(lia) Hat) as Hc_prio.
           destruct (Z.leb_spec (GetPriority (GetTypeFromChar c)) (GetPriority o)) as [|_];
             [lia|].
           cbn [bind]. rewrite Hskip. cbn [bind].
           apply IH; [lia | lia | intros; lia | intros _; split; reflexivity].
      * (* the first operation of the range *)
        assert (i <= p)%nat as Hle.
        { destruct (Nat.le_gt_cases i p) as [|Hgt]; [assumption|].
          destruct (Hafter Hgt) as [[=] _]. }
        apply IH; [lia | lia | |].
        -- intros Hle'. split; [lia|]. apply (before_split i); [lia | exact Hat].
        -- intros Hlt. assert (i = p) as -> by lia. split; [|reflexivity]. f_equal.
           destruct split_operation as (c3 & Hc3 & Ht3 & _).
           unfold has_char in Hc. rewrite Hc in Hc3. injection Hc3 as <-. exact Ht3.
Qed.

Lemma FindArithmeticOperation_flat :
  FindArithmeticOperation e l r = Ok (Some o, p).
Proof using range_flat split_inside split_operation after_split before_split.
  unfold FindArithmeticOperation.
  destruct range_flat as (Hsize & _).
  apply find_operation_flat; [lia | unfold scan_fuel; fold size; lia | intros; exact I | intros; lia].
Qed.

End Split.

End Flat.

Section Reading.

Variable e : string.

Let size : nat := String.length e.

Lemma surplus_parentheses_none (fuel l r : nat) (c : ascii) :
  char_at e l = Ok c -> (c =? "(")%char = false ->
  surplus_parentheses e (S fuel) l r 0 = Ok 0%nat.
Proof.
  intros Hc Hopen. cbn [surplus_parentheses]. rewrite Nat.add_0_r, Hc. cbn [bind].
  rewrite Hopen. reflexivity.
Qed.

Lemma find_parenthesis_none (r fuel i : nat) :
  (i <= r <= size)%nat -> (r - i < fuel)%nat ->
  (forall k c, (i <= k < r)%nat -> has_char e k c -> (c =? "(")%char = false) ->
  find_parenthesis e r fuel i = Ok r.
Proof.
  revert i. induction fuel as [|fuel IH]; intros i Hi Hfuel Hnone; [lia|].
  cbn [find_parenthesis]. destruct (Nat.eqb_spec i r) as [->|Hne]; [reflexivity|].
  destruct (has_char_some e i ltac:(fold size; lia)) as [c Hc].
  rewrite (has_char_at e i c Hc). cbn [bind]. rewrite (Hnone i c ltac:(lia) Hc).
  apply IH; [lia | lia|]. intros k c' Hk. apply Hnone. lia.
Qed.

Lemma IsConstant_digit (l : nat) (c : ascii) :
  char_at e l = Ok c -> IsConstant e l = Ok (is_digit c).
Proof. intros Hc. unfold IsConstant. rewrite Hc. reflexivity. Qed.

(** What [ParseExpression] makes of a range once the operation that
    splits it is found. *)
Lemma ParseExpression_split (depth : nat) (node : Node) (l r p : nat) (c : ascii)
    (o : ExpressionType) (x y : result Node) :
  sub_expressions node = [] ->
  char_at e l = Ok c -> (c =? "(")%char = false ->
  FindArithmeticOperation e l r = Ok (Some o, p) ->
  ParseExpression e depth fresh_Node l p = Some x ->
  ParseExpression e depth fresh_Node (S p) r = Some y ->
  ParseExpression e (S depth) node l r = Some (combine o x y).
Proof.
  intros Hnode Hc Hopen Hfind Hx Hy. cbn [ParseExpression].
  unfold scan_fuel at 1. rewrite (surplus_parentheses_none _ l r c Hc Hopen).
  cbn [bind_deep]. rewrite Nat.add_0_r, Nat.sub_0_r, Hfind. cbn [bind_deep].
  unfold ParseArithmetic. rewrite Hnode. cbn [app nth]. rewrite Hx.
  destruct x as [first|err]; cbn [bind_deep combine bind]; [|reflexivity].
  change (nth 1 (<[0%nat:=first]> [fresh_Node; fresh_Node]) fresh_Node) with fresh_Node.
  rewrite Hy. destruct y as [second|err]; reflexivity.
Qed.

Lemma ParseExpression_nothing (depth : nat) (node : Node) (l : nat) (c : ascii) :
  sub_expressions node = [] ->
  char_at e l = Ok c -> (c =? "(")%char = false -> is_digit c = false ->
  ParseExpression e (S depth) node l l = Some (leaf "").
Proof.
  intros Hnode Hc Hopen Hdigit. cbn [ParseExpression].
  unfold scan_fuel at 1. rewrite (surplus_parentheses_none _ l l c Hc Hopen).
  cbn [bind_deep]. rewrite Nat.add_0_r, Nat.sub_0_r.
  unfold FindArithmeticOperation, scan_fuel at 1. cbn [find_operation].
  rewrite Nat.eqb_refl. cbn [bind_deep].
  rewrite (IsConstant_digit l c Hc), Hdigit. cbn [bind_deep].
  unfold IsFunction, scan_fuel at 1. cbn [find_parenthesis]. rewrite Nat.eqb_refl.
  cbn [bind]. rewrite Nat.eqb_refl. cbn [negb bind_deep]. unfold ParseVariable.
  destruct (Z.ltb_spec (Z.of_nat l - Z.of_nat l) 1); [|lia]. rewrite Hnode. reflexivity.
Qed.

Lemma ParseExpression_atom (depth : nat) (node : Node) (l r : nat) :
  sub_expressions node = [] ->
  (l < r <= size)%nat ->
  (forall i c, (l <= i < r)%nat -> has_char e i c -> plain c = true) ->
  ParseExpression e (S depth) node l r = Some (leaf (substring l (r - l) e)).
Proof.
  intros Hnode Hrange Hplain.
  destruct (has_char_some e l ltac:(fold size; lia)) as [c Hc].
  pose proof (plain_spec c (Hplain l c ltac:(lia) Hc)) as (Hd & Hopen & _).
  cbn [ParseExpression].
  unfold scan_fuel at 1. rewrite (surplus_parentheses_none _ l r c (has_char_at e l c Hc) Hopen).
  cbn [bind_deep]. rewrite Nat.add_0_r, Nat.sub_0_r.
  assert (FindArithmeticOperation e l r = Ok (None, l)) as ->.
  { apply FindArithmeticOperation_none; [fold size; lia|].
    intros i Hi [_ (t & Hat)]. apply operation_at_operator in Hat as (c' & Hc' & Hop & _).
    apply (Hplain i c' Hi) in Hc'. apply plain_spec in Hc' as [Hd' _].
    unfold is_operator in Hop. rewrite Hd' in Hop. discriminate. }
  cbn [bind_deep]. rewrite (IsConstant_digit l c (has_char_at e l c Hc)). cbn [bind_deep].
  assert (exists rest, substring l (r - l) e = String c rest) as [rest Hleaf].
  { replace (r - l)%nat with (S (r - l - 1)) by lia. apply substring_head.
    rewrite get_chars. exact Hc. }
  rewrite Hleaf. cbn [leaf]. destruct (is_digit c).
  - unfold ParseConstant. rewrite Hleaf, Hnode. reflexivity.
  - unfold IsFunction.
    rewrite (find_parenthesis_none r (scan_fuel e) l); [|lia | unfold scan_fuel; fold size; lia|].
    + cbn [bind]. rewrite Nat.eqb_refl. cbn [negb bind_deep]. unfold ParseVariable.
      destruct (Z.ltb_spec (Z.of_nat r - Z.of_nat l) 1); [lia|].
      destruct (Nat.ltb_spec (String.length e) l); [unfold size in *; lia|].
      rewrite Hleaf, Hnode. reflexivity.
    + intros k c' Hk Hc'. apply (Hplain k c' Hk) in Hc'. apply plain_spec in Hc'. apply Hc'.
Qed.

(** What a product is made of. *)
Lemma product_of_flat (l r : nat) (x : result Node) :
  product_of e l r x ->
  (l < r)%nat /\ flat e l r /\
  (forall i c, (l <= i < r)%nat -> has_char e i c -> is_operator c = true -> c = "*"%char) /\
  (forall c, has_char e l c -> plain c = true) /\
  (forall j c, r = S j -> has_char e j c -> plain c = true).
Proof.
  induction 1 as [l r Hrange Hplain | l p r x Hx IH Hstar Hrange Hplain].
  - assert (forall i c, (l <= i < r)%nat -> has_char e i c -> is_operator c = true -> False)
      as Hnone.
    { intros i c Hi Hc Hop. apply (Hplain i c Hi) in Hc. apply plain_spec in Hc as [Hd _].
      unfold is_operator in Hop. rewrite Hd in Hop. discriminate. }
    split; [lia|]. split; [|split; [|split]].
    + split; [lia|]. split; [intros i c Hi Hc; left; apply (Hplain i c Hi Hc)|].
      intros i c Hi Hc Hop. destruct (Hnone i c Hi Hc Hop).
    + intros i c Hi Hc Hop. destruct (Hnone i c Hi Hc Hop).
    + intros c. apply Hplain. lia.
    + intros j c ->. apply Hplain. lia.
  - destruct IH as (Hlp & (Hsize & Hchars & Hops) & Hstars & Hfirst & Hlast).
    split; [lia|]. split; [|split; [|split]].
    + split; [lia|]. split.
      * intros i c Hi Hc. destruct (Nat.lt_trichotomy i p) as [Hlt | [-> | Hgt]].
        -- apply (Hchars i c); [lia | exact Hc].
        -- right. unfold has_char in Hc, Hstar. rewrite Hstar in Hc. injection Hc as <-.
           reflexivity.
        -- left. apply (Hplain i c); [lia | exact Hc].
      * intros i c Hi Hc Hop. destruct (Nat.lt_trichotomy i p) as [Hlt | [-> | Hgt]].
        -- destruct (Hops i c ltac:(lia) Hc Hop) as (Hnext & Hn & Hp).
           split; [lia|]. split; [exact Hn | exact Hp].
        -- split; [lia|]. split; [intros c'; apply Hplain; lia|].
           intros j c' -> _. apply Hlast. reflexivity.
        -- apply (Hplain i c) in Hc; [|lia]. apply plain_spec in Hc as [Hd _].
           unfold is_operator in Hop. rewrite Hd in Hop. discriminate.
    + intros i c Hi Hc Hop. destruct (Nat.lt_trichotomy i p) as [Hlt | [-> | Hgt]].
      * apply (Hstars i c); [lia | exact Hc | exact Hop].
      * unfold has_char in Hc, Hstar. rewrite Hstar in Hc. injection Hc as <-. reflexivity.
      * apply (Hplain i c) in Hc; [|lia]. apply plain_spec in Hc as [Hd _].
        unfold is_operator in Hop. rewrite Hd in Hop. discriminate.
    + exact Hfirst.
    + intros j c ->. apply Hplain. lia.
Qed.

Lemma product_of_parsed (l r : nat) (x : result Node) :
  product_of e l r x ->
  forall depth node,
    (r - l < depth)%nat -> sub_expressions node = [] ->
    ParseExpression e depth node l r = Some x.
Proof.
  induction 1 as [l r Hrange Hplain | l p r x Hx IH Hstar Hrange Hplain];
    intros depth node Hdepth Hnode; (destruct depth as [|depth]; [lia|]).
  - apply ParseExpression_atom; assumption.
  - pose proof (product_of_flat l p x Hx) as (Hlp & Hflat & Hstars & Hfirst & Hlast).
    pose proof (product_of_flat l r _ (product_times e l p r x Hx Hstar Hrange Hplain))
      as (_ & Hflat' & _).
    destruct (has_char_some e l ltac:(fold size; lia)) as [c Hc].
    pose proof (plain_spec c (Hfirst c Hc)) as (_ & Hopen & _).
    apply (ParseExpression_split depth node l r p c Product);
      [exact Hnode | apply has_char_at, Hc | exact Hopen | | |].
    + apply (FindArithmeticOperation_flat e l r p Product Hflat'); [lia | | |].
      * exists "*"%char. auto.
      * intros i t Hi Hat. apply operation_at_operator in Hat as (c' & Hc' & Hop & _).
        apply (Hplain i c' Hi) in Hc'. apply plain_spec in Hc' as [Hd _].
        unfold is_operator in Hop. rewrite Hd in Hop. discriminate.
      * intros i t Hi Hat. apply operation_at_operator in Hat as (c' & Hc' & Hop & <-).
        rewrite (Hstars i c' Hi Hc' Hop). reflexivity.
    + apply IH; [lia | reflexivity].
    + destruct depth as [|depth]; [lia|]. apply ParseExpression_atom; [reflexivity | lia|].
      intros i c' Hi. apply Hplain. lia.
Qed.

Lemma additive_operator (c : ascii) :
  additive c -> is_operator c = true /\ GetPriority (GetTypeFromChar c) = 0 /\
                (c =? "(")%char = false /\ is_digit c = false.
Proof. intros [-> | ->]; repeat split. Qed.

(** What a sum is made of. *)
Lemma sum_of_flat (l r : nat) (x : result Node) :
  sum_of e l r x ->
  (l < r)%nat /\ flat e l r /\
  (forall c, has_char e l c -> (c =? "(")%char = false) /\
  (forall j c, r = S j -> has_char e j c -> plain c = true).
Proof.
  induction 1 as [l r x Hx | l r c y Hc Hadd Hy | l p r c x y Hx IH Hc Hadd Hy].
  - destruct (product_of_flat l r x Hx) as (Hlr & Hflat & _ & Hfirst & Hlast).
    split; [exact Hlr|]. split; [exact Hflat|]. split; [|exact Hlast].
    intros c Hc. apply Hfirst, plain_spec in Hc. apply Hc.
  - destruct (product_of_flat (S l) r y Hy) as (Hlr & (Hsize & Hchars & Hops) & _ & Hfirst & Hlast).
    destruct (additive_operator c Hadd) as (Hop & _ & Hopen & _).
    split; [lia|]. split; [|split; [|exact Hlast]].
    + split; [exact Hsize|]. split.
      * intros i c' Hi Hc'. destruct (Nat.eq_dec i l) as [->|].
        -- right. unfold has_char in Hc, Hc'. rewrite Hc in Hc'. injection Hc' as <-. exact Hop.
        -- apply (Hchars i c'); [lia | exact Hc'].
      * intros i c' Hi Hc' Hop'. destruct (Nat.eq_dec i l) as [->|].
        -- split; [lia|]. split; [exact Hfirst|]. intros j c'' -> Hj. lia.
        -- destruct (Hops i c' ltac:(lia) Hc' Hop') as (Hnext & Hn & Hp).
           split; [exact Hnext|]. split; [exact Hn|].
           intros j c'' -> Hj Hc''. destruct (Nat.eq_dec j l) as [->|].
           ++ apply Hfirst in Hc'. apply plain_spec in Hc' as [Hd _].
              unfold is_operator in Hop'. rewrite Hd in Hop'. discriminate.
           ++ apply (Hp j c'' eq_refl); [lia | exact Hc''].
    + intros c' Hc'. unfold has_char in Hc, Hc'. rewrite Hc in Hc'. injection Hc' as <-.
      exact Hopen.
  - destruct IH as (Hlp & (Hsize0 & Hchars0 & Hops0) & Hopen0 & Hlast0).
    destruct (product_of_flat (S p) r y Hy) as (Hpr & (Hsize & Hchars & Hops) & _ & Hfirst & Hlast).
    destruct (additive_operator c Hadd) as (Hop & _ & Hopen & _).
    split; [lia|]. split; [|split; [exact Hopen0 | exact Hlast]].
    split; [exact Hsize|]. split.
    + intros i c' Hi Hc'. destruct (Nat.lt_trichotomy i p) as [Hlt | [-> | Hgt]].
      * apply (Hchars0 i c'); [lia | exact Hc'].
      * right. unfold has_char in Hc, Hc'. rewrite Hc in Hc'. injection Hc' as <-. exact Hop.
      * apply (Hchars i c'); [lia | exact Hc'].
    + intros i c' Hi Hc' Hop'. destruct (Nat.lt_trichotomy i p) as [Hlt | [-> | Hgt]].
      * destruct (Hops0 i c' ltac:(lia) Hc' Hop') as (Hnext & Hn & Hp).
        split; [lia|]. split; [exact Hn | exact Hp].
      * split; [lia|]. split; [exact Hfirst|]. intros j c'' -> _. apply Hlast0. reflexivity.
      * destruct (Hops i c' ltac:(lia) Hc' Hop') as (Hnext & Hn & Hp).
        split; [exact Hnext|]. split; [exact Hn|].
        intros j c'' -> Hj Hc''. destruct (Nat.eq_dec j p) as [->|].
        -- apply Hfirst in Hc'. apply plain_spec in Hc' as [Hd _].
           unfold is_operator in Hop'. rewrite Hd in Hop'. discriminate.
        -- apply (Hp j c'' eq_refl); [lia | exact Hc''].
Qed.

Lemma GetPriority_nonneg (t : ExpressionType) : 0 <= GetPriority t.
Proof. destruct t; simpl; lia. Qed.

Lemma sum_of_parsed (l r : nat) (x : result Node) :
  sum_of e l r x ->
  forall depth node,
    (r - l < depth)%nat -> sub_expressions node = [] ->
    ParseExpression e depth node l r = Some x.
Proof.
  induction 1 as [l r x Hx | l r c y Hc Hadd Hy | l p r c x y Hx IH Hc Hadd Hy];
    intros depth node Hdepth Hnode.
  - apply product_of_parsed; assumption.
  - destruct depth as [|depth]; [lia|].
    pose proof (sum_of_flat l r _ (sum_signed e l r c y Hc Hadd Hy)) as (_ & Hflat & _).
    destruct (product_of_flat (S l) r y Hy) as (Hlr & _ & Hstars & _).
    destruct (additive_operator c Hadd) as (Hop & Hprio & Hopen & Hdigit).
    apply (ParseExpression_split depth node l r l c);
      [exact Hnode | apply has_char_at, Hc | exact Hopen | | |].
    + apply (FindArithmeticOperation_flat e l r l _ Hflat); [lia | | |].
      * apply operator_operation_at; assumption.
      * intros i t Hi Hat. apply operation_at_operator in Hat as (c' & Hc' & Hop' & <-).
        rewrite (Hstars i c' ltac:(lia) Hc' Hop'), Hprio. simpl. lia.
      * intros i t Hi. lia.
    + destruct depth as [|depth]; [lia|].
      apply (ParseExpression_nothing depth fresh_Node l c eq_refl (has_char_at e l c Hc) Hopen Hdigit).
    + apply product_of_parsed; [exact Hy | lia | reflexivity].
  - destruct depth as [|depth]; [lia|].
    pose proof (sum_of_flat l r _ (sum_more e l p r c x y Hx Hc Hadd Hy)) as (_ & Hflat & _).
    pose proof (sum_of_flat l p x Hx) as (Hlp & _ & Hopen0 & _).
    destruct (product_of_flat (S p) r y Hy) as (Hpr & _ & Hstars & _).
    destruct (additive_operator c Hadd) as (Hop & Hprio & Hopen & Hdigit).
    destruct (has_char_some e l ltac:(apply (has_char_inside e p c) in Hc; lia)) as [c0 Hc0].
    apply (ParseExpression_split depth node l r p c0);
      [exact Hnode | apply has_char_at, Hc0 | apply Hopen0, Hc0 | | |].
    + apply (FindArithmeticOperation_flat e l r p _ Hflat); [lia | | |].
      * apply operator_operation_at; assumption.
      * intros i t Hi Hat. apply operation_at_operator in Hat as (c' & Hc' & Hop' & <-).
        rewrite (Hstars i c' ltac:(lia) Hc' Hop'), Hprio. simpl. lia.
      * intros i t Hi Hat. rewrite Hprio. apply GetPriority_nonneg.
    + apply IH; [lia | reflexivity].
    + apply product_of_parsed; [exact Hy | lia | reflexivity].
Qed.

Lemma GetRidOfSpaces_same :
  (forall i c, has_char e i c -> (c =? " ")%char = false) -> GetRidOfSpaces e = e.
Proof.
  intros Hnone. apply chars_inj. unfold GetRidOfSpaces.
  rewrite (for_each_char_push (fun c => negb (c =? " ")%char)). cbn [list_ascii_of_string app].
  unfold has_char in Hnone. revert Hnone. generalize (list_ascii_of_string e) as chars.
  induction chars as [|c chars IH]; intros Hnone; [reflexivity|].
  cbn [List.filter]. rewrite (Hnone 0%nat c eq_refl). cbn [negb]. f_equal.
  apply IH. intros i c' Hc'. apply (Hnone (S i) c' Hc').
Qed.

End Reading.

(** X12: a text without parentheses and spaces that reads as a sum of
    products of names and numbers, with or without a sign in front, is
    parsed by the usual rules: [*] binds tighter than [+] and [-],
    operations of equal rank are grouped from the left, a leading sign
    stands for 0 plus or minus the first product; a number becomes the
    constant [std::stoi] reads, a name a variable. *)
Theorem ExpressionParser_reads_sums_of_products :
  forall (expression : string) (tree : result Node),
    sum_of expression 0 (String.length expression) tree ->
    ExpressionParser expression = tree.
Proof.
  intros e x Hsum.
  destruct (sum_of_flat e 0 (String.length e) x Hsum) as (_ & (_ & Hchars & _) & _).
  assert (GetRidOfSpaces e = e) as Hsame.
  { apply GetRidOfSpaces_same. intros i c Hc.
    destruct (Hchars i c ltac:(split; [lia | apply (has_char_inside e i c Hc)]) Hc) as [H | H].
    - apply plain_spec in H. apply H.
    - apply is_operator_spec in H. apply H. }
  unfold ExpressionParser. rewrite Hsame.
  rewrite (sum_of_parsed e 0 (String.length e) x Hsum (parse_depth e) fresh_Node);
    [reflexivity | unfold parse_depth; nia | reflexivity].
Qed.

Ltac plain_range :=
  let i := fresh "i" in let c := fresh "c" in
  let Hi := fresh "Hi" in let Hc := fresh "Hc" in
  intros i c Hi Hc;
  do 20 (destruct i as [|i]; [try lia; try (injection Hc as <-; reflexivity)|]); lia.

Lemma ExpressionParser_reads_a_minus_b_times_2_plus_c :
  ExpressionParser "a-b*2+c"
  = Ok (binary Plus
          (binary Minus (variable "a") (binary Product (variable "b") (constant "0x2")))
          (variable "c")).
Proof.
  apply (ExpressionParser_reads_sums_of_products "a-b*2+c").
  apply (sum_more "a-b*2+c" 0 5 7 "+"
           (Ok (binary Minus (variable "a") (binary Product (variable "b") (constant "0x2"))))
           (Ok (variable "c")));
    [|reflexivity | left; reflexivity|].
  - apply (sum_more "a-b*2+c" 0 1 5 "-" (Ok (variable "a"))
             (Ok (binary Product (variable "b") (constant "0x2"))));
      [|reflexivity | right; reflexivity|].
    + apply sum_product. apply (product_atom "a-b*2+c" 0 1); [simpl; lia | plain_range].
    + apply (product_times "a-b*2+c" 2 3 5 (Ok (variable "b")));
        [|reflexivity | simpl; lia | plain_range].
      apply (product_atom "a-b*2+c" 2 3); [simpl; lia | plain_range].
  - apply (product_atom "a-b*2+c" 6 7); [simpl; lia | plain_range].
Defined.

(** * The table of externals *)

Section Externs.

Let entry (binding : string * Z) : symbol_t := mkSymbol (Some (fst binding)) (snd binding).

Let bind_entry (address_map : gmap string Z) (binding : string * Z) : gmap string Z :=
  <[fst binding := snd binding]> address_map.

Lemma read_externs_entries (entries : list (string * Z)) (rest : list symbol_t)
    (address_map : gmap string Z) :
  Forall (fun binding => snd binding <> 0) entries ->
  read_externs (map entry entries ++ rest) address_map
  = read_externs rest (fold_left bind_entry entries address_map).
Proof.
  revert address_map. induction entries as [|[n p] entries IH]; intros address_map Hall;
    [reflexivity|].
  apply Forall_cons_1 in Hall as [Hp Hall]. simpl in Hp.
  cbn [map app read_externs entry fst snd pointer name].
  destruct (Z.eqb_spec p 0); [contradiction|]. apply (IH _ Hall).
Qed.

Lemma fold_left_bind_entry (entries : list (string * Z)) :
  fold_left bind_entry entries ∅ = list_to_map (rev entries).
Proof.
  induction entries as [|binding entries IH] using rev_ind; [reflexivity|].
  rewrite fold_left_app, rev_app_distr, IH. reflexivity.
Qed.

End Externs.

(** X13: the loop over [externs] reads the entries up to the first one
    with a null pointer or a null name and no further; of two entries
    with the same name the later one stays in the map. An array without
    such an entry is read past its end. *)
Theorem read_externs_stops_at_the_first_null :
  forall (entries : list (string * Z)) (last : symbol_t) (rest : list symbol_t),
    Forall (fun binding => snd binding <> 0) entries ->
    pointer last = 0 \/ name last = None ->
    read_externs (map (fun binding => mkSymbol (Some (fst binding)) (snd binding)) entries
                    ++ last :: rest) ∅
    = Ok (list_to_map (rev entries)) /\
    read_externs (map (fun binding => mkSymbol (Some (fst binding)) (snd binding)) entries) ∅
    = Error Undefined.
Proof.
  intros entries last rest Hall Hlast. split.
  - rewrite (read_externs_entries entries (last :: rest) ∅ Hall), fold_left_bind_entry.
    cbn [read_externs]. destruct Hlast as [-> | Hname]; [reflexivity|].
    rewrite Hname. destruct (pointer last =? 0); reflexivity.
  - rewrite <- (app_nil_r (map _ entries)).
    rewrite (read_externs_entries entries [] ∅ Hall). reflexivity.
Qed.

Lemma read_externs_keeps_the_later_of_two :
  read_externs (map (fun binding => mkSymbol (Some (fst binding)) (snd binding))
                    [("x", 0x20000); ("f", 0x9000); ("x", 0x20004)]
                  ++ mkSymbol None 0 :: [mkSymbol (Some "g") 0x9100]) ∅
  = Ok (list_to_map (rev [("x", 0x20000); ("f", 0x9000); ("x", 0x20004)])) /\
  read_externs (map (fun binding => mkSymbol (Some (fst binding)) (snd binding))
                    [("x", 0x20000); ("f", 0x9000); ("x", 0x20004)]) ∅
  = Error Undefined.
Proof.
  apply (read_externs_stops_at_the_first_null
           [("x", 0x20000); ("f", 0x9000); ("x", 0x20004)] (mkSymbol None 0)
           [mkSymbol (Some "g") 0x9100]).
  - repeat constructor; simpl; discriminate.
  - left. reflexivity.
Defined.

(** * What the parser and the emitter can raise *)

Section Failures.

Variable e : string.

Let size : nat := String.length e.

Lemma char_at_fails (i : nat) err : char_at e i = Error err -> err = Undefined.
Proof. unfold char_at. destruct (get i e); [discriminate|]. destruct (_ =? _)%nat; congruence. Qed.

Lemma for_each_from_fails {State} (f : State -> ascii -> State) count it st err :
  for_each_from e f count it st = Error err -> err = Undefined.
Proof.
  revert it st. induction count as [|count IH]; intros it st; cbn [for_each_from]; [discriminate|].
  destruct (char_at e it) eqn:Hc; cbn [bind]; [apply IH|].
  intros [= <-]. apply (char_at_fails it _ Hc).
Qed.

Lemma IsParBalance_fails l r err : IsParBalance e l r = Error err -> err = Undefined.
Proof.
  unfold IsParBalance, for_each_range. destruct (r <? l)%nat; cbn [bind]; [congruence|].
  destruct (for_each_from _ _ _ _ _) eqn:H; cbn [bind]; [discriminate|].
  intros [= <-]. apply (for_each_from_fails _ _ _ _ _ H).
Qed.

Lemma surplus_parentheses_fails fuel l r s0 err :
  surplus_parentheses e fuel l r s0 = Error err -> err = Undefined.
Proof.
  revert s0. induction fuel as [|fuel IH]; intros s0; cbn [surplus_parentheses]; [congruence|].
  destruct (char_at e (l + s0)) eqn:H1; cbn [bind];
    [|intros [= <-]; apply (char_at_fails _ _ H1)].
  destruct (negb _); [discriminate|]. destruct (_ <? _)%nat; [congruence|].
  destruct (char_at e (r - 1 - s0)) eqn:H2; cbn [bind];
    [|intros [= <-]; apply (char_at_fails _ _ H2)].
  destruct (negb _); [discriminate|].
  destruct (IsParBalance e _ _) as [[|]|] eqn:H3; cbn [bind];
    [apply IH | discriminate | intros [= <-]; apply (IsParBalance_fails _ _ _ H3)].
Qed.

Lemma skip_operators_fails fuel i err :
  skip_operators e fuel i = Error err -> err = Undefined.
Proof.
  revert i. induction fuel as [|fuel IH]; intros i; cbn [skip_operators]; [congruence|].
  destruct (char_at e i) eqn:H1; cbn [bind]; [|intros [= <-]; apply (char_at_fails _ _ H1)].
  destruct (_ || _); [apply IH | discriminate].
Qed.

Lemma find_operation_fails r fuel i type pos bal err :
  find_operation e r fuel i type pos bal = Error err -> err = Undefined.
Proof.
  revert i type pos bal. induction fuel as [|fuel IH]; intros i type pos bal;
    cbn [find_operation]; destruct (i =? r)%nat; try discriminate; [congruence|].
  destruct (char_at e i) as [c|] eqn:H1; cbn [bind];
    [|intros [= <-]; apply (char_at_fails _ _ H1)].
  destruct (negb _); [apply IH|]. destruct (is_Default _); [apply IH|].
  destruct type as [minimum|]; [|apply IH].
  destruct (_ <=? _); cbn [bind].
  - destruct i as [|before]; cbn [bind]; [congruence|].
    destruct (char_at e before) eqn:H2; cbn [bind];
      [|intros [= <-]; apply (char_at_fails _ _ H2)].
    destruct (skip_operators e _ _) eqn:H3; cbn [bind];
      [apply IH | intros [= <-]; apply (skip_operators_fails _ _ _ H3)].
  - destruct (skip_operators e _ _) eqn:H3; cbn [bind];
      [apply IH | intros [= <-]; apply (skip_operators_fails _ _ _ H3)].
Qed.

Lemma find_parenthesis_fails r fuel i err :
  find_parenthesis e r fuel i = Error err -> err = Undefined.
Proof.
  revert i. induction fuel as [|fuel IH]; intros i; cbn [find_parenthesis];
    destruct (i =? r)%nat; try discriminate; [congruence|].
  destruct (char_at e i) eqn:H1; cbn [bind]; [|intros [= <-]; apply (char_at_fails _ _ H1)].
  destruct (_ =? _)%char; [discriminate | apply IH].
Qed.

Lemma find_open_fails fuel i err : find_open e fuel i = Error err -> err = Undefined.
Proof.
  revert i. induction fuel as [|fuel IH]; intros i; cbn [find_open]; [congruence|].
  destruct (char_at e i) eqn:H1; cbn [bind]; [|intros [= <-]; apply (char_at_fails _ _ H1)].
  destruct (_ =? _)%char; [discriminate | apply IH].
Qed.

Lemma scan_parameter_fails fuel i bal err :
  scan_parameter e fuel i bal = Error err -> err = Undefined.
Proof.
  revert i bal. induction fuel as [|fuel IH]; intros i bal; cbn [scan_parameter]; [congruence|].
  destruct (char_at e i) eqn:H1; cbn [bind]; [|intros [= <-]; apply (char_at_fails _ _ H1)].
  destruct (_ || _); [|discriminate]. destruct (_ && _); [discriminate | apply IH].
Qed.

Lemma scan_parameters_fails r fuel cl cr answer err :
  scan_parameters e r fuel cl cr answer = Error err ->
  err = InternalConsistency \/ err = Undefined.
Proof.
  revert cl cr answer. induction fuel as [|fuel IH]; intros cl cr answer;
    cbn [scan_parameters]; destruct (cr =? r)%nat; try (intros [= <-]; auto; fail).
  destruct (scan_parameter e _ _ _) as [[closed j]|] eqn:H1; cbn [bind].
  - destruct closed; [discriminate | apply IH].
  - intros [= <-]. right. apply (scan_parameter_fails _ _ _ _ H1).
Qed.

(** Where a range ends there is no digit. *)
Let stops (r : nat) : Prop := forall c, char_at e r = Ok c -> is_digit c = false.

Lemma surplus_parentheses_stops fuel l r s0 s :
  stops (r - s0) ->
  surplus_parentheses e fuel l r s0 = Ok s -> stops (r - s).
Proof.
  revert s0. induction fuel as [|fuel IH]; intros s0 H0; cbn [surplus_parentheses];
    [discriminate|].
  destruct (char_at e (l + s0)) as [first|]; cbn [bind]; [|discriminate].
  destruct (negb (first =? "(")%char); [intros [= <-]; exact H0|].
  destruct (Nat.ltb_spec r (1 + s0)); [discriminate|].
  destruct (char_at e (r - 1 - s0)) as [last|] eqn:Hlast; cbn [bind]; [|discriminate].
  destruct (Ascii.eqb_spec last ")") as [->|]; cbn [negb]; [|intros [= <-]; exact H0].
  destruct (IsParBalance e _ _) as [[|]|]; cbn [bind]; [|intros [= <-]; exact H0 | discriminate].
  apply IH. replace (r - S s0)%nat with (r - 1 - s0)%nat by lia.
  intros c Hc. rewrite Hlast in Hc. injection Hc as <-. reflexivity.
Qed.

Lemma has_char_stops (i : nat) (c : ascii) :
  has_char e i c -> is_digit c = false -> stops i.
Proof.
  intros Hc Hd c' Hc'. rewrite (has_char_at e i c Hc) in Hc'. injection Hc' as <-. exact Hd.
Qed.

Lemma parameters_from_stops (start : nat) (params : list (nat * nat)) :
  parameters_from e start params -> Forall (fun p => stops (snd p)) params.
Proof.
  revert start. induction params as [|[l r] rest IH]; intros start; [intros []|].
  cbn [parameters_from]. intros (_ & _ & _ & Hrest). destruct rest as [|p rest].
  - constructor; [|constructor]. apply (has_char_stops r ")"%char Hrest). reflexivity.
  - destruct Hrest as [Hcomma Hrest]. constructor; [|apply (IH _ Hrest)].
    apply (has_char_stops r ","%char Hcomma). reflexivity.
Qed.

(** What the parser can raise: [std::out_of_range] from [std::stoi], and
    the failed assertion; the rest is reading outside the text. *)
Let raised (err : failure) : Prop :=
  err = ConstantOverflow \/ err = InternalConsistency \/ err = Undefined.

Lemma ParseConstant_fails node l r err :
  (l <= r)%nat -> stops r ->
  IsConstant e l = Ok true ->
  ParseConstant e node l r = Error err -> err = ConstantOverflow.
Proof.
  intros Hlr Hstops Hconstant. unfold ParseConstant.
  destruct (Nat.eq_dec l r) as [->|Hne].
  - unfold IsConstant in Hconstant. destruct (char_at e r) as [c|] eqn:Hc; [|discriminate].
    injection Hconstant as Hdigit. specialize (Hstops c Hc). unfold is_digit in Hstops.
    congruence.
  - rewrite (stoi_decimal_literal _ (IsConstant_leaf e l r ltac:(lia) Hconstant)).
    destruct (_ <? _); cbn [bind]; [congruence | discriminate].
Qed.

Lemma parse_parameters_fails (PE : Node -> nat -> nat -> option (result Node))
    (params : list (nat * nat)) :
  Forall (fun p => forall node err, PE node (fst p) (snd p) = Some (Error err) -> raised err)
         params ->
  forall counter children err,
    parse_parameters PE params counter children = Some (Error err) -> raised err.
Proof.
  induction params as [|[l r] rest IH]; intros Hall counter children err;
    cbn [parse_parameters]; [discriminate|].
  apply Forall_cons_1 in Hall as [Hhead Hrest].
  destruct (PE _ l r) as [[n|err']|] eqn:H; cbn [bind_deep]; [apply (IH Hrest) | | discriminate].
  intros [= <-]. apply (Hhead _ _ H).
Qed.

Lemma ParseExpression_fails (depth : nat) :
  forall (node : Node) (l r : nat) (err : failure),
    (l <= r <= size)%nat -> stops r ->
    ParseExpression e depth node l r = Some (Error err) -> raised err.
Proof.
  induction depth as [|depth IH]; intros node l r err Hrange Hstops; [discriminate|].
  cbn [ParseExpression].
  destruct (surplus_parentheses e (scan_fuel e) l r 0) as [s|err0] eqn:Hs; cbn [bind_deep].
  2:{ intros [= <-]. right. right. apply (surplus_parentheses_fails _ _ _ _ _ Hs). }
  pose proof (surplus_parentheses_stops _ l r 0 s ltac:(rewrite Nat.sub_0_r; exact Hstops) Hs)
    as Hstops'.
  apply (surplus_parentheses_inside e _ l r 0 s ltac:(lia)) in Hs.
  destruct (FindArithmeticOperation e (l + s) (r - s)) as [[[type|] pos]|err0] eqn:Hfind;
    cbn [bind_deep].
  3:{ intros [= <-]. right. right. apply (find_operation_fails _ _ _ _ _ _ _ Hfind). }
  - apply (find_operation_found e (l + s) (r - s) _ (l + s) None (l + s) 0
             (Some type) pos (Nat.le_refl _) eq_refl) in Hfind as [Hpos Hat].
    unfold ParseArithmetic.
    destruct (ParseExpression e depth _ (l + s) pos) as [[first|err0]|] eqn:Hfirst;
      cbn [bind_deep]; [| |discriminate].
    + destruct (ParseExpression e depth _ (S pos) (r - s)) as [[second|err0]|] eqn:Hsecond;
        cbn [bind_deep]; [discriminate | |discriminate].
      intros [= <-]. eapply IH; [| |exact Hsecond]; [unfold size in *; lia | exact Hstops'].
    + intros [= <-]. eapply IH; [| |exact Hfirst]; [unfold size in *; lia|].
      apply operation_at_operator in Hat as (c & Hc & Hop & _).
      apply (has_char_stops pos c Hc).
      apply is_operator_spec in Hop as [Hd _]. revert Hd. unfold GetTypeFromChar, is_digit.
      destruct (Ascii.eqb_spec c "+") as [->|]; [reflexivity|].
      destruct (Ascii.eqb_spec c "-") as [->|]; [reflexivity|].
      destruct (Ascii.eqb_spec c "*") as [->|]; [reflexivity | discriminate].
  - destruct (IsConstant e (l + s)) as [[|]|err0] eqn:Hconstant; cbn [bind_deep].
    3:{ intros [= <-]. right. right. unfold IsConstant in Hconstant.
        destruct (char_at e (l + s)) eqn:Hc; [discriminate|]. cbn [bind] in Hconstant.
        injection Hconstant as <-. apply (char_at_fails _ _ Hc). }
    { intros [= H]. left. apply (ParseConstant_fails node (l + s) (r - s) err ltac:(lia) Hstops' Hconstant H). }
    destruct (IsFunction e (l + s) (r - s)) as [[|]|err0] eqn:Hfunction; cbn [bind_deep].
    3:{ intros [= <-]. right. right. unfold IsFunction in Hfunction.
        destruct (find_parenthesis e _ _ _) eqn:Hp; [discriminate|]. cbn [bind] in Hfunction.
        injection Hfunction as <-. apply (find_parenthesis_fails _ _ _ _ Hp). }
    2:{ unfold ParseVariable. destruct (_ <? 1); [discriminate|].
        destruct (_ <? _)%nat; [|discriminate]. intros [= <-]. right. right. reflexivity. }
    unfold ParseFunction.
    destruct (GetFunctionName e (l + s) (r - s)) as [name|err0] eqn:Hname; cbn [bind_deep].
    2:{ intros [= <-]. right. right. unfold GetFunctionName in Hname.
        destruct (_ <? _)%nat; [congruence|].
        destruct (find_parenthesis e _ _ _) eqn:Hp; cbn [bind] in Hname.
        - destruct (_ <? _)%nat; congruence.
        - injection Hname as <-. apply (find_parenthesis_fails _ _ _ _ Hp). }
    destruct (GetFunctionParameters e (l + s) (r - s)) as [params|err0] eqn:Hparams;
      cbn [bind_deep].
    2:{ intros [= <-]. right. unfold GetFunctionParameters in Hparams.
        destruct (find_open e _ _) eqn:Hp; cbn [bind] in Hparams.
        - apply (scan_parameters_fails _ _ _ _ _ _ Hparams).
        - injection Hparams as <-. right. apply (find_open_fails _ _ _ Hp). }
    destruct (parse_parameters _ _ _ _) as [[children|err0]|] eqn:Hchildren; cbn [bind_deep];
      [discriminate | |discriminate].
    intros [= <-]. apply (parse_parameters_fails _ params) in Hchildren; [exact Hchildren|].
    unfold GetFunctionParameters in Hparams.
    destruct (find_open e (scan_fuel e) (l + s)) as [p|] eqn:Hp; cbn [bind] in Hparams;
      [|discriminate].
    apply (scan_parameters_Ok e (r - s) (scan_fuel e) (S p) (S p) [] params) in Hparams;
      [|intros rest _ Hrest; exact Hrest].
    pose proof (parameters_from_stops _ _ Hparams) as Hends.
    apply parameters_from_inside in Hparams as [_ Hall].
    rewrite List.Forall_forall in Hall, Hends. apply List.Forall_forall.
    intros [pl pr] Hin node' err' H. destruct (Hall _ Hin) as [Hl Hr]. simpl in Hl, Hr.
    apply (IH node' pl pr err'); [unfold size; lia | apply (Hends _ Hin) | exact H].
Qed.

End Failures.

Lemma ExpressionParser_fails (text : string) (err : failure) :
  ExpressionParser text = Error err ->
  err = ConstantOverflow \/ err = InternalConsistency \/ err = Undefined.
Proof.
  unfold ExpressionParser.
  destruct (ParseExpression _ _ _ _ _) as [[n|err']|] eqn:H; [discriminate | |].
  - intros [= <-].
    apply (ParseExpression_fails (GetRidOfSpaces text) _ fresh_Node 0
             (String.length (GetRidOfSpaces text)) err' ltac:(lia)) in H; [exact H|].
    intros c. rewrite char_at_end. intros [= <-]. reflexivity.
  - intros [= <-]. auto.
Qed.

Lemma read_externs_fails (externs : list symbol_t) (address_map : gmap string Z) err :
  read_externs externs address_map = Error err -> err = Undefined.
Proof.
  revert address_map. induction externs as [|current externs IH]; intros address_map;
    cbn [read_externs]; [congruence|].
  destruct (_ =? 0); [discriminate|]. destruct (name current); [apply IH | discriminate].
Qed.

(** X14: [std::invalid_argument] is never raised, whatever the text and
    the table: in the parser [std::stoi] is given a text that starts
    with a digit, in the emitter [std::stoul] a literal the parser or the
    emitter wrote. The parser raises [std::out_of_range] for a number
    above [INT_MAX], fails the assertion of [GetFunctionParameters], or
    reads outside the text, and nothing else. *)
Theorem invalid_argument_is_never_raised :
  forall (expression : string) (externs : list symbol_t),
    (forall err, ExpressionParser expression = Error err ->
                 err = ConstantOverflow \/ err = InternalConsistency \/ err = Undefined) /\
    jit_compile_expression_to_arm expression externs <> Error InvalidArgument.
Proof.
  intros text externs. split; [apply ExpressionParser_fails|].
  unfold jit_compile_expression_to_arm.
  destruct (read_externs externs ∅) as [directory|err] eqn:Hexterns; cbn [bind].
  2:{ apply read_externs_fails in Hexterns as ->. discriminate. }
  destruct (ExpressionParser text) as [root|err] eqn:Hparse; cbn [bind].
  2:{ apply ExpressionParser_fails in Hparse as [-> | [-> | ->]]; discriminate. }
  apply ExpressionParser_parsed in Hparse.
  unfold jit_compile_tree_to_arm, compile.
  pose proof (compile__walked directory _ root Hparse (add_header [])) as Hwalk.
  destruct (compile_ directory root (add_header [])) as [r|err] eqn:Hr; cbn [bind].
  2:{ destruct Hwalk as [-> _]. discriminate. }
  destruct (GetCompiledBinary (add_footer r)) as [ws|err] eqn:Hws; [discriminate|].
  assert (err = InternalConsistency) as ->; [|discriminate].
  apply (GetCompiledBinary_refusal (add_footer r)); [|exact Hws].
  apply Forall_app. split; [|repeat constructor].
  apply (compile__readable directory root (parsed_constants_readable _ root Hparse) _ _ Hr).
  repeat constructor.
Qed.

(** * Ranges with parentheses *)

Section Tidy.

Variable e : string.

Let size : nat := String.length e.

Lemma quiet_spec (c : ascii) :
  quiet c = true ->
  is_Default (GetTypeFromChar c) = true /\ (c =? "(")%char = false /\
  (c =? ")")%char = false /\
  (c =? "*")%char = false /\ (c =? "-")%char = false /\ (c =? "+")%char = false.
Proof.
  unfold quiet, is_operator, GetTypeFromChar.
  destruct (c =? "+")%char; [discriminate|]. destruct (c =? "-")%char; [discriminate|].
  destruct (c =? "*")%char; [discriminate|]. cbn.
  destruct (c =? "(")%char; [discriminate|]. destruct (c =? ")")%char; [discriminate|].
  auto 10.
Qed.

Lemma not_operator_spec (c : ascii) :
  is_operator c = false ->
  is_Default (GetTypeFromChar c) = true /\
  (c =? "*")%char = false /\ (c =? "-")%char = false /\ (c =? "+")%char = false.
Proof.
  unfold is_operator, GetTypeFromChar.
  destruct (c =? "+")%char; [discriminate|]. destruct (c =? "-")%char; [discriminate|].
  destruct (c =? "*")%char; [discriminate|]. auto.
Qed.

Lemma balance_next (l i : nat) (c : ascii) :
  (l <= i)%nat -> has_char e i c ->
  balance (range_chars e l (S i)) = balance (range_chars e l i) + delta c.
Proof.
  intros Hle Hc. rewrite (range_chars_snoc e l i c Hle Hc). apply balance_snoc.
Qed.

Lemma loop_balance (bal : Z) (c : ascii) :
  (if (c =? ")")%char
   then (if (c =? "(")%char then bal + 1 else bal) - 1
   else if (c =? "(")%char then bal + 1 else bal) = bal + delta c.
Proof.
  unfold delta. destruct (Ascii.eqb_spec c "(") as [->|]; [simpl; lia|].
  destruct (c =? ")")%char; lia.
Qed.

Section Split.

Variables l r p : nat.
Variable o : ExpressionType.

Hypothesis range_tidy : tidy e l r.
Hypothesis split_inside : (l <= p < r)%nat.
Hypothesis split_outside : balance (range_chars e l (S p)) = 0.
Hypothesis split_operation : operation_at e p o.
Hypothesis after_split :
  forall i t, (p < i < r)%nat -> balance (range_chars e l (S i)) = 0 ->
              operation_at e i t -> GetPriority o < GetPriority t.
Hypothesis before_split :
  forall i t, (l <= i < p)%nat -> balance (range_chars e l (S i)) = 0 ->
              operation_at e i t -> GetPriority o <= GetPriority t.

Lemma find_operation_tidy (fuel : nat) :
  forall (i : nat) (type : option ExpressionType) (pos : nat),
    (l <= i <= r)%nat -> (r - i < fuel)%nat ->
    ((i <= p)%nat ->
     match type with
     | None => forall j, (l <= j < i)%nat -> ~ operation_outside e l j
     | Some t =>
         GetPriority o <= GetPriority t /\
         exists j, (l <= j < i)%nat /\ operation_outside e l j
     end) ->
    ((p < i)%nat -> type = Some o /\ pos = p) ->
    find_operation e r fuel i type pos (balance (range_chars e l i)) = Ok (Some o, p).
Proof using range_tidy split_inside split_outside split_operation after_split before_split.
  destruct range_tidy as (Hsize & Htidy).
  assert (operation_outside e l p) as Hp_outside by (split; [exact split_outside | eauto]).
  induction fuel as [|fuel IH]; intros i type pos Hi Hfuel Hbefore Hafter; [lia|].
  cbn [find_operation]. destruct (Nat.eqb_spec i r) as [->|Hne].
  - destruct (Hafter ltac:(lia)) as [-> ->]. reflexivity.
  - destruct (has_char_some e i ltac:(fold size; lia)) as [c Hc].
    rewrite (has_char_at e i c Hc). cbn [bind].
    rewrite loop_balance, <- (balance_next l i c ltac:(lia) Hc).
    assert (forall type' pos',
               ~ operation_outside e l i ->
               ((S i <= p)%nat ->
                match type' with
                | None => forall j, (l <= j < i)%nat -> ~ operation_outside e l j
                | Some t =>
                    GetPriority o <= GetPriority t /\
                    exists j, (l <= j < i)%nat /\ operation_outside e l j
                end) ->
               ((p < S i)%nat -> type' = Some o /\ pos' = p) ->
               find_operation e r fuel (S i) type' pos'
                 (balance (range_chars e l (S i))) = Ok (Some o, p)) as Hpass.
    { intros type' pos' Hnot Hb Ha. apply IH; [lia | lia | | exact Ha].
      intros Hle. specialize (Hb Hle). destruct type' as [t|].
      - destruct Hb as (Ht & j & Hj & Hout). split; [exact Ht|]. exists j. split; [lia | exact Hout].
      - intros j Hj. destruct (Nat.eq_dec j i) as [->|]; [exact Hnot | apply Hb; lia]. }
    assert (i <> p -> (i <= p)%nat -> (S i <= p)%nat) as Hstep by lia.
    destruct (Z.eqb_spec (balance (range_chars e l (S i))) 0) as [Hzero|Hinside]; cbn [negb].
    2:{ assert (~ operation_outside e l i) as Hnot by (intros [Hb _]; contradiction).
        apply Hpass; [exact Hnot | |].
        - intros Hle. apply Hbefore. lia.
        - intros Hlt. apply Hafter. destruct (Nat.eq_dec i p) as [->|]; [contradiction | lia]. }
    destruct (is_Default (GetTypeFromChar c)) eqn:Hd.
    { assert (~ operation_outside e l i) as Hnot.
      { intros [_ (t & c' & Hc' & Ht & Hop)]. unfold has_char in Hc. rewrite Hc in Hc'.
        injection Hc' as <-. rewrite Ht in Hd. destruct Hop as [-> | [-> | ->]]; discriminate. }
      apply Hpass; [exact Hnot | |].
      - intros Hle. apply Hbefore. lia.
      - intros Hlt. apply Hafter. destruct (Nat.eq_dec i p) as [->|]; [contradiction | lia]. }
    assert (is_operator c = true) as Hop by (unfold is_operator; rewrite Hd; reflexivity).
    pose proof (operator_operation_at e i c Hc Hop) as Hat.
    assert (operation_outside e l i) as Hout by (split; [exact Hzero | eauto]).
    destruct (Htidy i ltac:(lia) Hout) as [Hnext Hlater].
    destruct type as [t|].
    + (* an operation is held already *)
      assert (exists j, (l <= j < i)%nat /\ operation_outside e l j) as Hearlier.
      { destruct (Nat.le_gt_cases i p) as [Hle|Hgt]; [apply (Hbefore Hle)|].
        exists p. split; [lia | exact Hp_outside]. }
      destruct (Hlater Hearlier) as [Hin Hquiet].
      destruct (has_char_some e (S i) ltac:(fold size; lia)) as [c1 Hc1].
      pose proof (quiet_spec c1 (Hquiet c1 Hc1)) as (Hd1 & Hopen1 & Hclose1 & Hs1 & Hm1 & Hp1).
      assert (skip_operators e (scan_fuel e) (S i) = Ok (S i)) as Hskip.
      { unfold scan_fuel. cbn [skip_operators]. rewrite (has_char_at e (S i) c1 Hc1). cbn [bind].
        rewrite Hs1, Hm1, Hp1. reflexivity. }
      assert (balance (range_chars e l (S (S i))) = balance (range_chars e l (S i))) as Hsame.
      { rewrite (balance_next l (S i) c1 ltac:(lia) Hc1). unfold delta.
        rewrite Hopen1, Hclose1. lia. }
      assert (~ operation_outside e l (S i)) as Hnot1.
      { intros [_ (t1 & c' & Hc' & Ht1 & Hop1)]. unfold has_char in Hc1. rewrite Hc1 in Hc'.
        injection Hc' as <-. rewrite Ht1 in Hd1. destruct Hop1 as [-> | [-> | ->]]; discriminate. }
      assert (S i <> p) as Hnp by (intros <-; contradiction).
      (* the character before is no [*] *)
      destruct Hearlier as (j0 & Hj0 & _).
      destruct i as [|k]; [lia|].
      destruct (has_char_some e k ltac:(fold size; lia)) as [c0 Hc0].
      rewrite (has_char_at e k c0 Hc0).
      assert ((c0 =? "*")%char = false) as Hstar.
      { destruct (Ascii.eqb_spec c0 "*") as [->|]; [exfalso | reflexivity].
        assert (operation_outside e l k) as Hk.
        { split; [|exists Product, "*"%char; auto].
          rewrite (balance_next l (S k) c ltac:(lia) Hc) in Hzero.
          apply is_operator_spec in Hop as (_ & Ho & Hcl & _).
          unfold delta in Hzero. rewrite Ho, Hcl in Hzero. lia. }
        destruct (Htidy k ltac:(lia) Hk) as [Hnext_k _].
        specialize (Hnext_k c ltac:(lia) Hc). congruence. }
      assert (forall type' pos',
                 ((S (S (S k)) <= p)%nat ->
                  exists t', type' = Some t' /\ GetPriority o <= GetPriority t') ->
                 ((p < S (S (S k)))%nat -> type' = Some o /\ pos' = p) ->
                 find_operation e r fuel (S (S (S k))) type' pos'
                   (balance (range_chars e l (S (S k)))) = Ok (Some o, p)) as Hland.
      { intros type' pos' Hb Ha. rewrite <- Hsame. apply IH; [lia | lia | | exact Ha].
        intros Hle. destruct (Hb Hle) as (t' & -> & Ht'). split; [exact Ht'|].
        exists (S k). split; [lia | exact Hout]. }
      destruct (Nat.lt_trichotomy (S k) p) as [Hlt | [Heq | Hgt]].
      * destruct (Hbefore ltac:(lia)) as [Ht _].
        pose proof (before_split (S k) _ ltac:(lia) Hzero Hat) as Hc_prio.
        destruct (GetPriority (GetTypeFromChar c) <=? GetPriority t);
          cbn [bind]; rewrite ?Hstar; cbn [negb bind]; rewrite Hskip; cbn [bind];
          (apply Hland; [intros _; eexists; split; [reflexivity | assumption] | intros; lia]).
      * destruct (Hbefore ltac:(lia)) as [Ht _].
        assert (GetTypeFromChar c = o) as Hco.
        { destruct split_operation as (c3 & Hc3 & Ht3 & _). rewrite <- Heq in Hc3.
          unfold has_char in Hc. rewrite Hc in Hc3. injection Hc3 as <-. exact Ht3. }
        rewrite Hco.
        destruct (Z.leb_spec (GetPriority o) (GetPriority t)) as [_|]; [|lia].
        cbn [bind]. rewrite Hstar. cbn [negb bind]. rewrite Hskip. cbn [bind].
        apply Hland; [intros; lia | intros _; split; [reflexivity | exact Heq]].
      * destruct (Hafter ltac:(lia)) as [[= ->] ->].
        pose proof (after_split (S k) _ ltac:(lia) Hzero Hat) as Hc_prio.
        destruct (Z.leb_spec (GetPriority (GetTypeFromChar c)) (GetPriority o)) as [|_];
          [lia|].
        cbn [bind]. rewrite Hskip. cbn [bind].
        apply Hland; [intros; lia | intros _; split; reflexivity].
    + (* the first operation of the range *)
      assert (i <= p)%nat as Hle.
      { destruct (Nat.le_gt_cases i p) as [|Hgt]; [assumption|].
        destruct (Hafter Hgt) as [[=] _]. }
      apply IH; [lia | lia | |].
      * intros Hle'. split; [apply (before_split i); [lia | exact Hzero | exact Hat]|].
        exists i. split; [lia | exact Hout].
      * intros Hlt. assert (i = p) as -> by lia. split; [|reflexivity]. f_equal.
        destruct split_operation as (c3 & Hc3 & Ht3 & _).
        unfold has_char in Hc. rewrite Hc in Hc3. injection Hc3 as <-. exact Ht3.
Qed.

Lemma FindArithmeticOperation_tidy :
  FindArithmeticOperation e l r = Ok (Some o, p).
Proof using range_tidy split_inside split_outside split_operation after_split before_split.
  unfold FindArithmeticOperation.
  destruct range_tidy as (Hsize & _).
  rewrite <- (balance_nil) at 1. rewrite <- (range_chars_empty e l).
  apply find_operation_tidy; [lia | unfold scan_fuel; fold size; lia | | intros; lia].
  intros _ j Hj. lia.
Qed.

End Split.

End Tidy.

(** X15: in a range where every operation outside the parentheses is
    followed by a character that is no operator, and every such
    operation but the first by one that is no parenthesis either,
    [FindArithmeticOperation] returns the last of the operations of
    lowest priority outside the parentheses: [*] after any [+] or [-]
    loses, of equals the later wins. *)
Theorem FindArithmeticOperation_returns_the_last_of_lowest_priority :
  forall (expression_ : string) (left right pos : nat) (type : ExpressionType),
    tidy expression_ left right ->
    (left <= pos < right)%nat ->
    balance (range_chars expression_ left (S pos)) = 0 ->
    operation_at expression_ pos type ->
    (forall i t, (pos < i < right)%nat ->
                 balance (range_chars expression_ left (S i)) = 0 ->
                 operation_at expression_ i t -> GetPriority type < GetPriority t) ->
    (forall i t, (left <= i < pos)%nat ->
                 balance (range_chars expression_ left (S i)) = 0 ->
                 operation_at expression_ i t -> GetPriority type <= GetPriority t) ->
    FindArithmeticOperation expression_ left right = Ok (Some type, pos).
Proof.
  intros e l r p o. apply FindArithmeticOperation_tidy.
Qed.

(** For the examples: a case for every position of a range. *)
Ltac positions i n tac :=
  lazymatch n with
  | O => try lia
  | S ?m => destruct i as [|i]; [try lia; tac | positions i m tac]
  end.

Ltac not_an_operation Hb Hat :=
  first
    [ vm_compute in Hb; discriminate
    | let t := fresh "t" in let c := fresh "c" in
      let Hc := fresh "Hc" in let Ht := fresh "Ht" in let Hop := fresh "Hop" in
      destruct Hat as (c & Hc & Ht & Hop); injection Hc as <-; vm_compute in Ht; subst;
      destruct Hop as [Hop | [Hop | Hop]]; discriminate ].

Lemma FindArithmeticOperation_returns_the_minus_behind_the_product :
  FindArithmeticOperation "f(a+b)*c-d" 0 10 = Ok (Some Minus, 8%nat).
Proof.
  apply (FindArithmeticOperation_returns_the_last_of_lowest_priority "f(a+b)*c-d" 0 10 8 Minus).
  - split; [simpl; lia|]. intros i Hi [Hb Hat].
    positions i 10%nat
      ltac:(try (exfalso; destruct Hat as [t Hat]; not_an_operation Hb Hat);
            try (split; [intros c _ Hc; injection Hc as <-; reflexivity|];
                 intros _; split; [lia|]; intros c Hc; injection Hc as <-; reflexivity)).
  - lia.
  - reflexivity.
  - exists "-"%char. auto.
  - intros i t Hi Hb Hat. positions i 10%nat ltac:(try (exfalso; not_an_operation Hb Hat)).
  - intros i t Hi Hb Hat.
    positions i 10%nat
      ltac:(try (exfalso; not_an_operation Hb Hat);
            try (destruct Hat as (c & Hc & Ht & _); injection Hc as <-; vm_compute in Ht;
                 subst; simpl; lia)).
Defined.

Section Groups.

Variable e : string.

Let size : nat := String.length e.

Lemma surplus_parentheses_fuel (fuel l r s : nat) :
  (size + 1 - (l + s) <= fuel)%nat ->
  surplus_parentheses e (S fuel) l r s = surplus_parentheses e fuel l r s.
Proof.
  revert s. induction fuel as [|fuel IH]; intros s Hfuel.
  - cbn [surplus_parentheses]. rewrite (char_at_beyond e (l + s)); [reflexivity|].
    fold size. lia.
  - cbn [surplus_parentheses] in *.
    destruct (char_at e (l + s)) as [first|]; cbn [bind]; [|reflexivity].
    destruct (negb (first =? "(")%char); [reflexivity|].
    destruct (r <? 1 + s)%nat; [reflexivity|].
    destruct (char_at e (r - 1 - s)) as [last|]; cbn [bind]; [|reflexivity].
    destruct (negb (last =? ")")%char); [reflexivity|].
    destruct (IsParBalance e (l + s + 1) (r - s - 1)) as [[|]|]; cbn [bind]; try reflexivity.
    apply (IH (S s)). lia.
Qed.

Lemma surplus_parentheses_shift (fuel l r s : nat) :
  (1 <= r)%nat ->
  surplus_parentheses e fuel l r (S s)
  = let* inner := surplus_parentheses e fuel (S l) (r - 1) s in Ok (S inner).
Proof.
  intros Hr. revert s. induction fuel as [|fuel IH]; intros s; [reflexivity|].
  cbn [surplus_parentheses].
  replace (l + S s)%nat with (S l + s)%nat by lia.
  destruct (char_at e (S l + s)) as [first|]; cbn [bind]; [|reflexivity].
  destruct (negb (first =? "(")%char); [reflexivity|].
  replace (r <? 1 + S s)%nat with (r - 1 <? 1 + s)%nat
    by (destruct (Nat.ltb_spec (r - 1) (1 + s)), (Nat.ltb_spec r (1 + S s)); lia || reflexivity).
  destruct (r - 1 <? 1 + s)%nat; [reflexivity|].
  replace (r - 1 - S s)%nat with (r - 1 - 1 - s)%nat by lia.
  destruct (char_at e (r - 1 - 1 - s)) as [last|]; cbn [bind]; [|reflexivity].
  destruct (negb (last =? ")")%char); [reflexivity|].
  replace (S l + s + 1)%nat with (S l + s + 1)%nat by reflexivity.
  replace (r - S s - 1)%nat with (r - 1 - s - 1)%nat by lia.
  destruct (IsParBalance e (S l + s + 1) (r - 1 - s - 1)) as [[|]|]; cbn [bind];
    try reflexivity.
  apply IH.
Qed.

Lemma surplus_parentheses_step (fuel l r s : nat) :
  surplus_parentheses e (S fuel) l r s
  = let* first := char_at e (l + s) in
    if negb (first =? "(")%char then Ok s
    else if (r <? 1 + s)%nat then Error Undefined
    else
      let* last := char_at e (r - 1 - s) in
      if negb (last =? ")")%char then Ok s
      else
        let* balanced := IsParBalance e (l + s + 1) (r - s - 1) in
        if balanced then surplus_parentheses e fuel l r (S s) else Ok s.
Proof. reflexivity. Qed.

(** A pair of parentheses around a range is dropped. *)
Lemma ParseExpression_group (depth : nat) (node : Node) (l r : nat) :
  (l + 2 <= r)%nat ->
  has_char e l "(" -> has_char e (r - 1) ")" ->
  IsParBalance e (S l) (r - 1) = Ok true ->
  ParseExpression e (S depth) node l r = ParseExpression e (S depth) node (S l) (r - 1).
Proof.
  intros Hlr Hopen Hclose Hbalance. cbn [ParseExpression].
  assert (surplus_parentheses e (scan_fuel e) l r 0
          = let* inner := surplus_parentheses e (scan_fuel e) (S l) (r - 1) 0 in
            Ok (S inner)) as ->.
  { unfold scan_fuel at 1. rewrite surplus_parentheses_step.
    replace (l + 0)%nat with l by lia. replace (r - 1 - 0)%nat with (r - 1)%nat by lia.
    replace (l + 1)%nat with (S l) by lia. replace (r - 0 - 1)%nat with (r - 1)%nat by lia.
    rewrite (has_char_at e l _ Hopen), (has_char_at e (r - 1) _ Hclose), Hbalance.
    cbn [bind]. change ("(" =? "(")%char with true. change (")" =? ")")%char with true.
    cbn [negb]. destruct (Nat.ltb_spec r (1 + 0)); [lia|].
    rewrite (surplus_parentheses_shift _ l r 0 ltac:(lia)).
    unfold scan_fuel. rewrite (surplus_parentheses_fuel (S (String.length e)) (S l) (r - 1) 0);
      [reflexivity | fold size; lia]. }
  destruct (surplus_parentheses e (scan_fuel e) (S l) (r - 1) 0) as [inner|err];
    cbn [bind bind_deep]; [|reflexivity].
  replace (l + S inner)%nat with (S l + inner)%nat by lia.
  replace (r - S inner)%nat with (r - 1 - inner)%nat by lia. reflexivity.
Qed.

End Groups.

(** X16: a pair of parentheses around a range is dropped. When the range
    starts with an opening and ends with a closing parenthesis, and
    [IsParBalance] accepts what is between them, [ParseExpression] makes
    of the range what it makes of the range between the two. *)
Theorem ParseExpression_drops_the_parentheses_around_a_range :
  forall (expression_ : string) (depth : nat) (current_node : Node) (left right : nat),
    (left + 2 <= right)%nat ->
    has_char expression_ left "(" -> has_char expression_ (right - 1) ")" ->
    IsParBalance expression_ (S left) (right - 1) = Ok true ->
    ParseExpression expression_ (S depth) current_node left right
    = ParseExpression expression_ (S depth) current_node (S left) (right - 1).
Proof.
  intros e depth node l r. apply ParseExpression_group.
Qed.

Lemma ParseExpression_drops_the_parentheses_around_2_plus_3 :
  ParseExpression "(2+3)*4" 3 fresh_Node 0 5 = ParseExpression "(2+3)*4" 3 fresh_Node 1 (5 - 1).
Proof.
  apply (ParseExpression_drops_the_parentheses_around_a_range "(2+3)*4" 2 fresh_Node 0 5);
    [lia | reflexivity | reflexivity | reflexivity].
Defined.

Section Calls.

Variable e : string.

Let size : nat := String.length e.

Lemma range_chars_app (l m r : nat) :
  (l <= m <= r)%nat ->
  range_chars e l r = range_chars e l m ++ range_chars e m r.
Proof.
  intros Hlmr. unfold range_chars. rewrite !chars_substring.
  replace (r - l)%nat with ((m - l) + (r - m))%nat by lia.
  rewrite <- take_take_drop, skipn_skipn. replace (m - l + l)%nat with m by lia. reflexivity.
Qed.

Lemma balance_split (l m r : nat) :
  (l <= m <= r)%nat ->
  balance (range_chars e l r) = balance (range_chars e l m) + balance (range_chars e m r).
Proof. intros H. rewrite (range_chars_app l m r H). apply balance_app. Qed.

Lemma balance_plain (l m : nat) :
  (l <= m)%nat -> (m <= size)%nat ->
  (forall i c, (l <= i < m)%nat -> has_char e i c -> plain c = true) ->
  balance (range_chars e l m) = 0.
Proof.
  induction m as [|m IH]; intros Hlm Hm Hplain.
  - replace l with 0%nat by lia. rewrite range_chars_empty. reflexivity.
  - destruct (Nat.eq_dec l (S m)) as [->|]; [rewrite range_chars_empty; reflexivity|].
    destruct (has_char_some e m ltac:(fold size; lia)) as [c Hc].
    rewrite (balance_next e l m c ltac:(lia) Hc).
    rewrite IH; [|lia | lia | intros i c' Hi; apply Hplain; lia].
    apply (Hplain m c ltac:(lia)), plain_spec in Hc as (_ & Ho & Hcl & _).
    unfold delta. rewrite Ho, Hcl. reflexivity.
Qed.

Lemma scan_parameter_step (fuel i : nat) (bal : Z) (c : ascii) :
  has_char e i c ->
  scan_parameter e (S fuel) i bal
  = if negb (c =? ",")%char || (bal >? 0) then
      if (bal + delta c =? -1) && (c =? ")")%char then Ok (true, i)
      else scan_parameter e fuel (S i) (bal + delta c)
    else Ok (false, i).
Proof.
  intros Hc. cbn [scan_parameter]. rewrite (has_char_at e i c Hc). cbn [bind].
  destruct (negb (c =? ",")%char || (bal >? 0)); [|reflexivity].
  rewrite !(loop_balance e). reflexivity.
Qed.

(** The scan of one argument ends where the argument ends. *)
Lemma scan_parameter_argument (a b : nat) (c : ascii) :
  argument e a b -> has_char e b c -> c = ","%char \/ c = ")"%char ->
  forall fuel i,
    (a <= i <= b)%nat -> (b - i < fuel)%nat ->
    scan_parameter e fuel i (balance (range_chars e a i))
    = Ok ((c =? ")")%char, b).
Proof.
  intros (Hab & Hprefix & Hcomma & Hclosed) Hc Hend.
  induction fuel as [|fuel IH]; intros i Hi Hfuel; [lia|].
  destruct (Nat.eq_dec i b) as [->|Hne].
  - rewrite (scan_parameter_step fuel b _ c Hc), Hclosed.
    destruct Hend as [-> | ->]; reflexivity.
  - destruct (has_char_some e i ltac:(apply has_char_inside in Hc; lia)) as [ci Hci].
    rewrite (scan_parameter_step fuel i _ ci Hci).
    rewrite <- (balance_next e a i ci ltac:(lia) Hci).
    pose proof (Hprefix i ltac:(lia)) as Hnonneg.
    assert (negb (ci =? ",")%char || (balance (range_chars e a i) >? 0) = true) as ->.
    { destruct (Ascii.eqb_spec ci ",") as [->|]; [|reflexivity].
      pose proof (Hcomma i ltac:(lia) Hci). cbn [negb orb]. apply Z.gtb_lt. lia. }
    destruct (Z.eqb_spec (balance (range_chars e a (S i))) (-1)); [lia|]. cbn [andb].
    apply IH; lia.
Qed.

Lemma arguments_from_inside (start r : nat) (params : list (nat * nat)) :
  arguments_from e start r params ->
  (start + length params <= r)%nat /\ (r <= size)%nat /\ has_char e (r - 1) ")" /\
  balance (range_chars e start (r - 1)) = 0 /\
  (forall i, (start <= i)%nat -> (S i < r)%nat -> 0 <= balance (range_chars e start (S i))).
Proof.
  revert start. induction params as [|[a b] rest IH]; intros start; [intros []|].
  cbn [arguments_from]. intros (<- & (Hab & Hprefix & Hcomma & Hclosed) & Hrest).
  destruct rest as [|p rest].
  - destruct Hrest as [Hc <-]. pose proof (has_char_inside e b _ Hc) as Hb. fold size in Hb.
    replace (S b - 1)%nat with b by lia.
    split; [simpl; lia|]. split; [lia|]. split; [exact Hc|]. split; [exact Hclosed|].
    intros i Hi Hlt. apply Hprefix. lia.
  - destruct Hrest as [Hc Hrest]. apply IH in Hrest as (Hlen & Hr & Hclose & Hzero & Hinner).
    split; [simpl in *; lia|]. split; [exact Hr|]. split; [exact Hclose|].
    assert (balance (range_chars e a (S b)) = 0) as Hcomma_zero.
    { rewrite (balance_next e a b _ ltac:(lia) Hc), Hclosed. reflexivity. }
    split.
    + rewrite (balance_split a (S b) (r - 1) ltac:(simpl in Hlen; lia)), Hcomma_zero, Hzero.
      reflexivity.
    + intros i Hi Hlt. destruct (Nat.lt_ge_cases i b) as [Hib | Hbi].
      * apply Hprefix. lia.
      * destruct (Nat.eq_dec i b) as [->|]; [lia|].
        rewrite (balance_split a (S b) (S i) ltac:(lia)), Hcomma_zero.
        specialize (Hinner i ltac:(lia) Hlt). lia.
Qed.

(** The scan of the arguments gives their ranges. *)
Lemma scan_parameters_arguments (r : nat) (params : list (nat * nat)) :
  forall fuel start answer,
    arguments_from e start r params -> (length params <= fuel)%nat ->
    scan_parameters e r fuel start start answer = Ok (answer ++ params).
Proof.
  induction params as [|[a b] rest IH]; intros fuel start answer; [intros []|].
  intros Hargs Hfuel. pose proof (arguments_from_inside start r _ Hargs) as (Hlen & Hr & _).
  cbn [arguments_from] in Hargs. destruct Hargs as (<- & Harg & Hrest).
  destruct fuel as [|fuel]; [simpl in Hfuel; lia|].
  cbn [scan_parameters]. destruct (Nat.eqb_spec a r) as [->|_]; [simpl in Hlen; lia|].
  assert (forall c, has_char e b c -> c = ","%char \/ c = ")"%char ->
                    scan_parameter e (scan_fuel e) a 0 = Ok ((c =? ")")%char, b)) as Hscan.
  { intros c Hc Hend. rewrite <- balance_nil, <- (range_chars_empty e a).
    apply (scan_parameter_argument a b c Harg Hc Hend); [destruct Harg; lia|].
    apply has_char_inside in Hc. unfold scan_fuel. lia. }
  destruct rest as [|p rest].
  - destruct Hrest as [Hc _]. rewrite (Hscan _ Hc (or_intror eq_refl)). reflexivity.
  - destruct Hrest as [Hc Hrest]. rewrite (Hscan _ Hc (or_introl eq_refl)). cbn [bind].
    change ("," =? ")")%char with false. cbv iota.
    rewrite (IH fuel (S b) (answer ++ [(a, b)]) Hrest ltac:(simpl in *; lia)).
    rewrite <- app_assoc. reflexivity.
Qed.

Lemma find_open_first (q : nat) :
  has_char e q "(" ->
  forall fuel i,
    (i <= q)%nat -> (q - i < fuel)%nat ->
    (forall k c, (i <= k < q)%nat -> has_char e k c -> (c =? "(")%char = false) ->
    find_open e fuel i = Ok q.
Proof.
  intros Hq. induction fuel as [|fuel IH]; intros i Hi Hfuel Hnone; [lia|].
  cbn [find_open]. destruct (Nat.eq_dec i q) as [->|Hne].
  - rewrite (has_char_at e q _ Hq). reflexivity.
  - destruct (has_char_some e i ltac:(apply has_char_inside in Hq; lia)) as [c Hc].
    rewrite (has_char_at e i c Hc). cbn [bind]. rewrite (Hnone i c ltac:(lia) Hc).
    apply IH; [lia | lia|]. intros k c' Hk. apply Hnone. lia.
Qed.

Lemma find_parenthesis_first (r q : nat) :
  has_char e q "(" -> (q < r)%nat ->
  forall fuel i,
    (i <= q)%nat -> (q - i < fuel)%nat ->
    (forall k c, (i <= k < q)%nat -> has_char e k c -> (c =? "(")%char = false) ->
    find_parenthesis e r fuel i = Ok q.
Proof.
  intros Hq Hqr. induction fuel as [|fuel IH]; intros i Hi Hfuel Hnone; [lia|].
  cbn [find_parenthesis]. destruct (Nat.eqb_spec i r); [lia|].
  destruct (Nat.eq_dec i q) as [->|Hne].
  - rewrite (has_char_at e q _ Hq). reflexivity.
  - destruct (has_char_some e i ltac:(apply has_char_inside in Hq; lia)) as [c Hc].
    rewrite (has_char_at e i c Hc). cbn [bind]. rewrite (Hnone i c ltac:(lia) Hc).
    apply IH; [lia | lia|]. intros k c' Hk. apply Hnone. lia.
Qed.

Lemma parse_parameters_gather (PE : Node -> nat -> nat -> option (result Node))
    (params : list (nat * nat)) (trees : list (result Node)) :
  Forall2 (fun p x => PE fresh_Node (fst p) (snd p) = Some x) params trees ->
  forall children,
    parse_parameters PE params (length children) children
    = Some (let* rest := gather trees in Ok (children ++ rest)).
Proof.
  induction 1 as [|[a b] x params trees Hx _ IH]; intros children.
  - cbn [parse_parameters gather bind]. rewrite app_nil_r. reflexivity.
  - cbn [parse_parameters gather]. rewrite nth_middle. simpl in Hx. rewrite Hx.
    destruct x as [first|err]; cbn [bind_deep bind]; [|reflexivity].
    replace (<[length children := first]> (children ++ [fresh_Node]))
      with (children ++ [first])
      by (rewrite <- (Nat.add_0_r (length children)) at 1; rewrite insert_app_r; reflexivity).
    replace (S (length children)) with (length (children ++ [first]))
      by (rewrite length_app; simpl; lia).
    rewrite IH. destruct (gather trees) as [rest|err]; cbn [bind]; [|reflexivity].
    rewrite <- app_assoc. reflexivity.
Qed.

(** What [ParseExpression] makes of a call. *)
Lemma ParseExpression_call (depth : nat) (node : Node) (l q r : nat)
    (params : list (nat * nat)) (trees : list (result Node)) :
  sub_expressions node = [] ->
  (l < q)%nat ->
  (forall i c, (l <= i < q)%nat -> has_char e i c -> plain c = true) ->
  (forall c, has_char e l c -> is_digit c = false) ->
  has_char e q "(" ->
  arguments_from e (S q) r params ->
  Forall2 (fun p x => ParseExpression e depth fresh_Node (fst p) (snd p) = Some x)
          params trees ->
  ParseExpression e (S depth) node l r
  = Some (let* children := gather trees in
          Ok (mkNode Function (Some (substring l (q - l) e)) children)).
Proof.
  intros Hnode Hlq Hname Hfirst Hq Hargs Htrees.
  pose proof (arguments_from_inside (S q) r params Hargs)
    as (Hlen & Hr & Hclose & Hzero & Hinner).
  assert (forall k c, (l <= k < q)%nat -> has_char e k c -> (c =? "(")%char = false) as Hno_open.
  { intros k c Hk Hc. apply (Hname k c Hk), plain_spec in Hc. apply Hc. }
  destruct (has_char_some e l ltac:(apply has_char_inside in Hq; lia)) as [c0 Hc0].
  cbn [ParseExpression]. unfold scan_fuel at 1.
  rewrite (surplus_parentheses_none e _ l r c0 (has_char_at e l c0 Hc0)
             (Hno_open l c0 ltac:(lia) Hc0)).
  cbn [bind_deep]. rewrite Nat.add_0_r, Nat.sub_0_r.
  assert (FindArithmeticOperation e l r = Ok (None, l)) as ->.
  { apply FindArithmeticOperation_none; [fold size; lia|].
    intros i Hi [Hb (t & Hat)]. apply operation_at_operator in Hat as (c & Hc & Hop & _).
    destruct (Nat.lt_ge_cases i q) as [Hiq | Hqi].
    - apply (Hname i c ltac:(lia)) in Hc. apply plain_spec in Hc as [Hd _].
      unfold is_operator in Hop. rewrite Hd in Hop. discriminate.
    - assert (balance (range_chars e l (S q)) = 1) as Hone.
      { rewrite (balance_next e l q _ ltac:(lia) Hq).
        rewrite (balance_plain l q ltac:(lia) ltac:(apply has_char_inside in Hq; lia) Hname).
        reflexivity. }
      destruct (Nat.eq_dec i q) as [->|].
      + unfold has_char in Hc, Hq. rewrite Hq in Hc. injection Hc as <-. discriminate.
      + destruct (Nat.eq_dec (S i) r) as [<-|].
        * replace (S i - 1)%nat with i in Hclose by lia.
          unfold has_char in Hc, Hclose. rewrite Hclose in Hc. injection Hc as <-. discriminate.
        * rewrite (balance_split l (S q) (S i) ltac:(lia)), Hone in Hb.
          specialize (Hinner i ltac:(lia) ltac:(lia)). lia. }
  cbn [bind_deep]. rewrite (IsConstant_digit e l c0 (has_char_at e l c0 Hc0)), (Hfirst c0 Hc0).
  cbn [bind_deep]. unfold IsFunction.
  rewrite (find_parenthesis_first r q Hq ltac:(lia) (scan_fuel e) l ltac:(lia)
             ltac:(unfold scan_fuel; apply has_char_inside in Hq; lia) Hno_open).
  cbn [bind]. destruct (Nat.eqb_spec q r); [lia|]. cbn [negb bind_deep].
  unfold ParseFunction, GetFunctionName.
  destruct (Nat.ltb_spec r l); [lia|].
  rewrite (find_parenthesis_first r q Hq ltac:(lia) (scan_fuel e) l ltac:(lia)
             ltac:(unfold scan_fuel; apply has_char_inside in Hq; lia) Hno_open).
  cbn [bind]. destruct (Nat.ltb_spec (String.length e) l); [unfold size in *; lia|].
  cbn [bind_deep]. unfold GetFunctionParameters.
  rewrite (find_open_first q Hq (scan_fuel e) l ltac:(lia)
             ltac:(unfold scan_fuel; apply has_char_inside in Hq; lia) Hno_open).
  cbn [bind].
  rewrite (scan_parameters_arguments r params (scan_fuel e) (S q) [] Hargs
             ltac:(unfold scan_fuel; fold size; lia)).
  cbn [app bind_deep]. rewrite Hnode.
  pose proof (parse_parameters_gather _ params trees Htrees []) as Hparams.
  cbn [length app] in Hparams. rewrite Hparams. cbn [bind_deep].
  destruct (gather trees) as [children|err]; reflexivity.
Qed.

End Calls.

Lemma GetFunctionParameters_arguments (e : string) (l q r : nat) (params : list (nat * nat)) :
  (l <= q)%nat ->
  (forall k c, (l <= k < q)%nat -> has_char e k c -> (c =? "(")%char = false) ->
  has_char e q "(" ->
  arguments_from e (S q) r params ->
  GetFunctionParameters e l r = Ok params.
Proof.
  intros Hlq Hnone Hq Hargs. unfold GetFunctionParameters.
  rewrite (find_open_first e q Hq (scan_fuel e) l Hlq
             ltac:(unfold scan_fuel; apply has_char_inside in Hq; lia) Hnone).
  cbn [bind].
  pose proof (arguments_from_inside e (S q) r params Hargs) as (Hlen & Hr & _).
  apply (scan_parameters_arguments e r params (scan_fuel e) (S q) [] Hargs).
  unfold scan_fuel. lia.
Qed.

(** X17: [GetFunctionParameters] returns the arguments of the call. When
    behind the first opening parenthesis from [left] on the text up to
    [right] is made of ranges that close the parentheses they open and
    hold no comma outside them, with a comma between one and the next
    and the closing parenthesis of the call behind the last, these ranges
    are what is returned, in their order. *)
Theorem GetFunctionParameters_returns_the_arguments :
  forall (expression_ : string) (left open right : nat) (params : list (nat * nat)),
    (left <= open)%nat ->
    (forall k c, (left <= k < open)%nat -> has_char expression_ k c ->
                 (c =? "(")%char = false) ->
    has_char expression_ open "(" ->
    arguments_from expression_ (S open) right params ->
    GetFunctionParameters expression_ left right = Ok params.
Proof.
  intros e l q r params. apply GetFunctionParameters_arguments.
Qed.

Lemma GetFunctionParameters_returns_the_arguments_of_add :
  GetFunctionParameters "add(mul(2,3),4)" 0 15 = Ok [(4, 12); (13, 14)]%nat.
Proof.
  apply (GetFunctionParameters_returns_the_arguments "add(mul(2,3),4)" 0 3 15).
  - lia.
  - intros k c Hk Hc. positions k 3%nat ltac:(try (injection Hc as <-; reflexivity)).
  - reflexivity.
  - split; [reflexivity|]. split.
    { split; [lia|]. split; [|split; [|reflexivity]].
      - intros i Hi. positions i 12%nat ltac:(try (vm_compute; discriminate)).
      - intros i Hi Hc. positions i 12%nat ltac:(try discriminate). vm_compute. reflexivity. }
    split; [reflexivity|]. split; [reflexivity|]. split.
    { split; [lia|]. split; [|split; [|reflexivity]].
      - intros i Hi. assert (i = 13%nat) as -> by lia. vm_compute. discriminate.
      - intros i Hi Hc. assert (i = 13%nat) as -> by lia. discriminate. }
    split; reflexivity.
Defined.


Scheme reads_reads_each := Minimality for reads Sort Prop
  with reads_each_reads := Minimality for reads_each Sort Prop.

Section Expressions.

Variable e : string.

Let size : nat := String.length e.

Lemma firstn_range_chars (a b k : nat) :
  (a + k <= b)%nat -> firstn k (range_chars e a b) = range_chars e a (a + k).
Proof.
  intros Hk. unfold range_chars. rewrite !chars_substring, firstn_firstn.
  replace (Nat.min k (b - a)) with k by lia. replace (a + k - a)%nat with k by lia.
  reflexivity.
Qed.

Lemma IsParBalance_prefixes (a b : nat) :
  (a <= b <= size)%nat ->
  IsParBalance e a b = Ok true
  <-> forall i, (a <= i < b)%nat -> 0 <= balance (range_chars e a i).
Proof.
  intros Hab. unfold IsParBalance.
  rewrite (for_each_range_inside e balance_step a b (0, true) Hab). cbn [bind].
  destruct (fold_balance_step (range_chars e a b) 0 true) as [_ Hsnd].
  rewrite (length_range_chars e a b Hab) in Hsnd. split.
  - intros [= H]. apply Hsnd in H as [_ H]. intros i Hi.
    specialize (H (i - a)%nat ltac:(lia)).
    rewrite (firstn_range_chars a b (i - a) ltac:(lia)) in H.
    replace (a + (i - a))%nat with i in H by lia. lia.
  - intros H. f_equal. apply Hsnd. split; [reflexivity|]. intros k Hk.
    rewrite (firstn_range_chars a b k ltac:(lia)). specialize (H (a + k)%nat ltac:(lia)). lia.
Qed.

Lemma IsParBalance_returns (a b : nat) :
  (a <= b <= size)%nat -> exists correct, IsParBalance e a b = Ok correct.
Proof.
  intros Hab. unfold IsParBalance.
  rewrite (for_each_range_inside e balance_step a b (0, true) Hab). cbn [bind]. eauto.
Qed.

(** No pair of parentheses is dropped from a range that is split
    outside the parentheses. *)
Lemma surplus_parentheses_split (l p r : nat) :
  (l <= p < r)%nat -> (r <= size)%nat ->
  balance (range_chars e l (S p)) = 0 -> (exists t, operation_at e p t) ->
  surplus_parentheses e (scan_fuel e) l r 0 = Ok 0%nat.
Proof.
  intros Hp Hr Hzero (t & Hat). apply operation_at_operator in Hat as (cp & Hcp & Hop & _).
  pose proof (is_operator_spec cp Hop) as (_ & Hp_open & Hp_close & _).
  unfold scan_fuel. rewrite surplus_parentheses_step.
  replace (l + 0 + 1)%nat with (S l) by lia. replace (r - 0 - 1)%nat with (r - 1)%nat by lia.
  replace (l + 0)%nat with l by lia. replace (r - 1 - 0)%nat with (r - 1)%nat by lia.
  destruct (has_char_some e l ltac:(fold size; lia)) as [c Hc].
  rewrite (has_char_at e l c Hc). cbn [bind].
  destruct (Ascii.eqb_spec c "(") as [->|]; cbn [negb]; [|reflexivity].
  destruct (Nat.ltb_spec r (1 + 0)); [lia|].
  destruct (has_char_some e (r - 1)%nat ltac:(fold size; lia)) as [c' Hc'].
  rewrite (has_char_at e (r - 1)%nat c' Hc'). cbn [bind].
  destruct (Ascii.eqb_spec c' ")") as [->|]; cbn [negb]; [|reflexivity].
  assert (l < p)%nat as Hlp.
  { destruct (Nat.eq_dec l p) as [->|]; [|lia].
    unfold has_char in Hc, Hcp. rewrite Hc in Hcp. injection Hcp as <-. discriminate. }
  assert (p < r - 1)%nat as Hpr.
  { destruct (Nat.eq_dec p (r - 1)%nat) as [->|]; [|lia].
    unfold has_char in Hc', Hcp. rewrite Hc' in Hcp. injection Hcp as <-. discriminate. }
  destruct (IsParBalance_returns (S l) (r - 1)%nat ltac:(lia)) as [[|] Hbalance];
    rewrite Hbalance; cbn [bind]; [exfalso | reflexivity].
  pose proof (proj1 (IsParBalance_prefixes (S l) (r - 1)%nat ltac:(lia)) Hbalance p
                ltac:(lia)) as Hprefix.
  rewrite (balance_next e l p cp ltac:(lia) Hcp) in Hzero.
  rewrite (balance_split e l (S l) p ltac:(lia)) in Hzero.
  rewrite (range_chars_cons e l (S l) "("%char ltac:(lia) Hc), range_chars_empty in Hzero.
  rewrite balance_cons, balance_nil in Hzero. change (delta "(") with 1 in Hzero.
  unfold delta in Hzero. rewrite Hp_open, Hp_close in Hzero. lia.
Qed.

Lemma ParseExpression_operation (depth : nat) (node : Node) (l r p : nat)
    (o : ExpressionType) (x y : result Node) :
  sub_expressions node = [] ->
  surplus_parentheses e (scan_fuel e) l r 0 = Ok 0%nat ->
  FindArithmeticOperation e l r = Ok (Some o, p) ->
  ParseExpression e depth fresh_Node l p = Some x ->
  ParseExpression e depth fresh_Node (S p) r = Some y ->
  ParseExpression e (S depth) node l r = Some (combine o x y).
Proof.
  intros Hnode Hsurplus Hfind Hx Hy. cbn [ParseExpression]. rewrite Hsurplus.
  cbn [bind_deep]. rewrite Nat.add_0_r, Nat.sub_0_r, Hfind. cbn [bind_deep].
  unfold ParseArithmetic. rewrite Hnode. cbn [app nth]. rewrite Hx.
  destruct x as [first|err]; cbn [bind_deep combine bind]; [|reflexivity].
  change (nth 1 (<[0%nat:=first]> [fresh_Node; fresh_Node]) fresh_Node) with fresh_Node.
  rewrite Hy. destruct y as [second|err]; reflexivity.
Qed.

Lemma arguments_from_ranges (start r : nat) (params : list (nat * nat)) :
  arguments_from e start r params ->
  Forall (fun p => (start <= fst p <= snd p)%nat /\ (snd p < r)%nat) params.
Proof.
  revert start. induction params as [|[a b] rest IH]; intros start; [intros []|].
  cbn [arguments_from]. intros (<- & (Hab & _) & Hrest). destruct rest as [|p rest].
  - destruct Hrest as [_ <-]. constructor; [simpl; lia | constructor].
  - destruct Hrest as [_ Hrest]. pose proof (IH _ Hrest) as Hall.
    constructor; [|eapply Forall_impl; [exact Hall|]; intros [a' b']; simpl; lia].
    apply Forall_cons_1 in Hall as [[Hl Hr] _]. simpl in *. lia.
Qed.

Lemma reads_parsed (l r : nat) (x : result Node) :
  reads e l r x ->
  forall depth node,
    (r - l < depth)%nat -> sub_expressions node = [] ->
    ParseExpression e depth node l r = Some x.
Proof.
  intros Hreads.
  induction Hreads as
      [ l r x Hsum
      | l c Hc Hopen Hdigit
      | l r x Hlr Hopen Hclose Hprefix _ IH
      | l p r o x y Htidy Hp Hzero Hat Hafter Hbefore _ IHx _ IHy
      | l q r params trees Hlq Hname Hfirst Hq Hargs _ IHargs
      | | a b x params trees _ IHx _ IHrest ]
    using reads_reads_each
    with (P0 := fun params trees =>
                  forall depth,
                    Forall (fun p => (snd p - fst p < depth)%nat) params ->
                    Forall2 (fun p x => ParseExpression e depth fresh_Node (fst p) (snd p)
                                        = Some x) params trees);
    try (intros depth node Hdepth Hnode).
  - apply (sum_of_parsed e l r x Hsum); assumption.
  - destruct depth as [|depth]; [lia|].
    apply (ParseExpression_nothing e depth node l c Hnode Hc Hopen Hdigit).
  - destruct depth as [|depth]; [lia|].
    rewrite (ParseExpression_group e depth node l r ltac:(lia) Hopen Hclose).
    + apply IH; [lia | exact Hnode].
    + apply IsParBalance_prefixes; [fold size; lia | exact Hprefix].
  - destruct depth as [|depth]; [lia|].
    apply (ParseExpression_operation depth node l r p o x y Hnode).
    + destruct Htidy as [Hr _]. apply (surplus_parentheses_split l p r Hp Hr Hzero). eauto.
    + apply (FindArithmeticOperation_tidy e l r p o); assumption.
    + apply IHx; [lia | reflexivity].
    + apply IHy; [lia | reflexivity].
  - destruct depth as [|depth]; [lia|].
    apply (ParseExpression_call e depth node l q r params trees); try assumption.
    apply IHargs. pose proof (arguments_from_ranges _ _ _ Hargs) as Hall.
    eapply Forall_impl; [exact Hall|]. intros [a b]. simpl. lia.
  - intros depth _. constructor.
  - intros depth Hall. apply Forall_cons_1 in Hall as [Hhead Hall]. simpl in Hhead.
    constructor; [apply IHx; [exact Hhead | reflexivity] | apply IHrest, Hall].
Qed.

End Expressions.

(** X18: a text without spaces that reads as an expression is parsed to
    the tree of the usual rules. An expression is a sum of products of
    names and numbers; an expression in parentheses; two expressions
    around the last operation of lowest priority outside the parentheses,
    in a range where no operator and, behind the second such operation,
    no parenthesis follows an operation directly; or a call, a name
    before parentheses around expressions with commas between them. *)
Theorem ExpressionParser_reads_expressions :
  forall (expression : string) (tree : result Node),
    (forall i c, has_char expression i c -> (c =? " ")%char = false) ->
    reads expression 0 (String.length expression) tree ->
    ExpressionParser expression = tree.
Proof.
  intros e x Hspaces Hreads. unfold ExpressionParser.
  rewrite (GetRidOfSpaces_same e Hspaces).
  rewrite (reads_parsed e 0 (String.length e) x Hreads (parse_depth e) fresh_Node);
    [reflexivity | unfold parse_depth; nia | reflexivity].
Qed.

Lemma ExpressionParser_reads_a_product_of_a_group_and_a_call :
  ExpressionParser "(2+3)*add(x,4)"
  = Ok (binary Product
          (binary Plus (constant "0x2") (constant "0x3"))
          (call "add" [variable "x"; constant "0x4"])).
Proof.
  apply (ExpressionParser_reads_expressions "(2+3)*add(x,4)").
  { intros i c Hc. unfold has_char in Hc.
    do 14 (destruct i as [|i]; [injection Hc as <-; reflexivity|]). destruct i; discriminate. }
  apply (reads_split "(2+3)*add(x,4)" 0 5 14 Product
           (Ok (binary Plus (constant "0x2") (constant "0x3")))
           (Ok (call "add" [variable "x"; constant "0x4"]))).
  - split; [simpl; lia|]. intros i Hi [Hb Hat].
    positions i 14%nat ltac:(try (exfalso; destruct Hat as [t Hat]; not_an_operation Hb Hat)).
    split; [intros c _ Hc; injection Hc as <-; reflexivity|].
    intros _. split; [lia|]. intros c Hc. injection Hc as <-. reflexivity.
  - lia.
  - reflexivity.
  - exists "*"%char. auto.
  - intros i t Hi Hb Hat. positions i 14%nat ltac:(try (exfalso; not_an_operation Hb Hat)).
  - intros i t Hi Hb Hat. positions i 14%nat ltac:(try (exfalso; not_an_operation Hb Hat)).
  - apply (reads_group "(2+3)*add(x,4)" 0 5); [simpl; lia | reflexivity | reflexivity | |].
    + intros i Hi. positions i 4%nat ltac:(try (vm_compute; discriminate)).
    + apply reads_sum.
      apply (sum_more "(2+3)*add(x,4)" 1 2 4 "+" (Ok (constant "0x2")) (Ok (constant "0x3")));
        [|reflexivity | left; reflexivity|].
      * apply sum_product, (product_atom "(2+3)*add(x,4)" 1 2); [simpl; lia | plain_range].
      * apply (product_atom "(2+3)*add(x,4)" 3 4); [simpl; lia | plain_range].
  - apply (reads_call "(2+3)*add(x,4)" 6 9 14 [(10, 11); (12, 13)]%nat
             [Ok (variable "x"); Ok (constant "0x4")]).
    + lia.
    + intros i c Hi Hc. positions i 9%nat ltac:(try (injection Hc as <-; reflexivity)).
    + intros c Hc. injection Hc as <-. reflexivity.
    + reflexivity.
    + split; [reflexivity|]. split.
      { split; [lia|]. split; [|split; [|reflexivity]].
        - intros i Hi. assert (i = 10%nat) as -> by lia. vm_compute. discriminate.
        - intros i Hi Hc. assert (i = 10%nat) as -> by lia. discriminate. }
      split; [reflexivity|]. split; [reflexivity|]. split.
      { split; [lia|]. split; [|split; [|reflexivity]].
        - intros i Hi. assert (i = 12%nat) as -> by lia. vm_compute. discriminate.
        - intros i Hi Hc. assert (i = 12%nat) as -> by lia. discriminate. }
      split; reflexivity.
    + apply reads_more; [|apply reads_more; [|apply reads_none]]; apply reads_sum, sum_product.
      * apply (product_atom "(2+3)*add(x,4)" 10 11); [simpl; lia | plain_range].
      * apply (product_atom "(2+3)*add(x,4)" 12 13); [simpl; lia | plain_range].
Defined.

(** * The bounds on the loops *)

Section Bounds.

Variable e : string.

Let size : nat := String.length e.

(** With [fuel] steps left at [i], a loop that moves forward has all the
    steps it can take inside the text. *)
Let enough (fuel i : nat) : Prop := (size + 1 - i <= fuel)%nat.

Lemma skip_operators_fuel (fuel i : nat) :
  enough fuel i -> skip_operators e (S fuel) i = skip_operators e fuel i.
Proof.
  unfold enough. revert i. induction fuel as [|fuel IH]; intros i Hfuel.
  - cbn [skip_operators]. rewrite (char_at_beyond e i); [reflexivity | fold size; lia].
  - change (skip_operators e (S (S fuel)) i)
      with (let* c := char_at e i in
            if (c =? "*")%char || (c =? "-")%char || (c =? "+")%char
            then skip_operators e (S fuel) (S i) else Ok i).
    change (skip_operators e (S fuel) i)
      with (let* c := char_at e i in
            if (c =? "*")%char || (c =? "-")%char || (c =? "+")%char
            then skip_operators e fuel (S i) else Ok i).
    destruct (char_at e i) as [c|]; cbn [bind]; [|reflexivity].
    destruct (_ || _); [|reflexivity]. apply IH. lia.
Qed.

Lemma find_parenthesis_step (r fuel i : nat) :
  find_parenthesis e r (S fuel) i
  = if (i =? r)%nat then Ok r
    else let* c := char_at e i in
         if (c =? "(")%char then Ok i else find_parenthesis e r fuel (S i).
Proof. reflexivity. Qed.

Lemma find_parenthesis_fuel (r fuel i : nat) :
  enough fuel i -> find_parenthesis e r (S fuel) i = find_parenthesis e r fuel i.
Proof.
  unfold enough. revert i. induction fuel as [|fuel IH]; intros i Hfuel.
  - cbn [find_parenthesis]. destruct (i =? r)%nat; [reflexivity|].
    rewrite (char_at_beyond e i); [reflexivity | fold size; lia].
  - rewrite (find_parenthesis_step r (S fuel) i), (find_parenthesis_step r fuel i).
    destruct (i =? r)%nat; [reflexivity|].
    destruct (char_at e i) as [c|]; cbn [bind]; [|reflexivity].
    destruct (_ =? _)%char; [reflexivity|]. apply IH. lia.
Qed.

Lemma find_open_step (fuel i : nat) :
  find_open e (S fuel) i
  = let* c := char_at e i in
    if (c =? "(")%char then Ok i else find_open e fuel (S i).
Proof. reflexivity. Qed.

Lemma find_open_fuel (fuel i : nat) :
  enough fuel i -> find_open e (S fuel) i = find_open e fuel i.
Proof.
  unfold enough. revert i. induction fuel as [|fuel IH]; intros i Hfuel.
  - cbn [find_open]. rewrite (char_at_beyond e i); [reflexivity | fold size; lia].
  - rewrite (find_open_step (S fuel) i), (find_open_step fuel i).
    destruct (char_at e i) as [c|]; cbn [bind]; [|reflexivity].
    destruct (_ =? _)%char; [reflexivity|]. apply IH. lia.
Qed.

Lemma scan_parameter_fuel (fuel i : nat) (bal : Z) :
  enough fuel i -> scan_parameter e (S fuel) i bal = scan_parameter e fuel i bal.
Proof.
  unfold enough. revert i bal. induction fuel as [|fuel IH]; intros i bal Hfuel.
  - cbn [scan_parameter]. rewrite (char_at_beyond e i); [reflexivity | fold size; lia].
  - destruct (char_at_cases e i) as [(_ & c & Hc & _) | [[Hi Hz] | [_ Hb]]].
    + rewrite (scan_parameter_step e (S fuel) i bal c Hc),
        (scan_parameter_step e fuel i bal c Hc).
      destruct (_ || _); [|reflexivity]. destruct (_ && _); [reflexivity|]. apply IH. lia.
    + assert (forall f, scan_parameter e (S f) i bal = Error Undefined) as Hend.
      { intros f. cbn [scan_parameter]. rewrite Hz. cbn [bind].
        change (zero =? ",")%char with false. change (zero =? "(")%char with false.
        change (zero =? ")")%char with false. cbn [negb orb andb]. rewrite andb_false_r.
        destruct f as [|f]; [reflexivity|]. cbn [scan_parameter].
        rewrite (char_at_beyond e (S i)); [reflexivity | fold size; lia]. }
      rewrite !Hend. reflexivity.
    + cbn [scan_parameter]. rewrite Hb. reflexivity.
Qed.

Lemma find_operation_step (r fuel i : nat) type pos bal :
  find_operation e r (S fuel) i type pos bal
  = if (i =? r)%nat then Ok (type, pos)
    else
      let* c := char_at e i in
      if negb (bal + delta c =? 0) then find_operation e r fuel (S i) type pos (bal + delta c)
      else if is_Default (GetTypeFromChar c)
           then find_operation e r fuel (S i) type pos (bal + delta c)
           else
             match type with
             | None => find_operation e r fuel (S i) (Some (GetTypeFromChar c)) i (bal + delta c)
             | Some minimum =>
                 let* replace :=
                   if GetPriority (GetTypeFromChar c) <=? GetPriority minimum then
                     match i with
                     | O => Error Undefined
                     | S before =>
                         let* previous := char_at e before in
                         Ok (negb (previous =? "*")%char)
                     end
                   else Ok false in
                 let* j := skip_operators e (scan_fuel e) (S i) in
                 find_operation e r fuel (S j)
                   (if replace then Some (GetTypeFromChar c) else type)
                   (if replace then i else pos) (bal + delta c)
             end.
Proof.
  cbn [find_operation]. destruct (i =? r)%nat; [reflexivity|].
  destruct (char_at e i) as [c|]; cbn [bind]; [|reflexivity].
  rewrite !(loop_balance e). reflexivity.
Qed.

Lemma find_operation_fuel (r fuel i : nat) type pos bal :
  enough fuel i ->
  find_operation e r (S fuel) i type pos bal = find_operation e r fuel i type pos bal.
Proof.
  unfold enough. revert i type pos bal.
  induction fuel as [|fuel IH]; intros i type pos bal Hfuel.
  - cbn [find_operation]. destruct (i =? r)%nat; [reflexivity|].
    rewrite (char_at_beyond e i); [reflexivity | fold size; lia].
  - rewrite (find_operation_step r (S fuel) i type pos bal), (find_operation_step r fuel i type pos bal).
    destruct (i =? r)%nat; [reflexivity|].
    destruct (char_at e i) as [c|]; cbn [bind]; [|reflexivity].
    destruct (negb _); [apply IH; lia|]. destruct (is_Default _); [apply IH; lia|].
    destruct type as [minimum|]; [|apply IH; lia].
    match goal with |- (let* replace := ?m in _) = _ => destruct m as [replace|] end;
      cbn [bind]; [|reflexivity].
    destruct (skip_operators e (scan_fuel e) (S i)) as [j|] eqn:Hj; cbn [bind]; [|reflexivity].
    apply skip_operators_from in Hj. apply IH. lia.
Qed.

Lemma scan_parameter_from (fuel i : nat) (bal : Z) (closed : bool) (j : nat) :
  scan_parameter e fuel i bal = Ok (closed, j) -> (i <= j)%nat.
Proof.
  revert i bal. induction fuel as [|fuel IH]; intros i bal; cbn [scan_parameter];
    [discriminate|].
  destruct (char_at e i) as [c|]; cbn [bind]; [|discriminate].
  destruct (_ || _); [|intros [= _ <-]; lia].
  destruct (_ && _); [intros [= _ <-]; lia|]. intros H. apply IH in H. lia.
Qed.

Lemma scan_parameters_step (r fuel cl cr : nat) answer :
  scan_parameters e r (S fuel) cl cr answer
  = if (cr =? r)%nat then Error InternalConsistency
    else
      let* scanned := scan_parameter e (scan_fuel e) cr 0 in
      if fst scanned then Ok (answer ++ [(cl, snd scanned)])
      else scan_parameters e r fuel (S (snd scanned)) (S (snd scanned))
             (answer ++ [(cl, snd scanned)]).
Proof.
  cbn [scan_parameters]. destruct (cr =? r)%nat; [reflexivity|].
  destruct (scan_parameter e (scan_fuel e) cr 0) as [[closed j]|]; reflexivity.
Qed.

Lemma scan_parameters_fuel (r fuel cl cr : nat) answer :
  enough fuel cr ->
  scan_parameters e r (S fuel) cl cr answer = scan_parameters e r fuel cl cr answer.
Proof.
  unfold enough. revert cl cr answer.
  induction fuel as [|fuel IH]; intros cl cr answer Hfuel.
  - rewrite scan_parameters_step. cbn [scan_parameters].
    destruct (cr =? r)%nat; [reflexivity|].
    unfold scan_fuel. cbn [scan_parameter].
    rewrite (char_at_beyond e cr); [reflexivity | fold size; lia].
  - rewrite (scan_parameters_step r (S fuel) cl cr answer), (scan_parameters_step r fuel cl cr answer).
    destruct (cr =? r)%nat; [reflexivity|].
    destruct (scan_parameter e (scan_fuel e) cr 0) as [[closed j]|] eqn:Hj; cbn [bind fst snd];
      [|reflexivity].
    destruct closed; [reflexivity|]. apply scan_parameter_from in Hj. apply IH. lia.
Qed.

Lemma bind_deep_same {A B} (m : option (result A))
    (k k' : A -> option (result B)) (b : result B) :
  bind_deep m k = Some b -> (forall a, k a = Some b -> k' a = Some b) ->
  bind_deep m k' = Some b.
Proof. destruct m as [[a|err]|]; simpl; auto. Qed.

Lemma parse_parameters_deeper (PE PE' : Node -> nat -> nat -> option (result Node)) :
  (forall node l r x, PE node l r = Some x -> PE' node l r = Some x) ->
  forall params counter children x,
    parse_parameters PE params counter children = Some x ->
    parse_parameters PE' params counter children = Some x.
Proof.
  intros Hdeeper. induction params as [|[l r] rest IH]; intros counter children x;
    cbn [parse_parameters]; [exact (fun H => H)|].
  destruct (PE _ l r) as [[n|err]|] eqn:H; cbn [bind_deep]; [| |discriminate];
    rewrite (Hdeeper _ _ _ _ H); cbn [bind_deep]; [apply IH | exact (fun H => H)].
Qed.

(** One call of [ParseExpression], the calls inside it left to [PE]. *)
Let call_of (PE : Node -> nat -> nat -> option (result Node)) (node : Node) (l r : nat)
  : option (result Node) :=
  bind_deep (Some (surplus_parentheses e (scan_fuel e) l r 0)) (fun s =>
  bind_deep (Some (FindArithmeticOperation e (l + s) (r - s))) (fun found =>
  match found with
  | (Some type, pos) => ParseArithmetic PE node (l + s) (r - s) type pos
  | (None, _) =>
      bind_deep (Some (IsConstant e (l + s))) (fun constant =>
      if constant : bool then Some (ParseConstant e node (l + s) (r - s))
      else
        bind_deep (Some (IsFunction e (l + s) (r - s))) (fun function =>
        if function : bool then ParseFunction e PE node (l + s) (r - s)
        else Some (ParseVariable e node (l + s) (r - s))))
  end)).

Lemma ParseExpression_step (depth : nat) (node : Node) (l r : nat) :
  ParseExpression e (S depth) node l r = call_of (ParseExpression e depth) node l r.
Proof. reflexivity. Qed.

Lemma call_of_deeper (PE PE' : Node -> nat -> nat -> option (result Node)) :
  (forall node l r x, PE node l r = Some x -> PE' node l r = Some x) ->
  forall node l r x, call_of PE node l r = Some x -> call_of PE' node l r = Some x.
Proof.
  intros Hdeeper node l r x. unfold call_of.
  intros H. eapply bind_deep_same; [exact H|]. clear H. intros s H. cbv beta in *.
  eapply bind_deep_same; [exact H|]. clear H. intros [[type|] pos] H; cbv beta iota in *.
  - unfold ParseArithmetic in *.
    destruct (PE _ (l + s)%nat pos) as [[first|err]|] eqn:Hfirst;
      cbn [bind_deep] in H; [| |discriminate];
      rewrite (Hdeeper _ _ _ _ Hfirst); cbn [bind_deep]; [|exact H].
    destruct (PE _ (S pos) (r - s)%nat) as [[second|err]|] eqn:Hsecond;
      cbn [bind_deep] in H; [| |discriminate];
      rewrite (Hdeeper _ _ _ _ Hsecond); cbn [bind_deep]; exact H.
  - eapply bind_deep_same; [exact H|]. clear H. intros [|] H; [exact H|].
    eapply bind_deep_same; [exact H|]. clear H. intros [|] H; [|exact H].
    unfold ParseFunction in *.
    eapply bind_deep_same; [exact H|]. clear H. intros name H. cbv beta in *.
    eapply bind_deep_same; [exact H|]. clear H. intros params H. cbv beta in *.
    destruct (parse_parameters PE params 0 (sub_expressions node))
      as [[children|err]|] eqn:Hchildren; cbn [bind_deep] in H; [| |discriminate];
      rewrite (parse_parameters_deeper _ _ Hdeeper _ _ _ _ Hchildren); exact H.
Qed.

(** A result reached within some depth is reached within any greater. *)
Lemma ParseExpression_deeper (depth : nat) :
  forall node l r x,
    ParseExpression e depth node l r = Some x ->
    ParseExpression e (S depth) node l r = Some x.
Proof.
  induction depth as [|depth IH]; intros node l r x; [discriminate|].
  rewrite (ParseExpression_step (S depth) node l r), (ParseExpression_step depth node l r).
  apply call_of_deeper, IH.
Qed.

End Bounds.

(** X19: no loop of the parser runs on inside the text. Each of them
    ends, or reads outside the text, within as many steps as the text has
    characters, and two more: given more steps than that, each gives what
    it gives with that many. And a result [ParseExpression] reaches
    within some depth of recursion is the result at any greater depth. *)
Theorem the_loops_of_the_parser_end :
  forall (expression_ : string) (more : nat),
    let steps := (scan_fuel expression_ + more)%nat in
    (forall i, skip_operators expression_ steps i
               = skip_operators expression_ (scan_fuel expression_) i) /\
    (forall right i type pos balance,
        find_operation expression_ right steps i type pos balance
        = find_operation expression_ right (scan_fuel expression_) i type pos balance) /\
    (forall right i, find_parenthesis expression_ right steps i
                     = find_parenthesis expression_ right (scan_fuel expression_) i) /\
    (forall i, find_open expression_ steps i
               = find_open expression_ (scan_fuel expression_) i) /\
    (forall i balance, scan_parameter expression_ steps i balance
                       = scan_parameter expression_ (scan_fuel expression_) i balance) /\
    (forall right current_left current_right answer,
        scan_parameters expression_ right steps current_left current_right answer
        = scan_parameters expression_ right (scan_fuel expression_)
            current_left current_right answer) /\
    (forall left right surplus,
        surplus_parentheses expression_ steps left right surplus
        = surplus_parentheses expression_ (scan_fuel expression_) left right surplus) /\
    (forall depth node left right tree,
        ParseExpression expression_ depth node left right = Some tree ->
        ParseExpression expression_ (depth + more) node left right = Some tree).
Proof.
  intros e more. cbv zeta. induction more as [|more IH].
  - rewrite Nat.add_0_r. repeat split; try reflexivity.
    intros depth node l r x. rewrite Nat.add_0_r. exact (fun H => H).
  - rewrite Nat.add_succ_r.
    destruct IH as (IH1 & IH2 & IH3 & IH4 & IH5 & IH6 & IH7 & IH8).
    repeat split; intros.
    + rewrite <- IH1. apply skip_operators_fuel. unfold scan_fuel. lia.
    + rewrite <- IH2. apply find_operation_fuel. unfold scan_fuel. lia.
    + rewrite <- IH3. apply find_parenthesis_fuel. unfold scan_fuel. lia.
    + rewrite <- IH4. apply find_open_fuel. unfold scan_fuel. lia.
    + rewrite <- IH5. apply scan_parameter_fuel. unfold scan_fuel. lia.
    + rewrite <- IH6. apply scan_parameters_fuel. unfold scan_fuel. lia.
    + rewrite <- IH7. apply surplus_parentheses_fuel. unfold scan_fuel. lia.
    + rewrite Nat.add_succ_r. apply ParseExpression_deeper, IH8. assumption.
Qed.

(** ** Outside the rules

    What the parser makes of texts the rules above leave out: behind a
    second operation outside the parentheses the character that follows
    is not looked at, so an opening parenthesis there is missed and what
    it encloses is searched for operations; and behind an operator that
    ends the text the search goes on outside the text. *)

Example ExpressionParser_misses_the_parenthesis_behind_a_second_operation :
  ExpressionParser "a+b*(c+d)"
  = Ok (binary Plus
          (binary Plus (variable "a")
             (binary Product (variable "b")
                (call "" [binary Plus (variable "c") (variable "d")])))
          (variable "d)")).
Proof. vm_compute. reflexivity. Qed.

Example ExpressionParser_keeps_the_parenthesis_behind_the_first_operation :
  ExpressionParser "a*(c+d)"
  = Ok (binary Product (variable "a") (binary Plus (variable "c") (variable "d"))).
Proof. vm_compute. reflexivity. Qed.

Example ExpressionParser_reads_on_behind_a_last_operator :
  ExpressionParser "a+b+" = Error Undefined.
Proof. vm_compute. reflexivity. Qed.

Example ExpressionParser_fails_the_assertion_behind_a_last_comma :
  ExpressionParser "f(1," = Error InternalConsistency.
Proof. vm_compute. reflexivity. Qed.
